(** * A shallow embedding of the QUIC packet engine and of the framing mux

  The development follows the sources: [src/quic_conn.c] (variable-length
  integers, the AEAD nonce), [src/xprt_quic.c] (packet numbers, header
  protection, ACK ranges, ACK processing, the CRYPTO buffers, the
  handshake packet builder, the RX packet loops) and [src/mux_h3.c]
  (WINDOW_UPDATE and SETTINGS processing, stream identifiers, frame
  headers, the fragmentation of HEADERS frames, blocked streams).

  Machine integers are carried by [Z] with their wrap-around written out,
  byte buffers are lists of bytes, the [eb64] trees are lists of nodes in
  ascending key order, and external collaborators (AEAD, the TLS provider,
  the frame codec of [quic_frame.c]) are section variables. *)

From Stdlib Require Import ZArith List Lia Bool Sorted.
Import ListNotations.
Local Open Scope Z_scope.

(** ** Machine integers *)

Module Int.

Definition u8 (x : Z) : Z := x mod 2 ^ 8.
Definition u32 (x : Z) : Z := x mod 2 ^ 32.
Definition u64 (x : Z) : Z := x mod 2 ^ 64.

(** Two's complement reading of the low 32 (resp. 64) bits. *)
Definition s32 (x : Z) : Z := (x + 2 ^ 31) mod 2 ^ 32 - 2 ^ 31.
Definition s64 (x : Z) : Z := (x + 2 ^ 63) mod 2 ^ 64 - 2 ^ 63.

(** [(uint64_t)-1] *)
Definition UINT64_MAX : Z := 2 ^ 64 - 1.

End Int.

(** ** Variable-length integers ([src/quic_conn.c]) *)

Module Varint.
Import Int.

Definition QUIC_VARINT_BYTE_0_BITMASK : Z := 0x3f.
Definition QUIC_VARINT_BYTE_0_SHIFT : Z := 6.

(** The body of [while (--len) ret = (ret << 8) | *( *buf)++;] run for
    [n] iterations on the bytes that follow the first one. *)
Fixpoint dec_loop (n : nat) (ret : Z) (buf : list Z) : Z * list Z :=
  match n with
  | O => (ret, buf)
  | S n' =>
      match buf with
      | b :: buf' => dec_loop n' (u64 (Z.lor (Z.shiftl ret 8) b)) buf'
      | [] => (ret, buf)
      end
  end.

(** [quic_dec_int(buf, end)]: the argument is the byte sequence between
    [*buf] and [end]; the result is the returned value and the bytes left
    between the updated [*buf] and [end]. *)
Definition quic_dec_int (buf : list Z) : Z * list Z :=
  match buf with
  | [] => (UINT64_MAX, buf)
  | b0 :: rest =>
      let len := Z.shiftl 1 (Z.shiftr b0 QUIC_VARINT_BYTE_0_SHIFT) in
      if Z.of_nat (length buf) <? len then (UINT64_MAX, buf)
      else dec_loop (Z.to_nat len - 1)
                    (Z.land b0 QUIC_VARINT_BYTE_0_BITMASK) rest
  end.

(** An output position: the bytes already behind [*buf] and the slots
    from [*buf] to [end]. *)
Record cursor : Type := mkCursor { written : list Z; avail : list Z }.

(** [end - *buf] *)
Definition room (c : cursor) : Z := Z.of_nat (length (avail c)).

(** [*( *buf)++ = x], the value being converted to [unsigned char]. *)
Definition put (c : cursor) (x : Z) : cursor :=
  match avail c with
  | [] => c
  | _ :: tl => {| written := written c ++ [u8 x]; avail := tl |}
  end.

Definition quic_enc_int (c : cursor) (val : Z) : Z * cursor :=
  if (2 ^ 30 <=? val) && (val <=? 2 ^ 62 - 1) then
    if room c <? 8 then (0, c)
    else
      let c := put c (Z.lor 0xc0 (Z.shiftr val 56)) in
      let c := put c (Z.shiftr val 48) in
      let c := put c (Z.shiftr val 40) in
      let c := put c (Z.shiftr val 32) in
      let c := put c (Z.shiftr val 24) in
      let c := put c (Z.shiftr val 16) in
      let c := put c (Z.shiftr val 8) in
      (1, put c val)
  else if (2 ^ 14 <=? val) && (val <=? 2 ^ 30 - 1) then
    if room c <? 4 then (0, c)
    else
      let c := put c (Z.lor 0x80 (Z.shiftr val 24)) in
      let c := put c (Z.shiftr val 16) in
      let c := put c (Z.shiftr val 8) in
      (1, put c val)
  else if (2 ^ 6 <=? val) && (val <=? 2 ^ 14 - 1) then
    if room c <? 2 then (0, c)
    else
      let c := put c (Z.lor 0x40 (Z.shiftr val 8)) in
      (1, put c val)
  else if (0 <=? val) && (val <=? 2 ^ 6 - 1) then
    if room c <? 1 then (0, c)
    else (1, put c val)
  else (0, c).

(** The length chosen by the [switch] of [quic_enc_int]. *)
Definition enc_len (val : Z) : Z :=
  if val <? 2 ^ 6 then 1
  else if val <? 2 ^ 14 then 2
  else if val <? 2 ^ 30 then 4
  else 8.

(** A value fits an encoding of [n] bytes when it is below [2^(8n-2)]. *)
Definition fits (val n : Z) : Prop := val < 2 ^ (8 * n - 2).

End Varint.

(** ** Packet-number expansion ([src/xprt_quic.c]) *)

Module PacketNumber.
Import Int.

Definition decode_packet_number (largest_pn truncated_pn pn_nbits : Z) : Z :=
  let expected_pn := u64 (largest_pn + 1) in
  let pn_win := u64 (Z.shiftl 1 pn_nbits) in
  let pn_hwin := pn_win / 2 in
  let pn_mask := u64 (pn_win - 1) in
  let candidate_pn :=
    Z.lor (Z.land expected_pn (u64 (Z.lnot pn_mask))) truncated_pn in
  if u64 (candidate_pn + pn_hwin) <=? expected_pn then
    u64 (candidate_pn + pn_win)
  else if (u64 (expected_pn + pn_hwin) <? candidate_pn)
          && (pn_win <? candidate_pn) then
    u64 (candidate_pn - pn_win)
  else candidate_pn.

(** The window the spec names: [(expected - hwin, expected + hwin]]. *)
Definition in_window (largest_pn pn_nbits pn : Z) : Prop :=
  let expected := largest_pn + 1 in
  let hwin := 2 ^ pn_nbits / 2 in
  expected - hwin < pn <= expected + hwin.

End PacketNumber.

(** ** ACK ranges of a packet-number space ([src/xprt_quic.c]) *)

Module AckRanges.
Import Int.

(** [struct quic_ack_range]: the inclusive range [first .. last]. *)
Record quic_ack_range : Type := mkRange { first : Z; last : Z }.

(** [struct quic_ack_ranges]: the list (field [list] of the source),
    head first, and its counter. *)
Record quic_ack_ranges : Type :=
  mkRanges { lst : list quic_ack_range; sz : Z }.

Definition single (pn : Z) : quic_ack_range := {| first := pn; last := pn |}.

(** The body of [list_for_each_entry_safe(curr, next, l, list)]: the
    argument is the part of the list that starts at [curr], the result is
    what replaces it, with the updated counter.  Inserting between [prev]
    and [curr], and [LIST_ADD] at the head when there is no [prev], both
    put the new range just before [curr]. *)
Fixpoint update_loop (pn : Z) (l : list quic_ack_range) (sz : Z)
  : list quic_ack_range * Z :=
  match l with
  | [] => ([], sz)
  | curr :: rest =>
      if (first curr <=? pn) && (pn <=? last curr) then (l, sz)
      else if s64 (last curr + 1) <? pn then
        (single pn :: l, u64 (sz + 1))
      else if s64 (last curr + 1) =? pn then
        ({| first := first curr; last := pn |} :: rest, sz)
      else if first curr =? s64 (pn + 1) then
        match rest with
        | next :: rest' =>
            if pn =? s64 (last next + 1) then
              ({| first := first next; last := last curr |} :: rest',
               u64 (sz - 1))
            else ({| first := pn; last := last curr |} :: rest, sz)
        | [] => ({| first := pn; last := last curr |} :: rest, sz)
        end
      else
        match rest with
        | [] => ([curr; single pn], u64 (sz + 1))
        | _ :: _ =>
            let (rest', sz') := update_loop pn rest sz in
            (curr :: rest', sz')
        end
  end.

Definition quic_update_ack_ranges_list (ar : quic_ack_ranges) (pn : Z)
  : Z * quic_ack_ranges :=
  match lst ar with
  | [] => (1, {| lst := [single pn]; sz := u64 (sz ar + 1) |})
  | _ :: _ =>
      let (l', sz') := update_loop pn (lst ar) (sz ar) in
      (1, {| lst := l'; sz := sz' |})
  end.

(** A range of packet numbers: non-empty, within [0, 2^62). *)
Definition range_ok (r : quic_ack_range) : Prop :=
  0 <= first r <= last r /\ last r < 2 ^ 62.

(** [hi] lies above [lo] with at least one missing number in between:
    the two are disjoint and cannot be merged. *)
Definition above (hi lo : quic_ack_range) : Prop := last lo + 1 < first hi.

(** Sorted in descending order, pairwise disjoint and merged. *)
Definition ranges_ok (l : list quic_ack_range) : Prop :=
  Forall range_ok l /\ Sorted.StronglySorted above l.

(** The set of packet numbers a list of ranges stands for. *)
Definition covers (l : list quic_ack_range) (x : Z) : Prop :=
  Exists (fun r => first r <= x <= last r) l.

End AckRanges.

(** ** Connection state ([include/types/xprt_quic.h], [src/xprt_quic.c]) *)

Module Xprt.
Import Int AckRanges.

Definition QUIC_CRYPTO_IN_FLIGHT_MAX : Z := 4096.
Definition QUIC_FL_PKTNS_ACK_REQUIRED : Z := 1.
Definition QUIC_TLS_TAG_LEN : Z := 16.

Inductive quic_tls_enc_level : Type :=
| QUIC_TLS_ENC_LEVEL_INITIAL
| QUIC_TLS_ENC_LEVEL_EARLY_DATA
| QUIC_TLS_ENC_LEVEL_HANDSHAKE
| QUIC_TLS_ENC_LEVEL_APP.

Inductive quic_tls_pktns : Type :=
| QUIC_TLS_PKTNS_INITIAL
| QUIC_TLS_PKTNS_01RTT
| QUIC_TLS_PKTNS_HANDSHAKE.

Definition enc_level_eqb (a b : quic_tls_enc_level) : bool :=
  match a, b with
  | QUIC_TLS_ENC_LEVEL_INITIAL, QUIC_TLS_ENC_LEVEL_INITIAL
  | QUIC_TLS_ENC_LEVEL_EARLY_DATA, QUIC_TLS_ENC_LEVEL_EARLY_DATA
  | QUIC_TLS_ENC_LEVEL_HANDSHAKE, QUIC_TLS_ENC_LEVEL_HANDSHAKE
  | QUIC_TLS_ENC_LEVEL_APP, QUIC_TLS_ENC_LEVEL_APP => true
  | _, _ => false
  end.

Definition pktns_eqb (a b : quic_tls_pktns) : bool :=
  match a, b with
  | QUIC_TLS_PKTNS_INITIAL, QUIC_TLS_PKTNS_INITIAL
  | QUIC_TLS_PKTNS_01RTT, QUIC_TLS_PKTNS_01RTT
  | QUIC_TLS_PKTNS_HANDSHAKE, QUIC_TLS_PKTNS_HANDSHAKE => true
  | _, _ => false
  end.

(** Modelled from the spec: [quic_tls_pktns()], the map from an encryption
    level to its packet-number space, is in a header that is not among the
    sources; the spec has three spaces (Initial, Handshake, Application)
    for four levels, 0-RTT and Application sharing the last one. *)
Definition quic_tls_pktns_of (l : quic_tls_enc_level) : quic_tls_pktns :=
  match l with
  | QUIC_TLS_ENC_LEVEL_INITIAL => QUIC_TLS_PKTNS_INITIAL
  | QUIC_TLS_ENC_LEVEL_EARLY_DATA => QUIC_TLS_PKTNS_01RTT
  | QUIC_TLS_ENC_LEVEL_HANDSHAKE => QUIC_TLS_PKTNS_HANDSHAKE
  | QUIC_TLS_ENC_LEVEL_APP => QUIC_TLS_PKTNS_01RTT
  end.

(** [struct quic_pktns] *)
Record quic_pktns : Type := mkPktns {
  tx_next_pn : Z;
  rx_largest_pn : Z;
  rx_largest_acked_pn : Z;
  rx_nb_ack_eliciting : Z;
  rx_ack_ranges : quic_ack_ranges;
  flags : Z
}.

(** [struct quic_tx_crypto_frm]; [pn] is the key of its [eb64] node. *)
Record quic_tx_crypto_frm : Type := mkFrm { pn : Z; offset : Z; len : Z }.

(** The frames [qc_parse_frm] hands to the packet parsers.  A CRYPTO frame
    carries its offset and its data (its length is the length of the
    data); an ACK frame carries the fields of [struct quic_ack] and the
    bytes that follow them in the packet, from which the (gap, range)
    pairs are read. *)
Record quic_ack : Type := mkAck {
  largest_ack : Z;
  ack_delay : Z;
  ack_range_num : Z;
  first_ack_range : Z
}.

Inductive quic_frame : Type :=
| QUIC_FT_PADDING (padding_len : Z)
| QUIC_FT_PING
| QUIC_FT_ACK (ack : quic_ack) (ranges : list Z)
| QUIC_FT_CRYPTO (crypto_offset : Z) (crypto_data : list Z)
| QUIC_FT_CONNECTION_CLOSE
| QUIC_FT_CONNECTION_CLOSE_APP
| QUIC_FT_NEW_CONNECTION_ID
| QUIC_FT_STREAM_A
| QUIC_FT_STREAM_B
| QUIC_FT_OTHER (type : Z).

(** [struct quic_rx_packet], as [src/xprt_quic.c] uses it.  The two flag
    bits are kept as booleans; [payload] is what the frame codec makes of
    the decrypted payload, one entry per call of [qc_parse_frm], [None]
    standing for a call that fails. *)
Record quic_rx_packet : Type := mkRxPacket {
  rx_pn : Z;
  long_header : bool;
  ack_eliciting : bool;
  out_of_order : bool;
  crypto_off : Z;
  crypto_len : Z;
  crypto_dat : list Z;
  decrypts : bool;
  payload : list (option quic_frame)
}.

(** [struct quic_enc_level]; the [eb64] trees are the lists of their nodes
    in ascending key order. *)
Record quic_enc_level : Type := mkEncLevel {
  rx_qpkts : list quic_rx_packet;
  rx_crypto_offset : Z;
  tx_crypto_offset : Z;
  tx_crypto_frms : list quic_tx_crypto_frm;
  tx_crypto_retransmit_frms : list quic_tx_crypto_frm
}.

(** [struct quic_conn], with the TLS provider of its I/O context: [ssl] is
    the list of the CRYPTO data the provider has accepted, latest first,
    each with the level whose packet carried it.  [objt_server] tells
    whether [conn->conn->target] is a server. *)
Record quic_conn : Type := mkConn {
  dcid_len : Z;
  scid_len : Z;
  objt_server : bool;
  enc_levels : quic_tls_enc_level -> quic_enc_level;
  pktns : quic_tls_pktns -> quic_pktns;
  crypto_in_flight : Z;
  retransmit : Z;
  ssl : list (quic_tls_enc_level * list Z)
}.

Definition set_enc_level (c : quic_conn) (tel : quic_tls_enc_level)
    (qel : quic_enc_level) : quic_conn :=
  {| dcid_len := dcid_len c; scid_len := scid_len c;
     objt_server := objt_server c;
     enc_levels := fun l => if enc_level_eqb l tel then qel else enc_levels c l;
     pktns := pktns c;
     crypto_in_flight := crypto_in_flight c;
     retransmit := retransmit c;
     ssl := ssl c |}.

Definition set_pktns (c : quic_conn) (ns : quic_tls_pktns)
    (p : quic_pktns) : quic_conn :=
  {| dcid_len := dcid_len c; scid_len := scid_len c;
     objt_server := objt_server c;
     enc_levels := enc_levels c;
     pktns := fun n => if pktns_eqb n ns then p else pktns c n;
     crypto_in_flight := crypto_in_flight c;
     retransmit := retransmit c;
     ssl := ssl c |}.

Definition set_crypto_in_flight (c : quic_conn) (v : Z) : quic_conn :=
  {| dcid_len := dcid_len c; scid_len := scid_len c;
     objt_server := objt_server c;
     enc_levels := enc_levels c;
     pktns := pktns c;
     crypto_in_flight := v;
     retransmit := retransmit c;
     ssl := ssl c |}.

Definition set_retransmit (c : quic_conn) (v : Z) : quic_conn :=
  {| dcid_len := dcid_len c; scid_len := scid_len c;
     objt_server := objt_server c;
     enc_levels := enc_levels c;
     pktns := pktns c;
     crypto_in_flight := crypto_in_flight c;
     retransmit := v;
     ssl := ssl c |}.

Definition set_ssl (c : quic_conn)
    (v : list (quic_tls_enc_level * list Z)) : quic_conn :=
  {| dcid_len := dcid_len c; scid_len := scid_len c;
     objt_server := objt_server c;
     enc_levels := enc_levels c;
     pktns := pktns c;
     crypto_in_flight := crypto_in_flight c;
     retransmit := retransmit c;
     ssl := v |}.

(** Field updates of [struct quic_enc_level] and [struct quic_pktns]. *)
Definition set_tx_crypto_frms (qel : quic_enc_level)
    (frms rfrms : list quic_tx_crypto_frm) : quic_enc_level :=
  {| rx_qpkts := rx_qpkts qel;
     rx_crypto_offset := rx_crypto_offset qel;
     tx_crypto_offset := tx_crypto_offset qel;
     tx_crypto_frms := frms;
     tx_crypto_retransmit_frms := rfrms |}.

Definition set_rx (qel : quic_enc_level) (qpkts : list quic_rx_packet)
    (off : Z) : quic_enc_level :=
  {| rx_qpkts := qpkts;
     rx_crypto_offset := off;
     tx_crypto_offset := tx_crypto_offset qel;
     tx_crypto_frms := tx_crypto_frms qel;
     tx_crypto_retransmit_frms := tx_crypto_retransmit_frms qel |}.

Definition set_flags (p : quic_pktns) (v : Z) : quic_pktns :=
  {| tx_next_pn := tx_next_pn p;
     rx_largest_pn := rx_largest_pn p;
     rx_largest_acked_pn := rx_largest_acked_pn p;
     rx_nb_ack_eliciting := rx_nb_ack_eliciting p;
     rx_ack_ranges := rx_ack_ranges p;
     flags := v |}.

Definition set_tx_next_pn (p : quic_pktns) (v : Z) : quic_pktns :=
  {| tx_next_pn := v;
     rx_largest_pn := rx_largest_pn p;
     rx_largest_acked_pn := rx_largest_acked_pn p;
     rx_nb_ack_eliciting := rx_nb_ack_eliciting p;
     rx_ack_ranges := rx_ack_ranges p;
     flags := flags p |}.

Definition set_rx_largest_acked_pn (p : quic_pktns) (v : Z) : quic_pktns :=
  {| tx_next_pn := tx_next_pn p;
     rx_largest_pn := rx_largest_pn p;
     rx_largest_acked_pn := v;
     rx_nb_ack_eliciting := rx_nb_ack_eliciting p;
     rx_ack_ranges := rx_ack_ranges p;
     flags := flags p |}.

(** [qel->pktns] *)
Definition qel_pktns (c : quic_conn) (tel : quic_tls_enc_level) : quic_pktns :=
  pktns c (quic_tls_pktns_of tel).

(** *** [eb64] trees *)

Section Eb64.
Context {A : Type} (key : A -> Z).

(** [eb64_insert]: after the nodes whose key is not above the new one. *)
Fixpoint eb64_insert (root : list A) (new : A) : list A :=
  match root with
  | [] => [new]
  | node :: root' =>
      if key node <=? key new then node :: eb64_insert root' new
      else new :: root
  end.

(** [eb64_lookup]: the first node with key [x], together with the nodes
    before it, nearest first (the order in which [eb64_prev] reaches them),
    and the nodes after it. *)
Fixpoint eb64_lookup_from (before root : list A) (x : Z)
  : option (list A * A * list A) :=
  match root with
  | [] => None
  | node :: root' =>
      if key node =? x then Some (before, node, root')
      else eb64_lookup_from (node :: before) root' x
  end.

Definition eb64_lookup (root : list A) (x : Z) : option (list A * A * list A) :=
  eb64_lookup_from [] root x.

End Eb64.

(** *** ACK processing *)

(** Modelled from the spec: the three-argument [quic_dec_int] used by
    [src/xprt_quic.c] is declared in a header that is not among the
    sources.  As §4.1 describes it, it decodes one variable-length integer,
    like [quic_dec_int] of [src/quic_conn.c], and fails on insufficient
    input. *)
Definition quic_dec_int3 (buf : list Z) : option (Z * list Z) :=
  match buf with
  | [] => None
  | b0 :: rest =>
      let n := Z.shiftl 1 (Z.shiftr b0 Varint.QUIC_VARINT_BYTE_0_SHIFT) in
      if Z.of_nat (length buf) <? n then None
      else Some (Varint.dec_loop (Z.to_nat n - 1)
                   (Z.land b0 Varint.QUIC_VARINT_BYTE_0_BITMASK) rest)
  end.

(** The loop of [quic_ack_range_crypto_frames], started at [node]: the
    argument lists [node] and the nodes [eb64_prev] reaches from it. *)
Fixpoint ack_range_walk (before : list quic_tx_crypto_frm)
    (ifcdata smallest : Z) : list quic_tx_crypto_frm * Z :=
  match before with
  | node :: before' =>
      if smallest <=? pn node then
        ack_range_walk before' (u64 (ifcdata - len node)) smallest
      else (before, ifcdata)
  | [] => ([], ifcdata)
  end.

(** [quic_ack_range_crypto_frames]: the result is the returned node with
    the nodes before it, nearest first (empty when the function returns
    NULL), the nodes after it, and the counter [*ifcdata]. *)
Definition quic_ack_range_crypto_frames (frms : list quic_tx_crypto_frm)
    (ifcdata largest smallest : Z)
  : list quic_tx_crypto_frm * list quic_tx_crypto_frm * Z :=
  match eb64_lookup pn frms largest with
  | None => ([], frms, ifcdata)
  | Some (before, node, after) =>
      let (before', ifcdata') :=
        ack_range_walk (node :: before) ifcdata smallest in
      (before', after, ifcdata')
  end.

(** The aggregation loop of [quic_ack_range_with_gap_crypto_frames]. *)
Fixpoint gap_walk (frm : quic_tx_crypto_frm)
    (before : list quic_tx_crypto_frm) (next_largest : Z)
  : quic_tx_crypto_frm * list quic_tx_crypto_frm :=
  match before with
  | node :: before' =>
      if next_largest <? pn node then
        gap_walk {| pn := pn node; offset := offset node;
                    len := u64 (len node + len frm) |}
                 before' next_largest
      else (frm, before)
  | [] => (frm, [])
  end.

(** What [quic_ack_range_with_gap_crypto_frames] returns: NULL, or a frame
    at its place in the tree. *)
Inductive gap_frm : Type :=
| GapNull (frms : list quic_tx_crypto_frm)
| GapFrm (before : list quic_tx_crypto_frm) (frm : quic_tx_crypto_frm)
         (after : list quic_tx_crypto_frm).

Definition quic_ack_range_with_gap_crypto_frames
    (frms : list quic_tx_crypto_frm)
    (ifcdata largest smallest next_largest : Z) : gap_frm * Z :=
  let '(before, after, ifcdata) :=
    quic_ack_range_crypto_frames frms ifcdata largest smallest in
  match before with
  | [] => (GapNull after, ifcdata)
  | node :: before' =>
      let (frm, before'') := gap_walk node before' next_largest in
      (GapFrm before'' frm after, u64 (ifcdata - len frm))
  end.

(** The state the loop of [qc_parse_ack_frm] works on. *)
Record ack_state : Type := mkAckState {
  as_frms : list quic_tx_crypto_frm;
  as_retransmit_frms : list quic_tx_crypto_frm;
  as_crypto_in_flight : Z;
  as_retransmit : Z;
  as_pos : list Z
}.

(** The [do ... while (1)] loop of [qc_parse_ack_frm]; [n] is
    [ack->ack_range_num].  The result is 1 when the loop is left by
    [break] and 0 when it is left by [goto err]; what was done to the
    trees before an error stays done. *)
Fixpoint ack_loop (n : nat) (st : ack_state) (largest smallest : Z)
  : Z * ack_state :=
  match n with
  | O =>
      let '(before, after, ifcdata) :=
        quic_ack_range_crypto_frames (as_frms st) (as_crypto_in_flight st)
                                     largest smallest in
      (1, {| as_frms := rev_append before after;
             as_retransmit_frms := as_retransmit_frms st;
             as_crypto_in_flight := ifcdata;
             as_retransmit := as_retransmit st;
             as_pos := as_pos st |})
  | S n' =>
      match quic_dec_int3 (as_pos st) with
      | None => (0, st)
      | Some (gap, pos1) =>
          let st1 := {| as_frms := as_frms st;
                        as_retransmit_frms := as_retransmit_frms st;
                        as_crypto_in_flight := as_crypto_in_flight st;
                        as_retransmit := as_retransmit st;
                        as_pos := pos1 |} in
          if smallest <? u64 (gap + 2) then (0, st1)
          else
            match quic_dec_int3 pos1 with
            | None => (0, st1)
            | Some (ack_range, pos2) =>
                let next_largest := u64 (smallest - gap - 2) in
                if next_largest <? ack_range then
                  (0, {| as_frms := as_frms st;
                         as_retransmit_frms := as_retransmit_frms st;
                         as_crypto_in_flight := as_crypto_in_flight st;
                         as_retransmit := as_retransmit st;
                         as_pos := pos2 |})
                else
                  let (frm, ifcdata) :=
                    quic_ack_range_with_gap_crypto_frames
                      (as_frms st) (as_crypto_in_flight st)
                      largest smallest next_largest in
                  let st2 :=
                    match frm with
                    | GapNull frms =>
                        {| as_frms := frms;
                           as_retransmit_frms := as_retransmit_frms st;
                           as_crypto_in_flight := ifcdata;
                           as_retransmit := as_retransmit st;
                           as_pos := pos2 |}
                    | GapFrm before frm after =>
                        {| as_frms := rev_append before after;
                           as_retransmit_frms :=
                             eb64_insert pn (as_retransmit_frms st) frm;
                           as_crypto_in_flight := ifcdata;
                           as_retransmit := 1;
                           as_pos := pos2 |}
                    end in
                  ack_loop n' st2 next_largest (u64 (next_largest - ack_range))
            end
      end
  end.

(** [qc_parse_ack_frm] for the frame [ack] at level [tel]; [pos] is the
    input that follows the fixed fields of the frame.  Returns the result
    of the function, the connection and the input left. *)
Definition qc_parse_ack_frm (ack : quic_ack) (c : quic_conn)
    (tel : quic_tls_enc_level) (pos : list Z) : Z * quic_conn * list Z :=
  let qel := enc_levels c tel in
  let ns := qel_pktns c tel in
  if u64 (tx_next_pn ns) <? largest_ack ack then (0, c, pos)
  else if largest_ack ack <? first_ack_range ack then (0, c, pos)
  else
    let largest := largest_ack ack in
    let smallest := u64 (largest - first_ack_range ack) in
    let (ret, st) :=
      ack_loop (Z.to_nat (ack_range_num ack))
        {| as_frms := tx_crypto_frms qel;
           as_retransmit_frms := tx_crypto_retransmit_frms qel;
           as_crypto_in_flight := crypto_in_flight c;
           as_retransmit := retransmit c;
           as_pos := pos |}
        largest smallest in
    let qel' := set_tx_crypto_frms qel (as_frms st) (as_retransmit_frms st) in
    let c1 :=
      set_retransmit
        (set_crypto_in_flight (set_enc_level c tel qel')
                              (as_crypto_in_flight st))
        (as_retransmit st) in
    if ret =? 0 then (0, c1, as_pos st)
    else
      let c2 :=
        if u64 (rx_largest_acked_pn ns) <? largest_ack ack then
          set_pktns c1 (quic_tls_pktns_of tel)
            (set_rx_largest_acked_pn ns (s64 (largest_ack ack)))
        else c1 in
      (1, c2, as_pos st).

(** *** The handshake packet builder *)

Inductive quic_packet_type : Type :=
| QUIC_PACKET_TYPE_INITIAL
| QUIC_PACKET_TYPE_0RTT
| QUIC_PACKET_TYPE_HANDSHAKE
| QUIC_PACKET_TYPE_RETRY.

Definition is_initial (t : quic_packet_type) : bool :=
  match t with QUIC_PACKET_TYPE_INITIAL => true | _ => false end.

(** The frames the builder emits: an ACK frame built from a list of
    ranges, a CRYPTO frame for [tx_len] bytes at offset [tx_off], and
    padding. *)
Inductive quic_tx_frame : Type :=
| TX_FT_ACK (tx_ack_delay : Z) (tx_ack_ranges : quic_ack_ranges)
| TX_FT_CRYPTO (tx_off tx_len : Z)
| TX_FT_PADDING (tx_padding_len : Z).

(** What the builder and the RX loop call and the sources at hand do not
    define: constants and helpers of absent headers, the frame codec, the
    AEAD and header-protection primitives, the pool allocator and the TLS
    provider.  Sizes are in bytes; [qc_build_frm room frm] is the number
    of bytes the frame takes when it fits in [room]. *)
Class Collaborators : Type := {
  QUIC_LONG_PACKET_MINLEN : Z;
  QUIC_INITIAL_PACKET_MINLEN : Z;
  sizeof_frm_type : Z;
  trash_size : Z;
  quic_packet_number_length : Z -> Z -> Z;
  quic_int_getsize : Z -> Z;
  max_stream_data_size : Z -> Z -> Z -> Z;
  qc_build_frm : Z -> quic_tx_frame -> option Z;
  quic_packet_encrypt : Z -> Z -> Z -> bool;
  quic_apply_header_protection : Z -> bool;
  pool_alloc_tx_crypto_frm : Z -> bool;
  SSL_provide_quic_data : list (quic_tls_enc_level * list Z) -> list Z -> bool
}.

(** A packet committed to an output buffer. *)
Record tx_packet : Type := mkTxPacket {
  tp_type : quic_packet_type;
  tp_pn : Z;
  tp_frames : list quic_tx_frame
}.

(** [struct q_buf]: positions are offsets from [area]; [q_pkts] lists the
    packets that lie before [pos], latest first. *)
Record q_buf : Type := mkQBuf {
  q_pos : Z;
  q_end : Z;
  q_data : Z;
  q_pkts : list tx_packet
}.

(** What [qc_do_build_hdshk_pkt] hands back: its result, [*buf_pn],
    [*pn_len], [*offset] and the frames it has put in the packet. *)
Record hdshk_pkt : Type := mkHdshkPkt {
  hp_ret : Z;
  hp_buf_pn : Z;
  hp_pn_len : Z;
  hp_offset : Z;
  hp_frames : list quic_tx_frame
}.

(** Modelled from the spec: [quic_enc_int] of the transport layer is in an
    absent header; as §4.1 has it, it stores the shortest encoding of the
    value, or nothing when the value or the room does not allow it.  The
    result is the number of bytes stored. *)
Definition quic_enc_int_sz (room val : Z) : Z :=
  if (0 <=? val) && (val <? 2 ^ 62) && (Varint.enc_len val <=? room)
  then Varint.enc_len val else 0.

Section Builder.
Context {ext : Collaborators}.

Definition quic_do_build_ack_frame (qars : quic_ack_ranges) : Z :=
  match qc_build_frm trash_size (TX_FT_ACK 0 qars) with
  | None => 0
  | Some n => n
  end.

Definition ack_required (ns : quic_pktns) : bool :=
  negb (Z.land (flags ns) QUIC_FL_PKTNS_ACK_REQUIRED =? 0)
  && match lst (rx_ack_ranges ns) with [] => false | _ :: _ => true end.

(** [flags &= ~QUIC_FL_PKTNS_ACK_REQUIRED] *)
Definition clear_ack_required (ns : quic_pktns) : quic_pktns :=
  set_flags ns (u32 (Z.land (flags ns) (u64 (Z.lnot QUIC_FL_PKTNS_ACK_REQUIRED)))).

(** The clamp of lines 3221-3227. *)
Definition clamp_crypto_len (c : quic_conn) (crypto_len : Z) : Z :=
  if u64 (QUIC_CRYPTO_IN_FLIGHT_MAX - crypto_in_flight c) <? crypto_len
  then u64 (QUIC_CRYPTO_IN_FLIGHT_MAX - crypto_in_flight c)
  else crypto_len.

Definition hdshk_err (off : Z) : hdshk_pkt :=
  {| hp_ret := -1; hp_buf_pn := 0; hp_pn_len := 0; hp_offset := off;
     hp_frames := [] |}.

Definition qc_do_build_hdshk_pkt (wbuf : q_buf) (pkt_type : quic_packet_type)
    (off crypto_len0 : Z) (tel : quic_tls_enc_level) (c : quic_conn)
  : hdshk_pkt * quic_conn :=
  let ns := qel_pktns c tel in
  let beg := q_pos wbuf in
  let end_ := q_end wbuf in
  let crypto_len :=
    if crypto_len0 =? 0 then 0 else clamp_crypto_len c crypto_len0 in
  if negb (crypto_len0 =? 0) && (crypto_len =? 0) then
    (* ifcdata limit reached: goto out *)
    ({| hp_ret := 0; hp_buf_pn := 0; hp_pn_len := 0; hp_offset := off;
        hp_frames := [] |}, c)
  else
    let frm_header_sz :=
      if crypto_len =? 0 then 0 else sizeof_frm_type + quic_int_getsize off in
    let token_fields_len := if is_initial pkt_type then 1 else 0 in
    if end_ - beg <? QUIC_LONG_PACKET_MINLEN + dcid_len c + scid_len c
                     + token_fields_len
    then (hdshk_err off, c)
    else
      let pn := s64 (tx_next_pn ns + 1) in
      let pn_len := quic_packet_number_length pn (rx_largest_acked_pn ns) in
      (* quic_build_packet_long_header *)
      let pos := beg + (1 + 4 + 1 + dcid_len c + 1 + scid_len c) in
      let pos := if is_initial pkt_type then pos + 1 else pos in
      (* Build an ACK frame if required. *)
      let ack_frm_len :=
        if ack_required ns then quic_do_build_ack_frame (rx_ack_ranges ns)
        else 0 in
      if ack_required ns && (ack_frm_len =? 0) then (hdshk_err off, c)
      else
        let c :=
          if ack_required ns then
            set_pktns c (quic_tls_pktns_of tel) (clear_ack_required ns)
          else c in
        let len := ack_frm_len + pn_len + frm_header_sz + QUIC_TLS_TAG_LEN in
        let crypto_frm_len :=
          if crypto_len =? 0 then 0
          else max_stream_data_size (end_ - pos) len crypto_len in
        let len :=
          if crypto_len =? 0 then len
          else len + quic_int_getsize crypto_frm_len + crypto_frm_len in
        let padding_len :=
          if objt_server c && is_initial pkt_type
             && (len <? QUIC_INITIAL_PACKET_MINLEN)
          then QUIC_INITIAL_PACKET_MINLEN - len else 0 in
        let len := len + padding_len in
        let pos := pos + quic_enc_int_sz (end_ - pos) len in
        let buf_pn := pos in
        (* quic_packet_number_encode *)
        let pos := pos + pn_len in
        let ack_frms :=
          if ack_frm_len =? 0 then [] else [TX_FT_ACK 0 (rx_ack_ranges ns)] in
        let pos := pos + ack_frm_len in
        let crypto_frm := TX_FT_CRYPTO off crypto_frm_len in
        match
          (if crypto_len =? 0 then Some 0
           else qc_build_frm (end_ - pos) crypto_frm)
        with
        | None => (hdshk_err off, c)
        | Some n =>
            let pos := pos + n in
            let crypto_frms := if crypto_len =? 0 then [] else [crypto_frm] in
            match
              (if padding_len =? 0 then Some 0
               else qc_build_frm (end_ - pos) (TX_FT_PADDING padding_len))
            with
            | None => (hdshk_err off, c)
            | Some m =>
                let pos := pos + m in
                let padding_frms :=
                  if padding_len =? 0 then []
                  else [TX_FT_PADDING padding_len] in
                ({| hp_ret := pos - beg;
                    hp_buf_pn := buf_pn;
                    hp_pn_len := pn_len;
                    hp_offset :=
                      if crypto_len =? 0 then off
                      else u64 (off + crypto_frm_len);
                    hp_frames := ack_frms ++ crypto_frms ++ padding_frms |},
                 c)
            end
        end.

(** [qc_build_hdshk_pkt]: the result of the function, the buffer, the
    connection and [*offset]. *)
Definition qc_build_hdshk_pkt (buf : q_buf) (c : quic_conn)
    (pkt_type : quic_packet_type) (off len0 : Z) (tel : quic_tls_enc_level)
  : Z * q_buf * quic_conn * Z :=
  let beg := q_pos buf in
  let next_offset0 := off in
  let (pkt, c) :=
    qc_do_build_hdshk_pkt buf pkt_type next_offset0 len0 tel c in
  let pkt_len := hp_ret pkt in
  let next_offset := hp_offset pkt in
  if pkt_len <=? 0 then (pkt_len, buf, c, off)
  else
    let ns := qel_pktns c tel in
    let end_ := beg + pkt_len in
    let pkt_pn := s64 (tx_next_pn ns + 1) in
    let payload := hp_buf_pn pkt + hp_pn_len pkt in
    let payload_len := end_ - payload in
    let aad_len := payload - beg in
    if negb (quic_packet_encrypt pkt_pn payload_len aad_len) then (-2, buf, c, off)
    else
      let end_ := end_ + QUIC_TLS_TAG_LEN in
      if negb (quic_apply_header_protection (hp_pn_len pkt))
      then (-2, buf, c, off)
      else
        (* q_buf_setpos(buf, end) *)
        let buf :=
          {| q_pos := end_; q_end := q_end buf; q_data := q_data buf;
             q_pkts := {| tp_type := pkt_type; tp_pn := pkt_pn;
                          tp_frames := hp_frames pkt |} :: q_pkts buf |} in
        (* ++qel->pktns->tx.next_pn *)
        let ns := set_tx_next_pn ns (s64 (tx_next_pn ns + 1)) in
        let c := set_pktns c (quic_tls_pktns_of tel) ns in
        let commit (c : quic_conn) (off : Z) :=
          (end_ - beg,
           {| q_pos := q_pos buf; q_end := q_end buf;
              q_data := u64 (q_data buf + (end_ - beg));
              q_pkts := q_pkts buf |},
           c, off) in
        if u64 (next_offset - off) =? 0 then commit c off
        else if negb (pool_alloc_tx_crypto_frm (tx_next_pn ns))
        then (-2, buf, c, off)
        else
          let cf := {| pn := u64 (tx_next_pn ns); offset := off;
                       len := u64 (next_offset - off) |} in
          let qel := enc_levels c tel in
          let qel :=
            set_tx_crypto_frms qel (eb64_insert pn (tx_crypto_frms qel) cf)
                               (tx_crypto_retransmit_frms qel) in
          let c := set_enc_level c tel qel in
          let c := set_crypto_in_flight c (u64 (crypto_in_flight c + len cf)) in
          commit c (u64 (off + len cf)).

End Builder.

(** *** The RX packet loop *)

Definition set_crypto (qpkt : quic_rx_packet) (ooo : bool) (off : Z)
    (data : list Z) : quic_rx_packet :=
  {| rx_pn := rx_pn qpkt;
     long_header := long_header qpkt;
     ack_eliciting := true;
     out_of_order := ooo;
     crypto_off := off;
     crypto_len := Z.of_nat (length data);
     crypto_dat := data;
     decrypts := decrypts qpkt;
     payload := payload qpkt |}.

Definition set_ack_eliciting (qpkt : quic_rx_packet) : quic_rx_packet :=
  {| rx_pn := rx_pn qpkt;
     long_header := long_header qpkt;
     ack_eliciting := true;
     out_of_order := out_of_order qpkt;
     crypto_off := crypto_off qpkt;
     crypto_len := crypto_len qpkt;
     crypto_dat := crypto_dat qpkt;
     decrypts := decrypts qpkt;
     payload := payload qpkt |}.

(** The [while (pos < end)] loop of [qc_parse_hdshk_pkt] on the results of
    the successive calls of [qc_parse_frm]. *)
Fixpoint parse_hdshk_frms (frms : list (option quic_frame))
    (qpkt : quic_rx_packet) (c : quic_conn) (tel : quic_tls_enc_level)
  : Z * quic_rx_packet * quic_conn :=
  match frms with
  | [] => (1, qpkt, c)
  | None :: _ => (0, qpkt, c)
  | Some frm :: frms' =>
      match frm with
      | QUIC_FT_CRYPTO off data =>
          let ooo :=
            if off =? rx_crypto_offset (enc_levels c tel)
            then out_of_order qpkt else true in
          parse_hdshk_frms frms' (set_crypto qpkt ooo off data) c tel
      | QUIC_FT_PADDING _ => parse_hdshk_frms frms' qpkt c tel
      | QUIC_FT_ACK ack ranges =>
          let '(ret, c', _) := qc_parse_ack_frm ack c tel ranges in
          if ret =? 0 then (0, qpkt, c')
          else parse_hdshk_frms frms' qpkt c' tel
      | QUIC_FT_PING => parse_hdshk_frms frms' (set_ack_eliciting qpkt) c tel
      | QUIC_FT_CONNECTION_CLOSE => parse_hdshk_frms frms' qpkt c tel
      | _ => (0, qpkt, c)
      end
  end.

Definition qc_parse_hdshk_pkt (qpkt : quic_rx_packet) (c : quic_conn)
    (tel : quic_tls_enc_level) : Z * quic_rx_packet * quic_conn :=
  parse_hdshk_frms (payload qpkt) qpkt c tel.

(** The loop of [qc_parse_apkt]; a PADDING frame must be the last one
    ([pos == end] after it, that is no other frame follows). *)
Fixpoint parse_apkt_frms (frms : list (option quic_frame))
    (qpkt : quic_rx_packet) (c : quic_conn)
  : Z * quic_rx_packet * quic_conn :=
  match frms with
  | [] => (1, qpkt, c)
  | None :: _ => (0, qpkt, c)
  | Some frm :: frms' =>
      match frm with
      | QUIC_FT_CRYPTO _ _ => parse_apkt_frms frms' (set_ack_eliciting qpkt) c
      | QUIC_FT_PADDING _ =>
          match frms' with
          | [] => parse_apkt_frms frms' qpkt c
          | _ :: _ => (0, qpkt, c)
          end
      | QUIC_FT_ACK ack ranges =>
          let '(ret, c', _) :=
            qc_parse_ack_frm ack c QUIC_TLS_ENC_LEVEL_APP ranges in
          if ret =? 0 then (0, qpkt, c')
          else parse_apkt_frms frms' qpkt c'
      | QUIC_FT_PING => parse_apkt_frms frms' (set_ack_eliciting qpkt) c
      | QUIC_FT_CONNECTION_CLOSE
      | QUIC_FT_CONNECTION_CLOSE_APP => parse_apkt_frms frms' qpkt c
      | QUIC_FT_NEW_CONNECTION_ID
      | QUIC_FT_STREAM_A
      | QUIC_FT_STREAM_B => parse_apkt_frms frms' (set_ack_eliciting qpkt) c
      | QUIC_FT_OTHER _ => (0, qpkt, c)
      end
  end.

Definition qc_parse_apkt (qpkt : quic_rx_packet) (c : quic_conn)
  : Z * quic_rx_packet * quic_conn :=
  parse_apkt_frms (payload qpkt) qpkt c.

(** Lines 1712-1723 of [qc_treat_rx_pkts]: what a parsed packet does to
    its packet-number space. *)
Definition account_rx_pkt (pkt : quic_rx_packet) (ns : quic_pktns)
  : quic_pktns :=
  let nb :=
    if ack_eliciting pkt then u64 (rx_nb_ack_eliciting ns + 1)
    else rx_nb_ack_eliciting ns in
  let fl :=
    if ack_eliciting pkt && (Z.land nb 1 =? 0)
    then u32 (Z.lor (flags ns) QUIC_FL_PKTNS_ACK_REQUIRED)
    else flags ns in
  let largest :=
    if u64 (rx_largest_pn ns) <? rx_pn pkt then s64 (rx_pn pkt)
    else rx_largest_pn ns in
  {| tx_next_pn := tx_next_pn ns;
     rx_largest_pn := largest;
     rx_largest_acked_pn := rx_largest_acked_pn ns;
     rx_nb_ack_eliciting := nb;
     rx_ack_ranges :=
       snd (quic_update_ack_ranges_list (rx_ack_ranges ns) (s64 (rx_pn pkt)));
     flags := fl |}.

Section RxLoop.
Context {ext : Collaborators}.

(** What the end of the loop body (lines 1726-1745) does with a packet. *)
Inductive delivery : Type :=
| Delivered (c : quic_conn)
| Retained
| Freed
| ProvideError.

Definition deliver_crypto (pkt : quic_rx_packet) (c : quic_conn)
    (tel : quic_tls_enc_level) : delivery :=
  let el := enc_levels c tel in
  if crypto_len pkt =? 0 then Freed
  else if crypto_off pkt =? rx_crypto_offset el then
    if SSL_provide_quic_data (ssl c) (crypto_dat pkt) then
      Delivered
        (set_ssl
           (set_enc_level c tel
              (set_rx el (rx_qpkts el)
                      (u64 (rx_crypto_offset el + crypto_len pkt))))
           ((tel, crypto_dat pkt) :: ssl c))
    else ProvideError
  else Retained.

(** The [while (node)] loop of [qc_treat_rx_pkts]: [pkts] are the packets
    from [node] on, [kept] the packets left in the tree before [node],
    nearest first.  The result is the value the function returns, the
    packets left in the tree and the connection. *)
Fixpoint treat_rx_loop (pkts kept : list quic_rx_packet) (c : quic_conn)
    (tel : quic_tls_enc_level) : Z * list quic_rx_packet * quic_conn :=
  match pkts with
  | [] => (1, rev kept, c)
  | pkt :: pkts' =>
      let finish (pkt : quic_rx_packet) (c : quic_conn) :=
        match deliver_crypto pkt c tel with
        | Delivered c' => treat_rx_loop pkts' kept c' tel
        | Retained => treat_rx_loop pkts' (pkt :: kept) c tel
        | Freed => treat_rx_loop pkts' kept c tel
        | ProvideError => (0, rev_append kept (pkt :: pkts'), c)
        end in
      if out_of_order pkt then finish pkt c
      else if negb (decrypts pkt) then treat_rx_loop pkts' kept c tel
      else
        let '(ret, pkt', c') :=
          if long_header pkt then qc_parse_hdshk_pkt pkt c tel
          else qc_parse_apkt pkt c in
        if ret =? 0 then treat_rx_loop pkts' kept c' tel
        else
          let ns := account_rx_pkt pkt' (qel_pktns c' tel) in
          finish pkt' (set_pktns c' (quic_tls_pktns_of tel) ns)
  end.

Definition qc_treat_rx_pkts (c : quic_conn) (tel : quic_tls_enc_level)
  : Z * quic_conn :=
  let '(ret, qpkts, c') :=
    treat_rx_loop (rx_qpkts (enc_levels c tel)) [] c tel in
  let el := enc_levels c' tel in
  (ret, set_enc_level c' tel (set_rx el qpkts (rx_crypto_offset el))).

End RxLoop.

(** *** What the claims on the RX loop speak of *)

(** The last CRYPTO frame among the frames of a packet: the one
    [qc_parse_hdshk_pkt] leaves in [qpkt->crypto]. *)
Fixpoint last_crypto (frms : list (option quic_frame))
  : option (Z * list Z) :=
  match frms with
  | [] => None
  | Some (QUIC_FT_CRYPTO off data) :: frms' =>
      match last_crypto frms' with
      | Some r => Some r
      | None => Some (off, data)
      end
  | _ :: frms' => last_crypto frms'
  end.

(** Whether some CRYPTO frame of the packet is not at offset [rxoff]. *)
Fixpoint any_out_of_order (frms : list (option quic_frame)) (rxoff : Z)
  : bool :=
  match frms with
  | [] => false
  | Some (QUIC_FT_CRYPTO off _) :: frms' =>
      negb (off =? rxoff) || any_out_of_order frms' rxoff
  | _ :: frms' => any_out_of_order frms' rxoff
  end.

(** The number of CRYPTO bytes the TLS provider has accepted from the
    packets of level [l]. *)
Fixpoint delivered (log : list (quic_tls_enc_level * list Z))
    (l : quic_tls_enc_level) : Z :=
  match log with
  | [] => 0
  | (l', data) :: log' =>
      (if enc_level_eqb l' l then Z.of_nat (length data) else 0)
      + delivered log' l
  end.

(** The recorded length of a packet's CRYPTO data is the length of the
    data. *)
Definition crypto_len_ok (pkt : quic_rx_packet) : Prop :=
  crypto_len pkt = Z.of_nat (length (crypto_dat pkt)).

(** Invariant 1 of the spec, with the 64-bit wrap-around of the offset:
    at every level [rx.crypto.offset] is the number of bytes delivered to
    the TLS provider. *)
Definition rx_inv (c : quic_conn) : Prop :=
  forall l,
    rx_crypto_offset (enc_levels c l) = u64 (delivered (ssl c) l)
    /\ Forall crypto_len_ok (rx_qpkts (enc_levels c l)).

(** [c'] differs from [c] on the TX side at most: the TX trees of the
    levels, the in-flight counter, the retransmit flag and the largest
    acknowledged packet numbers. *)
Definition same_rx (c c' : quic_conn) : Prop :=
  ssl c' = ssl c
  /\ (forall l,
        rx_crypto_offset (enc_levels c' l) = rx_crypto_offset (enc_levels c l)
        /\ rx_qpkts (enc_levels c' l) = rx_qpkts (enc_levels c l))
  /\ (forall n,
        tx_next_pn (pktns c' n) = tx_next_pn (pktns c n)
        /\ rx_largest_pn (pktns c' n) = rx_largest_pn (pktns c n)
        /\ rx_nb_ack_eliciting (pktns c' n) = rx_nb_ack_eliciting (pktns c n)
        /\ rx_ack_ranges (pktns c' n) = rx_ack_ranges (pktns c n)
        /\ flags (pktns c' n) = flags (pktns c n)).

(** *** What the claim on the in-flight counter speaks of *)

(** The CRYPTO bytes the descriptors of a tree stand for. *)
Fixpoint frms_total (l : list quic_tx_crypto_frm) : Z :=
  match l with
  | [] => 0
  | frm :: l' => len frm + frms_total l'
  end.

Definition frms_ok (l : list quic_tx_crypto_frm) : Prop :=
  Forall (fun frm => 0 <= len frm) l.

(** The bytes of all the outgoing trees of a connection. *)
Definition in_flight_total (c : quic_conn) : Z :=
  frms_total (tx_crypto_frms (enc_levels c QUIC_TLS_ENC_LEVEL_INITIAL))
  + frms_total (tx_crypto_frms (enc_levels c QUIC_TLS_ENC_LEVEL_EARLY_DATA))
  + frms_total (tx_crypto_frms (enc_levels c QUIC_TLS_ENC_LEVEL_HANDSHAKE))
  + frms_total (tx_crypto_frms (enc_levels c QUIC_TLS_ENC_LEVEL_APP)).

(** The counter is the sum of the lengths of the outgoing descriptors,
    and is within its cap. *)
Definition in_flight_inv (c : quic_conn) : Prop :=
  (forall l, frms_ok (tx_crypto_frms (enc_levels c l)))
  /\ crypto_in_flight c = in_flight_total c
  /\ crypto_in_flight c <= QUIC_CRYPTO_IN_FLIGHT_MAX.

(** A connection as its initialisation leaves it: nothing sent yet. *)
Definition fresh_conn (c : quic_conn) : Prop :=
  crypto_in_flight c = 0
  /\ forall l, tx_crypto_frms (enc_levels c l) = [].

Section Steps.
Context {ext : Collaborators}.

(** The two operations that touch the counter: a packet build, for any
    buffer, packet type, level, offset and length, and the processing of
    an ACK frame, whatever it holds. *)
Inductive step : quic_conn -> quic_conn -> Prop :=
| step_build (buf : q_buf) (c : quic_conn) (pkt_type : quic_packet_type)
    (off len0 : Z) (tel : quic_tls_enc_level) :
    0 <= off < 2 ^ 64 -> 0 <= len0 < 2 ^ 64 ->
    step c (snd (fst (qc_build_hdshk_pkt buf c pkt_type off len0 tel)))
| step_ack (ack : quic_ack) (c : quic_conn) (tel : quic_tls_enc_level)
    (pos : list Z) :
    step c (snd (fst (qc_parse_ack_frm ack c tel pos))).

Inductive reachable : quic_conn -> Prop :=
| reach_init (c : quic_conn) : fresh_conn c -> reachable c
| reach_step (c c' : quic_conn) : reachable c -> step c c' -> reachable c'.

End Steps.

End Xprt.

(** ** Header-protection removal ([src/xprt_quic.c]) *)

Module HeaderProtection.
Import Int.

(** Modelled from the spec: [QUIC_PACKET_PN_MAXLEN],
    [QUIC_PACKET_LONG_HEADER_BIT] and [QUIC_PACKET_PNL_BITMASK] are in a
    header that is not among the sources.  §4.2 and §4.6 have the sample
    start at [pn_offset + 4] and be 16 bytes long, the header form in the
    top bit of byte 0 and [pnlen - 1] in its two low bits. *)
Definition QUIC_PACKET_PN_MAXLEN : Z := 4.
Definition QUIC_HP_SAMPLE_LEN : Z := 16.
Definition QUIC_PACKET_LONG_HEADER_BIT : Z := 0x80.
Definition QUIC_PACKET_PNL_BITMASK : Z := 0x03.

(** [sizeof mask] *)
Definition sizeof_mask : Z := 5.

(** [mem[i]] for the byte at [byte0 + i]. *)
Definition byte_at (mem : list Z) (i : Z) : Z := nth (Z.to_nat i) mem 0.

Fixpoint set_byte (mem : list Z) (i : nat) (v : Z) : list Z :=
  match mem, i with
  | [], _ => []
  | _ :: mem', O => v :: mem'
  | b :: mem', S i' => b :: set_byte mem' i' v
  end.

(** The bytes the cipher reads at [sample]: positions
    [pn + QUIC_PACKET_PN_MAXLEN] to
    [pn + QUIC_PACKET_PN_MAXLEN + QUIC_HP_SAMPLE_LEN - 1]. *)
Definition sample_at (mem : list Z) (pn : Z) : list Z :=
  firstn (Z.to_nat QUIC_HP_SAMPLE_LEN)
         (skipn (Z.to_nat (pn + QUIC_PACKET_PN_MAXLEN)) mem).

(** One past the last position the sample covers. *)
Definition sample_end (pn : Z) : Z :=
  pn + QUIC_PACKET_PN_MAXLEN + QUIC_HP_SAMPLE_LEN.

(** The [for] loop that unmasks the packet-number bytes. *)
Fixpoint unmask_pn (n : nat) (i : Z) (mem mask : list Z) (pn truncated_pn : Z)
  : list Z * Z :=
  match n with
  | O => (mem, truncated_pn)
  | S n' =>
      let b := Z.lxor (byte_at mem (pn + i)) (byte_at mask (i + 1)) in
      unmask_pn n' (i + 1) (set_byte mem (Z.to_nat (pn + i)) b) mask pn
                (u32 (Z.lor (Z.shiftl truncated_pn 8) b))
  end.

Section RmHp.

(** The header-protection cipher under the level's key: the five mask
    bytes for a sample, or [None] when the context cannot be allocated or
    a step of the decryption fails. *)
Variable hp_mask : list Z -> option (list Z).

(** [qc_do_rm_hp]: [mem] holds the bytes from [byte0] on, as far as the
    memory behind the packet goes; [pn] and [end_] are offsets from
    [byte0].  The result is the value returned, the memory, [pkt->pn] and
    [pkt->pnl]. *)
Definition qc_do_rm_hp (mem : list Z) (largest_pn pn end_ : Z)
  : Z * list Z * Z * Z :=
  if end_ - pn <? QUIC_PACKET_PN_MAXLEN + sizeof_mask then (0, mem, 0, 0)
  else
    match hp_mask (sample_at mem pn) with
    | None => (0, mem, 0, 0)
    | Some mask =>
        let byte0 := byte_at mem 0 in
        let byte0 :=
          Z.lxor byte0
            (Z.land (byte_at mask 0)
               (if Z.land byte0 QUIC_PACKET_LONG_HEADER_BIT =? 0
                then 0x1f else 0xf)) in
        let mem := set_byte mem 0 byte0 in
        let pnlen := Z.land byte0 QUIC_PACKET_PNL_BITMASK + 1 in
        let (mem, truncated_pn) :=
          unmask_pn (Z.to_nat pnlen) 0 mem mask pn 0 in
        let packet_number :=
          PacketNumber.decode_packet_number (u64 largest_pn) truncated_pn
                                            (pnlen * 8) in
        (1, mem, packet_number, pnlen)
    end.

End RmHp.

End HeaderProtection.

(** ** WINDOW_UPDATE processing ([src/mux_h3.c]) *)

Module MuxH3.
Import Int.

Inductive h3_cs : Type :=
| H3_CS_PREFACE | H3_CS_SETTINGS1 | H3_CS_FRAME_H | H3_CS_FRAME_P
| H3_CS_FRAME_A | H3_CS_FRAME_E | H3_CS_ERROR | H3_CS_ERROR2.

Inductive h3_ss : Type :=
| H3_SS_IDLE | H3_SS_RLOC | H3_SS_RREM | H3_SS_OPEN
| H3_SS_HREM | H3_SS_HLOC | H3_SS_ERROR | H3_SS_CLOSED.


(** The error codes of §7 that are used here. *)
Inductive h3_err : Type :=
| H3_ERR_NO_ERROR
| H3_ERR_PROTOCOL_ERROR
| H3_ERR_INTERNAL_ERROR
| H3_ERR_FLOW_CONTROL_ERROR.

Definition H3_SF_BLK_SFCTL : Z := 0x00000080.
Definition H3_SF_WANT_SHUTR : Z := 0x00008000.
Definition H3_SF_WANT_SHUTW : Z := 0x00010000.

(** Which of the connection's lists the stream's [list] element is in. *)
Inductive h3s_queue : Type :=
| NOT_QUEUED | IN_SEND_LIST | IN_FCTL_LIST | IN_BLOCKED_LIST.

(** [struct h3s]; [cs_error] records a call of [cs_set_error] on its
    conn_stream, [subs_retry_send] stands for
    [h3s->subs && h3s->subs->events & SUB_RETRY_SEND]. *)
Record h3s : Type := mkH3s {
  id : Z;
  flags : Z;
  sws : Z;
  s_errcode : h3_err;
  st : h3_ss;
  cs : bool;
  cs_error : bool;
  subs_retry_send : bool;
  queue : h3s_queue
}.

(** [struct h3c]; [dbuf] is the content of the demux buffer. *)
Record h3c : Type := mkH3c {
  st0 : h3_cs;
  errcode : h3_err;
  dbuf : list Z;
  dsi : Z;
  dfl : Z;
  miw : Z;
  mws : Z
}.


(** [h3_get_n32(b, o)]: four bytes in network order. *)
Definition h3_get_n32 (b : list Z) (o : Z) : Z :=
  let at_ (i : Z) := nth (Z.to_nat (o + i)) b 0 in
  Z.lor (Z.lor (Z.lor (Z.shiftl (at_ 0) 24) (Z.shiftl (at_ 1) 16))
               (Z.shiftl (at_ 2) 8))
        (at_ 3).

(** [h3s_mws]: [int] additions wrap around as two's complement 32-bit
    integers, here and in the window checks below. *)
Definition h3s_mws (c : h3c) (s : h3s) : Z := s32 (sws s + miw c).

Definition h3c_error (c : h3c) (err : h3_err) : h3c :=
  {| st0 := H3_CS_ERROR; errcode := err; dbuf := dbuf c; dsi := dsi c;
     dfl := dfl c; miw := miw c; mws := mws c |}.

Definition set_st0 (c : h3c) (v : h3_cs) : h3c :=
  {| st0 := v; errcode := errcode c; dbuf := dbuf c; dsi := dsi c;
     dfl := dfl c; miw := miw c; mws := mws c |}.







End MuxH3.

(** ** Scenarios and concrete collaborators *)

Module Scenario.
Import Int AckRanges Xprt.

(** Scenario 3 of the spec: outgoing CRYPTO frames of 100 bytes at packet
    numbers 5 to 8. *)
Definition scenario_frms (o5 o6 o7 o8 : Z) : list quic_tx_crypto_frm :=
  [mkFrm 5 o5 100; mkFrm 6 o6 100; mkFrm 7 o7 100; mkFrm 8 o8 100].

Definition empty_level : quic_enc_level := mkEncLevel [] 0 0 [] [].

Definition fresh_pktns : quic_pktns := mkPktns 0 0 0 0 (mkRanges [] 0) 0.

(** A connection whose Initial level has sent the four frames. *)
Definition scenario_conn : quic_conn :=
  {| dcid_len := 8; scid_len := 8; objt_server := false;
     enc_levels := fun l =>
       match l with
       | QUIC_TLS_ENC_LEVEL_INITIAL =>
           mkEncLevel [] 0 400 (scenario_frms 0 100 200 300) []
       | _ => empty_level
       end;
     pktns := fun n =>
       match n with
       | QUIC_TLS_PKTNS_INITIAL => mkPktns 8 0 0 0 (mkRanges [] 0) 0
       | _ => fresh_pktns
       end;
     crypto_in_flight := 400;
     retransmit := 0;
     ssl := [] |}.

(** The ACK frame of the scenario: largest 8, first range 0, one pair. *)
Definition scenario_ack : quic_ack :=
  {| largest_ack := 8; ack_delay := 0; ack_range_num := 1;
     first_ack_range := 0 |}.

(** A stand-in for the header-protection cipher: the mask is made of the
    last five bytes of the sixteen-byte sample. *)
Definition tail_mask (sample : list Z) : option (list Z) :=
  Some (skipn 11 sample).

(** A 27-byte packet whose packet-number field is at offset 18, so that
    nine bytes run from the field to the end of the packet, followed in
    memory by [beyond]. *)
Definition short_packet : list Z :=
  [0xc3; 0xff; 0; 0; 0x1c; 8; 1; 2; 3; 4; 5; 6; 7; 8; 0; 0; 0x40; 0x09;
   0x11; 0x22; 0x33; 0x44; 0x55; 0x66; 0x77; 0x88; 0x99].

(** The byte sizes of the frames, with one-byte fields in the ACK frame. *)
Definition frame_size (frm : quic_tx_frame) : Z :=
  match frm with
  | TX_FT_ACK _ qars => 5 + 2 * (Z.of_nat (length (lst qars)) - 1)
  | TX_FT_CRYPTO off l => 1 + Varint.enc_len off + Varint.enc_len l + l
  | TX_FT_PADDING l => l
  end.

(** Collaborators that never fail but for lack of room: the frame codec
    refuses a frame that does not fit, [max_stream_data_size] follows the
    spec (the data that fits once the rest of the packet is accounted
    for, at most what is asked). *)
Definition room_bound_collab : Collaborators := {|
  QUIC_LONG_PACKET_MINLEN := 7;
  QUIC_INITIAL_PACKET_MINLEN := 1200;
  sizeof_frm_type := 1;
  trash_size := 16384;
  quic_packet_number_length := fun pn largest =>
    if pn - largest <? 2 ^ 7 then 1
    else if pn - largest <? 2 ^ 15 then 2
    else if pn - largest <? 2 ^ 23 then 3 else 4;
  quic_int_getsize := Varint.enc_len;
  max_stream_data_size := fun sz ilen dlen =>
    Z.max 0 (Z.min dlen (sz - ilen - 8));
  qc_build_frm := fun room frm =>
    if room <? frame_size frm then None else Some (frame_size frm);
  quic_packet_encrypt := fun _ _ _ => true;
  quic_apply_header_protection := fun _ => true;
  pool_alloc_tx_crypto_frm := fun _ => true;
  SSL_provide_quic_data := fun _ _ => true
|}.

(** A connection that owes an ACK for packet 0 at the Handshake level. *)
Definition ack_pending_conn : quic_conn :=
  {| dcid_len := 8; scid_len := 8; objt_server := false;
     enc_levels := fun _ => empty_level;
     pktns := fun n =>
       match n with
       | QUIC_TLS_PKTNS_HANDSHAKE =>
           mkPktns 0 0 0 2 (mkRanges [mkRange 0 0] 1)
                   QUIC_FL_PKTNS_ACK_REQUIRED
       | _ => fresh_pktns
       end;
     crypto_in_flight := 0;
     retransmit := 0;
     ssl := [] |}.

(** An output buffer with [n] bytes left. *)
Definition wbuf_with_room (n : Z) : q_buf :=
  {| q_pos := 0; q_end := n; q_data := 0; q_pkts := [] |}.

(** A WINDOW_UPDATE frame of the mux, with the four bytes [inc] of its
    payload in the demux buffer, for stream [sid]. *)
Definition wu_conn (sid : Z) (inc : list Z) : MuxH3.h3c :=
  {| MuxH3.st0 := MuxH3.H3_CS_FRAME_P;
     MuxH3.errcode := MuxH3.H3_ERR_NO_ERROR;
     MuxH3.dbuf := inc;
     MuxH3.dsi := sid;
     MuxH3.dfl := 4;
     MuxH3.miw := 65535;
     MuxH3.mws := 65535 |}.


(** A connection with one received packet in the RX tree of a level. *)
Definition conn_with_rx (tel : quic_tls_enc_level) (pkt : quic_rx_packet)
  : quic_conn :=
  {| dcid_len := 8; scid_len := 8; objt_server := false;
     enc_levels := fun l =>
       if enc_level_eqb l tel then mkEncLevel [pkt] 0 0 [] []
       else empty_level;
     pktns := fun _ => fresh_pktns;
     crypto_in_flight := 0;
     retransmit := 0;
     ssl := [] |}.

(** A received packet, decrypted, not parsed yet. *)
Definition rx_packet (n : Z) (long : bool) (frms : list (option quic_frame))
  : quic_rx_packet :=
  {| rx_pn := n; long_header := long; ack_eliciting := false;
     out_of_order := false; crypto_off := 0; crypto_len := 0;
     crypto_dat := []; decrypts := true; payload := frms |}.

End Scenario.


(** ** Byte strings as numbers *)

Module Bytes.

Definition is_byte (b : Z) : Prop := 0 <= b < 256.

(** The number a byte string stands for in network order, continuing
    from [acc]. *)
Definition be_from (acc : Z) (l : list Z) : Z :=
  fold_left (fun a b => a * 256 + b) l acc.

Definition be_val (l : list Z) : Z := be_from 0 l.

End Bytes.


(** ** The AEAD nonce ([src/quic_conn.c]) *)

Module QuicConn.
Import Int.

(** [sizeof conn->ctx.iv] and [sizeof pn] in [quic_aead_iv_build]. *)
Definition iv_size : Z := 12.
Definition sizeof_pn : Z := 8.

(** The second loop of [quic_aead_iv_build], with [n] iterations to go:
    [*aead_iv++ = *iv++ ^ (pn >> shift)], the value being converted to
    [unsigned char]. *)
Fixpoint iv_xor_loop (n : nat) (shift : Z) (iv : list Z) (pn : Z) : list Z :=
  match n, iv with
  | S n', b :: iv' =>
      u8 (Z.lxor b (Z.shiftr pn shift)) :: iv_xor_loop n' (shift - 8) iv' pn
  | _, _ => []
  end.

(** [quic_aead_iv_build] for [conn->ctx.iv = iv]: the bytes it stores in
    [conn->ctx.aead_iv].  The first loop copies the bytes the packet
    number does not reach. *)
Definition quic_aead_iv_build (iv : list Z) (pn : Z) : list Z :=
  firstn (Z.to_nat (iv_size - sizeof_pn)) iv
  ++ iv_xor_loop (Z.to_nat sizeof_pn) 56
       (skipn (Z.to_nat (iv_size - sizeof_pn)) iv) pn.

(** Byte-wise exclusive or of two strings. *)
Definition xor_bytes (a b : list Z) : list Z :=
  map (fun p => Z.lxor (fst p) (snd p)) (combine a b).

End QuicConn.


(** ** The outgoing CRYPTO buffers ([src/xprt_quic.c]) *)

Module CryptoBuf.
Import Int.

Definition QUIC_CRYPTO_BUF_SHIFT : Z := 14.
Definition QUIC_CRYPTO_BUF_SZ : Z := Z.shiftl 1 QUIC_CRYPTO_BUF_SHIFT.

(** [struct quic_crypto_buf]: [data] holds the [sz] bytes stored so far. *)
Record quic_crypto_buf : Type := mkCryptoBuf { data : list Z; sz : Z }.

(** [qel->tx.crypto]: the [nb_buf] buffers of the array [bufs] that are in
    use, in the order of the array, and the total size [sz]. *)
Record tx_crypto : Type :=
  mkTxCrypto { bufs : list quic_crypto_buf; crypto_sz : Z }.

Definition nb_buf (t : tx_crypto) : Z := Z.of_nat (length (bufs t)).

(** What [quic_conn_enc_level_init] leaves there when its allocations
    succeed: one empty buffer. *)
Definition quic_conn_enc_level_init : tx_crypto :=
  {| bufs := [{| data := []; sz := 0 |}]; crypto_sz := 0 |}.

(** [qel->tx.crypto.bufs[nb_buf - 1]], the buffer being filled, and the
    room left in it. *)
Definition cur_buf (t : tx_crypto) : quic_crypto_buf :=
  last (bufs t) {| data := []; sz := 0 |}.

Definition buf_room (t : tx_crypto) : Z :=
  QUIC_CRYPTO_BUF_SZ - sz (cur_buf t).

Section Cpy.

(** The allocator: [realloc n] tells whether the array can be grown to
    [n] slots, [pool_alloc n] whether a buffer can be had for the slot
    of index [n]. *)
Variable realloc : Z -> bool.
Variable pool_alloc : Z -> bool.

(** The [while (len > 0)] loop of [quic_crypto_data_cpy]: [full] are the
    buffers before [*qcb], [total] is [qel->tx.crypto.sz] and [dat] the
    bytes from [data] on.  The result is the value returned with the
    buffers, or [None] when the loop is still running after [fuel]
    iterations. *)
Fixpoint cpy_loop (fuel : nat) (full : list quic_crypto_buf)
    (qcb : quic_crypto_buf) (total : Z) (dat : list Z)
  : option (Z * tx_crypto) :=
  match fuel with
  | O => None
  | S fuel' =>
      let len := Z.of_nat (length dat) in
      if len =? 0 then
        Some (1, {| bufs := full ++ [qcb]; crypto_sz := total |})
      else
        let room := u64 (QUIC_CRYPTO_BUF_SZ - sz qcb) in
        let to_copy := if room <? len then room else len in
        let qcb :=
          {| data := data qcb ++ firstn (Z.to_nat to_copy) dat;
             sz := u64 (sz qcb + to_copy) |} in
        let total := u64 (total + to_copy) in
        let dat := skipn (Z.to_nat to_copy) dat in
        if QUIC_CRYPTO_BUF_SZ <=? sz qcb then
          let nb := Z.of_nat (length full) + 1 in
          if realloc (nb + 1) then
            if pool_alloc nb then
              cpy_loop fuel' (full ++ [qcb]) {| data := []; sz := 0 |}
                       total dat
            else Some (0, {| bufs := full ++ [qcb]; crypto_sz := total |})
          else cpy_loop fuel' full qcb total dat
        else cpy_loop fuel' full qcb total dat
  end.

(** [quic_crypto_data_cpy]; the array holds at least one buffer from
    [quic_conn_enc_level_init] on. *)
Definition quic_crypto_data_cpy (fuel : nat) (t : tx_crypto) (dat : list Z)
  : option (Z * tx_crypto) :=
  cpy_loop fuel (removelast (bufs t)) (cur_buf t) (crypto_sz t) dat.

End Cpy.

(** The CRYPTO stream the buffers hold. *)
Definition stream (t : tx_crypto) : list Z := concat (map data (bufs t)).

Definition buf_ok (b : quic_crypto_buf) : Prop :=
  sz b = Z.of_nat (length (data b)).

(** Every buffer but the last one is full, the last one is not, and the
    total size is the length of the stream. *)
Definition crypto_inv (t : tx_crypto) : Prop :=
  exists full qcb,
    bufs t = full ++ [qcb]
    /\ Forall (fun b => buf_ok b /\ sz b = QUIC_CRYPTO_BUF_SZ) full
    /\ buf_ok qcb /\ sz qcb < QUIC_CRYPTO_BUF_SZ
    /\ crypto_sz t = Z.of_nat (length (stream t)).

(** A first buffer that is full but for one byte. *)
Definition nearly_full : tx_crypto :=
  {| bufs := [{| data := repeat 0 (Z.to_nat 16383); sz := 16383 |}];
     crypto_sz := 16383 |}.

End CryptoBuf.


(** ** Header protection of outgoing packets ([src/xprt_quic.c]) *)

Module HeaderProtectionTx.
Import Int HeaderProtection.

(** The [for] loop of [quic_apply_header_protection]:
    [pn[i] ^= mask[i + 1]]. *)
Fixpoint mask_pn (n : nat) (i : Z) (mem mask : list Z) (pn : Z) : list Z :=
  match n with
  | O => mem
  | S n' =>
      let b := Z.lxor (byte_at mem (pn + i)) (byte_at mask (i + 1)) in
      mask_pn n' (i + 1) (set_byte mem (Z.to_nat (pn + i)) b) mask pn
  end.

Section ApplyHp.

(** The header-protection cipher under the level's key, as in
    [qc_do_rm_hp]: the five mask bytes for a sample. *)
Variable hp_mask : list Z -> option (list Z).

(** [quic_apply_header_protection]: [mem] holds the bytes from [buf] on,
    [pn] is the offset of the packet-number field.  The result is the
    value returned and the memory. *)
Definition quic_apply_header_protection (mem : list Z) (pn pnlen : Z)
  : Z * list Z :=
  match hp_mask (sample_at mem pn) with
  | None => (0, mem)
  | Some mask =>
      let byte0 := byte_at mem 0 in
      let byte0 :=
        Z.lxor byte0
          (Z.land (byte_at mask 0)
             (if Z.land byte0 QUIC_PACKET_LONG_HEADER_BIT =? 0
              then 0x1f else 0xf)) in
      let mem := set_byte mem 0 byte0 in
      (1, mask_pn (Z.to_nat pnlen) 0 mem mask pn)
  end.

End ApplyHp.


End HeaderProtectionTx.


(** ** What the properties of ACK processing speak of *)

Module AckProps.
Import Xprt.

(** An outgoing tree holds its descriptors in ascending order of packet
    number, one per packet. *)
Definition tree_sorted (l : list quic_tx_crypto_frm) : Prop :=
  StronglySorted (fun a b => pn a < pn b) l.

(** The descriptor belongs to a packet of the range
    [smallest .. largest]. *)
Definition acked (smallest largest : Z) (f : quic_tx_crypto_frm) : bool :=
  (smallest <=? pn f) && (pn f <=? largest).

End AckProps.


(** ** Application-level packets after the handshake ([src/xprt_quic.c]) *)

Module TreatPackets.
Import Int AckRanges Xprt.

(** What the end of the loop body of [quic_treat_packets] does to the
    packet-number space of the level for a parsed packet. *)
Definition account_apkt (qpkt : quic_rx_packet) (ns : quic_pktns)
  : quic_pktns :=
  let nb :=
    if ack_eliciting qpkt then u64 (rx_nb_ack_eliciting ns + 1)
    else rx_nb_ack_eliciting ns in
  let fl :=
    if ack_eliciting qpkt && (Z.land nb 1 =? 0)
    then u32 (Z.lor (flags ns) QUIC_FL_PKTNS_ACK_REQUIRED)
    else flags ns in
  {| tx_next_pn := tx_next_pn ns;
     rx_largest_pn := rx_largest_pn ns;
     rx_largest_acked_pn := rx_largest_acked_pn ns;
     rx_nb_ack_eliciting := nb;
     rx_ack_ranges :=
       snd (quic_update_ack_ranges_list (rx_ack_ranges ns) (s64 (rx_pn qpkt)));
     flags := fl |}.

(** The [while (qpkt_node)] loop of [quic_treat_packets], written as the
    loop of [qc_treat_rx_pkts] is: [pkts] are the packets from
    [qpkt_node] on, [kept] the packets left in the tree before
    [qpkt_node], nearest first.  Each of the three paths of the body
    steps to the next node and then takes the packet out of the tree
    with [eb64_delete], so the walk goes on with the same [kept].  The
    result is the value returned after the loop, the packets left in the
    tree and the connection. *)
Fixpoint treat_packets_loop (pkts kept : list quic_rx_packet)
    (c : quic_conn) (tel : quic_tls_enc_level)
  : Z * list quic_rx_packet * quic_conn :=
  match pkts with
  | [] => (1, rev kept, c)
  | qpkt :: pkts' =>
      if negb (decrypts qpkt) then treat_packets_loop pkts' kept c tel
      else
        let '(ret, qpkt', c') := qc_parse_apkt qpkt c in
        if ret =? 0 then treat_packets_loop pkts' kept c' tel
        else
          let ns := account_apkt qpkt' (qel_pktns c' tel) in
          treat_packets_loop pkts' kept
                             (set_pktns c' (quic_tls_pktns_of tel) ns) tel
  end.

(** The level whose tree [quic_treat_packets] walks. *)
Definition treated_level (c : quic_conn) : quic_tls_enc_level :=
  match rx_qpkts (enc_levels c QUIC_TLS_ENC_LEVEL_APP) with
  | [] => QUIC_TLS_ENC_LEVEL_HANDSHAKE
  | _ :: _ => QUIC_TLS_ENC_LEVEL_APP
  end.

(** [quic_treat_packets]: the value returned and the connection, with
    the tree of the level as the loop leaves it. *)
Definition quic_treat_packets (c : quic_conn) : Z * quic_conn :=
  let tel := treated_level c in
  let '(ret, qpkts, c') :=
    treat_packets_loop (rx_qpkts (enc_levels c tel)) [] c tel in
  let el := enc_levels c' tel in
  (ret, set_enc_level c' tel (set_rx el qpkts (rx_crypto_offset el))).

End TreatPackets.

(** ** What the properties of the RX side speak of *)

Module RxProps.
Import AckRanges Xprt.

(** The ACK ranges of the packet-number space of a level. *)
Definition ack_ranges_of (c : quic_conn) (tel : quic_tls_enc_level)
  : list quic_ack_range :=
  lst (rx_ack_ranges (qel_pktns c tel)).

(** [x] is the number of a packet of [pkts] that is seen for the first
    time and decrypts. *)
Definition received (pkts : list quic_rx_packet) (x : Z) : Prop :=
  exists p, In p pkts /\ rx_pn p = x
            /\ out_of_order p = false /\ decrypts p = true.

(** [x] is the number of a packet of [pkts] that decrypts. *)
Definition decrypted (pkts : list quic_rx_packet) (x : Z) : Prop :=
  exists p, In p pkts /\ rx_pn p = x /\ decrypts p = true.

(** A frame that [qc_parse_apkt] takes whatever the state of the
    connection is: the codec has parsed it, and it is neither an ACK
    frame, nor a PADDING frame, nor of a type the function does not
    know. *)
Definition plain_frame (frm : option quic_frame) : bool :=
  match frm with
  | Some QUIC_FT_PING
  | Some (QUIC_FT_CRYPTO _ _)
  | Some QUIC_FT_CONNECTION_CLOSE
  | Some QUIC_FT_CONNECTION_CLOSE_APP
  | Some QUIC_FT_NEW_CONNECTION_ID
  | Some QUIC_FT_STREAM_A
  | Some QUIC_FT_STREAM_B => true
  | _ => false
  end.

End RxProps.

(** ** Stream identifiers, frame headers and fragmentation in the mux
    ([src/mux_h3.c]) *)

Module MuxFrames.
Import Int.

(** [h3c_get_next_sid], from the fields [max_id] and [last_sid] of the
    connection; [max_id + 1] wraps around as a 32-bit integer. *)
Definition h3c_get_next_sid (max_id last_sid : Z) : Z :=
  let id := Z.lor (s32 (max_id + 1)) 1 in
  if negb (Z.land (u32 id) 0x80000000 =? 0)
     || ((0 <=? last_sid) && (last_sid <? id))
  then -1 else id.

(** [struct buffer] with [head] at the start of its storage: [area] is
    the whole storage, from [head] on, and [data] the number of bytes in
    use. *)
Record buffer : Type := mkBuffer {
  area : list Z;
  data : Z
}.

Definition b_size (b : buffer) : Z := Z.of_nat (length (area b)).

(** [*b_peek(b, o)]: the offset wraps at the end of the storage. *)
Definition b_peek (b : buffer) (o : Z) : Z :=
  nth (Z.to_nat (o mod b_size b)) (area b) 0.

(** [b_del(b, del)]: [head] moves on by [del] bytes. *)
Definition b_del (b : buffer) (del : Z) : buffer :=
  {| area := skipn (Z.to_nat del) (area b) ++ firstn (Z.to_nat del) (area b);
     data := data b - del |}.

(** [h3_get_n16], [h3_get_n32] and [h3_get_n64]: bytes in network order,
    each one read where [b_peek] finds it. *)
Definition h3_get_n16 (b : buffer) (o : Z) : Z :=
  Z.lor (Z.shiftl (b_peek b o) 8) (b_peek b (o + 1)).

Definition h3_get_n32 (b : buffer) (o : Z) : Z :=
  Z.lor (Z.lor (Z.lor (Z.shiftl (b_peek b o) 24)
                      (Z.shiftl (b_peek b (o + 1)) 16))
               (Z.shiftl (b_peek b (o + 2)) 8))
        (b_peek b (o + 3)).

Definition h3_get_n64 (b : buffer) (o : Z) : Z :=
  Z.lor (Z.shiftl (h3_get_n32 b o) 32) (h3_get_n32 b (o + 4)).

(** [struct h3_fh] *)
Record h3_fh : Type := mkFh {
  len : Z;
  sid : Z;
  ft : Z;
  ff : Z
}.

(** [h3_peek_frame_hdr]: [None] for the value 0, the header otherwise. *)
Definition h3_peek_frame_hdr (b : buffer) (o : Z) : option h3_fh :=
  if data b <? u64 (o + 9) then None
  else
    let w := h3_get_n64 b (o + 1) in
    Some {| len := u32 (Z.shiftl (b_peek b o) 16 + Z.shiftr w 48);
            sid := u32 (Z.land w 0x7FFFFFFF);
            ft := u8 (Z.shiftr w 40);
            ff := u8 (Z.shiftr w 32) |}.

(** [h3_get_frame_hdr]: the header and the buffer behind it. *)
Definition h3_get_frame_hdr (b : buffer) : option (h3_fh * buffer) :=
  match h3_peek_frame_hdr b 0 with
  | None => None
  | Some h => Some (h, b_del b 9)
  end.

(** Memory as a list of bytes: the [n] bytes at offset [o], and the list
    with [bs] stored at offset [o]. *)
Definition sub (l : list Z) (o n : Z) : list Z :=
  firstn (Z.to_nat n) (skipn (Z.to_nat o) l).

Definition store (l : list Z) (o : Z) (bs : list Z) : list Z :=
  firstn (Z.to_nat o) l ++ bs ++ skipn (Z.to_nat o + length bs) l.

(** The bytes [write_n16] and [write_n32] store, and the value [read_n32]
    loads at offset [o]. *)
Definition n16_bytes (v : Z) : list Z := [u8 (Z.shiftr v 8); u8 v].

Definition n32_bytes (v : Z) : list Z :=
  [u8 (Z.shiftr v 24); u8 (Z.shiftr v 16); u8 (Z.shiftr v 8); u8 v].

Definition read_n32 (l : list Z) (o : Z) : Z :=
  let at_ (i : Z) := nth (Z.to_nat (o + i)) l 0 in
  Z.lor (Z.lor (Z.lor (Z.shiftl (at_ 0) 24) (Z.shiftl (at_ 1) 16))
               (Z.shiftl (at_ 2) 8))
        (at_ 3).

(** [h3_set_frame_size(frame, len)], [frame] an offset into [l]. *)
Definition h3_set_frame_size (l : list Z) (frame len : Z) : list Z :=
  let len := u32 len in
  store (store l frame [u8 (Z.shiftr len 16)]) (frame + 1) (n16_bytes len).

(** The thirteen bytes that [h3c_send_window_update] builds in [str] and
    puts into the mux buffer. *)
Definition h3c_window_update_str (sid increment : Z) : list Z :=
  [0; 0; 4; 8; 0] ++ n32_bytes (u32 sid) ++ n32_bytes increment.

Section Fragment.

(** The frame type and the flag are defined in a header that is not
    among the sources. *)
Variables H3_FT_CONTINUATION H3_F_HEADERS_END_HEADERS : Z.

(** The [for] loop of [h3_fragment_headers], [frame] rounds from
    [frame] down to 1. *)
Fixpoint h3_fragment_loop (extra_frames mfs : Z) (frame : nat) (b : buffer)
                          (remain : Z) : buffer * Z :=
  match frame with
  | O => (b, remain)
  | S frame' =>
      let fsize := u64 (u64 (remain - 1) mod mfs + 1) in
      let remain := u64 (remain - fsize) in
      let fptr := 9 + remain + (Z.of_nat frame - 1) * 9 in
      let a := store (area b) (fptr + 9) (sub (area b) (9 + remain) fsize) in
      let a := h3_set_frame_size a fptr fsize in
      let a := store a (fptr + 3) [u8 H3_FT_CONTINUATION] in
      let a :=
        store a (fptr + 4)
              [u8 (if Z.of_nat frame =? extra_frames
                   then H3_F_HEADERS_END_HEADERS else 0)] in
      let a := store a (fptr + 5) (n32_bytes (read_n32 a 5)) in
      h3_fragment_loop extra_frames mfs frame'
                       {| area := a; data := u64 (data b + 9) |} remain
  end.

(** [h3_fragment_headers]: the value returned and the buffer.  The loop
    counts [frame] down from [extra_frames], which is not negative when
    the buffer holds more than a frame header. *)
Definition h3_fragment_headers (b : buffer) (mfs : Z) : Z * buffer :=
  let remain := u64 (data b - 9) in
  let extra_frames := s32 (u64 (remain - 1) / mfs) in
  if data b <=? u32 (mfs + 9) then (1, b)
  else if b_size b <? u64 (data b + extra_frames * 9) then (0, b)
  else
    let (b', remain') :=
      h3_fragment_loop extra_frames mfs (Z.to_nat extra_frames) b remain in
    let a :=
      store (area b') 4
            [u8 (Z.land (nth 4 (area b') 0)
                        (Z.lnot H3_F_HEADERS_END_HEADERS))] in
    (1, {| area := h3_set_frame_size a 0 remain'; data := data b' |}).

(** The frames a reader finds from offset [o] on: header by header with
    [h3_peek_frame_hdr], each with the [len] bytes behind it, until no
    whole header is left. *)
Fixpoint h3_frames (fuel : nat) (b : buffer) (o : Z)
  : list (h3_fh * list Z) :=
  match fuel with
  | O => []
  | S fuel' =>
      match h3_peek_frame_hdr b o with
      | None => []
      | Some h =>
          (h, sub (area b) (o + 9) (len h))
            :: h3_frames fuel' b (o + 9 + len h)
      end
  end.

(** CONTINUATION frames for the payloads [cs] on stream [sid], the last
    one with END_HEADERS. *)
Fixpoint continuations (sid : Z) (cs : list (list Z))
  : list (h3_fh * list Z) :=
  match cs with
  | [] => []
  | c :: cs' =>
      ({| len := Z.of_nat (length c); sid := sid;
          ft := u8 H3_FT_CONTINUATION;
          ff := match cs' with
                | [] => u8 H3_F_HEADERS_END_HEADERS
                | _ => 0
                end |}, c)
        :: continuations sid cs'
  end.

(** The bytes of a frame header, and the bytes of the CONTINUATION frames
    that the loop writes for the payloads [cs], numbered from [i]: frame
    [extra_frames] has END_HEADERS. *)
Definition frame_hdr_bytes (len ft ff : Z) (sidb : list Z) : list Z :=
  [u8 (Z.shiftr len 16); u8 (Z.shiftr len 8); u8 len; ft; ff] ++ sidb.

Fixpoint continuation_bytes (extra_frames i : Z) (sidb : list Z)
                            (cs : list (list Z)) : list Z :=
  match cs with
  | [] => []
  | c :: cs' =>
      frame_hdr_bytes (Z.of_nat (length c)) (u8 H3_FT_CONTINUATION)
        (u8 (if i =? extra_frames then H3_F_HEADERS_END_HEADERS else 0))
        sidb
        ++ c ++ continuation_bytes extra_frames (i + 1) sidb cs'
  end.

End Fragment.

(** A HEADERS frame of ten payload bytes on stream 1, with END_HEADERS
    (flag 4), in a buffer of 37 bytes. *)
Definition headers_frame : buffer :=
  {| area := [0; 0; 10; 1; 4; 0; 0; 0; 1]
               ++ [1; 2; 3; 4; 5; 6; 7; 8; 9; 10] ++ repeat 0 18;
     data := 19 |}.

End MuxFrames.

(** ** SETTINGS processing ([src/mux_h3.c]) *)

Module MuxSettings.
Import Int MuxFrames.

Inductive h3_err : Type :=
| H3_ERR_NO_ERROR
| H3_ERR_PROTOCOL_ERROR
| H3_ERR_FLOW_CONTROL_ERROR
| H3_ERR_FRAME_SIZE_ERROR.

Definition H3_CF_IS_BACK : Z := 0x00008000.

(** The fields of [struct h3c] that [h3c_handle_settings] reads or
    writes. *)
Record h3c : Type := mkH3c {
  flags : Z;
  streams_limit : Z;
  dbuf : buffer;
  dfl : Z;
  dff : Z;
  miw : Z;
  mfs : Z;
  st0 : MuxH3.h3_cs;
  errcode : h3_err
}.

Definition h3c_error (c : h3c) (err : h3_err) : h3c :=
  {| flags := flags c; streams_limit := streams_limit c; dbuf := dbuf c;
     dfl := dfl c; dff := dff c; miw := miw c; mfs := mfs c;
     st0 := MuxH3.H3_CS_ERROR; errcode := err |}.

Definition set_st0 (c : h3c) (v : MuxH3.h3_cs) : h3c :=
  {| flags := flags c; streams_limit := streams_limit c; dbuf := dbuf c;
     dfl := dfl c; dff := dff c; miw := miw c; mfs := mfs c;
     st0 := v; errcode := errcode c |}.

Definition set_miw (c : h3c) (v : Z) : h3c :=
  {| flags := flags c; streams_limit := streams_limit c; dbuf := dbuf c;
     dfl := dfl c; dff := dff c; miw := v; mfs := mfs c;
     st0 := st0 c; errcode := errcode c |}.

Definition set_mfs (c : h3c) (v : Z) : h3c :=
  {| flags := flags c; streams_limit := streams_limit c; dbuf := dbuf c;
     dfl := dfl c; dff := dff c; miw := miw c; mfs := v;
     st0 := st0 c; errcode := errcode c |}.

Definition set_streams_limit (c : h3c) (v : Z) : h3c :=
  {| flags := flags c; streams_limit := v; dbuf := dbuf c;
     dfl := dfl c; dff := dff c; miw := miw c; mfs := mfs c;
     st0 := st0 c; errcode := errcode c |}.

Section Settings.

(** The flag and the setting identifiers are defined in a header that is
    not among the sources; the identifiers are the labels of one
    [switch], so the first that matches is the only one. *)
Variables H3_F_SETTINGS_ACK H3_SETTINGS_INITIAL_WINDOW_SIZE
          H3_SETTINGS_MAX_FRAME_SIZE H3_SETTINGS_ENABLE_PUSH
          H3_SETTINGS_MAX_CONCURRENT_STREAMS : Z.

(** The tunable [h3_settings_max_concurrent_streams], an
    [unsigned int]. *)
Variable h3_settings_max_concurrent_streams : Z.

(** The body of the [switch]: the connection, or the error the code
    jumps to [fail] with. *)
Definition h3c_apply_setting (c : h3c) (type arg : Z) : h3c + h3_err :=
  if type =? H3_SETTINGS_INITIAL_WINDOW_SIZE then
    if arg <? 0 then inr H3_ERR_FLOW_CONTROL_ERROR
    else inl (set_miw c arg)
  else if type =? H3_SETTINGS_MAX_FRAME_SIZE then
    if (arg <? 16384) || (16777215 <? arg) then inr H3_ERR_PROTOCOL_ERROR
    else inl (set_mfs c arg)
  else if type =? H3_SETTINGS_ENABLE_PUSH then
    if (arg <? 0) || (1 <? arg) then inr H3_ERR_PROTOCOL_ERROR
    else inl c
  else if type =? H3_SETTINGS_MAX_CONCURRENT_STREAMS then
    if negb (Z.land (flags c) H3_CF_IS_BACK =? 0) then
      let arg :=
        if h3_settings_max_concurrent_streams <? u32 arg
        then s32 h3_settings_max_concurrent_streams else arg in
      inl (set_streams_limit c (u32 arg))
    else inl c
  else inl c.

(** The [for] loop; [offset] is an [unsigned int] and is compared with
    [dfl] as one. *)
Fixpoint h3c_settings_loop (fuel : nat) (offset : Z) (c : h3c)
  : option (h3c + h3c * h3_err) :=
  if offset <? u32 (dfl c) then
    match fuel with
    | O => None
    | S fuel' =>
        let type := h3_get_n16 (dbuf c) offset in
        let arg := s32 (h3_get_n32 (dbuf c) (offset + 2)) in
        match h3c_apply_setting c type arg with
        | inl c' => h3c_settings_loop fuel' (u32 (offset + 6)) c'
        | inr e => Some (inr (c, e))
        end
    end
  else Some (inl c).

(** [h3c_handle_settings]: the value returned and the connection.
    [b_data(&h3c->dbuf) < h3c->dfl] compares as [size_t]. *)
Definition h3c_handle_settings (fuel : nat) (c : h3c) : option (Z * h3c) :=
  if negb (Z.land (dff c) H3_F_SETTINGS_ACK =? 0) then
    if negb (dfl c =? 0) then Some (0, h3c_error c H3_ERR_FRAME_SIZE_ERROR)
    else Some (1, c)
  else if data (dbuf c) <? u64 (dfl c) then Some (0, c)
  else
    match h3c_settings_loop fuel 0 c with
    | None => None
    | Some (inl c') => Some (1, set_st0 c' MuxH3.H3_CS_FRAME_A)
    | Some (inr (c', e)) => Some (0, h3c_error c' e)
    end.

(** What one setting, and so a whole frame, may change. *)
Definition settings_step (c c' : h3c) : Prop :=
  flags c' = flags c /\ dbuf c' = dbuf c /\ dfl c' = dfl c /\
  dff c' = dff c /\ st0 c' = st0 c /\ errcode c' = errcode c /\
  (0 <= miw c -> 0 <= miw c') /\
  (16384 <= mfs c <= 16777215 -> 16384 <= mfs c' <= 16777215) /\
  (Z.land (flags c) H3_CF_IS_BACK <> 0 ->
   streams_limit c <= h3_settings_max_concurrent_streams -> streams_limit c' <= h3_settings_max_concurrent_streams) /\
  (Z.land (flags c) H3_CF_IS_BACK = 0 -> streams_limit c' = streams_limit c).

End Settings.

(** An outgoing connection that has the whole payload of a SETTINGS frame
    in its demux buffer: setting 5 with value 32768, then setting 3 with
    value 256. *)
Definition settings_conn : h3c :=
  {| flags := H3_CF_IS_BACK; streams_limit := 100;
     dbuf := {| area := [0; 5; 0; 0; 128; 0; 0; 3; 0; 0; 1; 0; 0; 0; 0; 0];
                data := 12 |};
     dfl := 12; dff := 0; miw := 65535; mfs := 16384;
     st0 := MuxH3.H3_CS_FRAME_P; errcode := H3_ERR_NO_ERROR |}.

End MuxSettings.

(** ** CRYPTO data handed over by the TLS stack ([src/xprt_quic.c],
    [include/proto/quic_tls.h]) *)

Module HandshakeData.
Import Int Xprt CryptoBuf.

(** [enum ssl_encryption_level_t] of the TLS library. *)
Inductive ssl_encryption_level_t : Type :=
| ssl_encryption_initial
| ssl_encryption_early_data
| ssl_encryption_handshake
| ssl_encryption_application.

(** [ssl_to_quic_enc_level] and [quic_to_ssl_enc_level]; the [default]
    branch, -1, is for values that are none of the enumeration. *)
Definition ssl_to_quic_enc_level (level : ssl_encryption_level_t)
  : quic_tls_enc_level :=
  match level with
  | ssl_encryption_initial => QUIC_TLS_ENC_LEVEL_INITIAL
  | ssl_encryption_early_data => QUIC_TLS_ENC_LEVEL_EARLY_DATA
  | ssl_encryption_handshake => QUIC_TLS_ENC_LEVEL_HANDSHAKE
  | ssl_encryption_application => QUIC_TLS_ENC_LEVEL_APP
  end.

Definition quic_to_ssl_enc_level (level : quic_tls_enc_level)
  : ssl_encryption_level_t :=
  match level with
  | QUIC_TLS_ENC_LEVEL_INITIAL => ssl_encryption_initial
  | QUIC_TLS_ENC_LEVEL_EARLY_DATA => ssl_encryption_early_data
  | QUIC_TLS_ENC_LEVEL_HANDSHAKE => ssl_encryption_handshake
  | QUIC_TLS_ENC_LEVEL_APP => ssl_encryption_application
  end.

(** [qel->tx.crypto] of each encryption level of the connection, [None]
    where [bufs] is [NULL]. *)
Definition crypto_bufs : Type := quic_tls_enc_level -> option tx_crypto.

Definition set_crypto_bufs (cb : crypto_bufs) (tel : quic_tls_enc_level)
    (t : tx_crypto) : crypto_bufs :=
  fun l => if enc_level_eqb l tel then Some t else cb l.

Section AddHandshakeData.

Variable realloc : Z -> bool.
Variable pool_alloc : Z -> bool.

(** [ha_quic_add_handshake_data]: the value returned and the buffers, or
    [None] when the copy is still running after [fuel] rounds. *)
Definition ha_quic_add_handshake_data (fuel : nat) (cb : crypto_bufs)
    (level : ssl_encryption_level_t) (dat : list Z)
  : option (Z * crypto_bufs) :=
  let tls_enc_level := ssl_to_quic_enc_level level in
  if negb (enc_level_eqb tls_enc_level QUIC_TLS_ENC_LEVEL_INITIAL)
     && negb (enc_level_eqb tls_enc_level QUIC_TLS_ENC_LEVEL_HANDSHAKE)
  then Some (0, cb)
  else
    match cb tls_enc_level with
    | None => Some (0, cb)
    | Some t =>
        match quic_crypto_data_cpy realloc pool_alloc fuel t dat with
        | None => None
        | Some (ret, t') =>
            Some (if ret =? 0 then 0 else 1,
                  set_crypto_bufs cb tls_enc_level t')
        end
    end.

End AddHandshakeData.

(** The buffers of a connection whose four levels are initialised. *)
Definition fresh_crypto_bufs : crypto_bufs :=
  fun _ => Some quic_conn_enc_level_init.

End HandshakeData.

(** ** Streams blocked on their window ([src/mux_h3.c]) *)

Module MuxStreams.
Import Int MuxH3.

(** The body of the loop of [h3c_unblock_sfctl] for one stream. *)
Definition h3s_unblock (c : h3c) (s : h3s) : h3s :=
  if negb (Z.land (flags s) H3_SF_BLK_SFCTL =? 0) && (0 <? h3s_mws c s)
  then
    let fl := u32 (Z.land (flags s) (Z.lnot H3_SF_BLK_SFCTL)) in
    {| id := id s; flags := fl; sws := sws s;
       s_errcode := s_errcode s; st := st s; cs := cs s;
       cs_error := cs_error s;
       subs_retry_send := subs_retry_send s;
       queue :=
         if subs_retry_send s
            || negb (Z.land fl (Z.lor H3_SF_WANT_SHUTR H3_SF_WANT_SHUTW) =? 0)
         then IN_SEND_LIST else NOT_QUEUED |}
  else s.

(** [h3c_unblock_sfctl] on the streams of the tree [streams_by_id], in
    the order of the tree. *)
Definition h3c_unblock_sfctl (c : h3c) (streams : list h3s) : list h3s :=
  map (h3s_unblock c) streams.

(** The stream is flagged as blocked on its window. *)
Definition blocked (s : h3s) : Prop :=
  Z.land (flags s) H3_SF_BLK_SFCTL <> 0.

(** A stream of the scenarios with flags [fl] and window [w]. *)
Definition stream_with (sid fl w : Z) : h3s :=
  {| id := sid; flags := fl; sws := w; s_errcode := H3_ERR_NO_ERROR;
     st := H3_SS_OPEN; cs := true; cs_error := false;
     subs_retry_send := false; queue := IN_BLOCKED_LIST |}.

End MuxStreams.

(** * Verification *)

(** Decide the integer comparisons of the goal, closing the impossible
  branches by linear arithmetic. *)
Ltac zcmp :=
repeat match goal with
  | |- context [?a <=? ?b] => destruct (Z.leb_spec a b); try lia
  | |- context [?a <? ?b] => destruct (Z.ltb_spec a b); try lia
  | |- context [?a =? ?b] => destruct (Z.eqb_spec a b); try lia
  end; cbn [andb orb negb].

Section BitFacts.

Lemma testbit_small (b n i : Z) :
  0 <= b < 2 ^ n -> n <= i -> Z.testbit b i = false.
Proof.
  intros Hb Hi. destruct (Z.eq_dec b 0) as [->|Hz]; [apply Z.bits_0|].
  apply Z.bits_above_log2; [lia|].
  assert (Z.log2 b < n); [|lia]. apply Z.log2_lt_pow2; lia.
Qed.

Lemma land_shiftl_small (a b n : Z) :
  0 <= n -> 0 <= b < 2 ^ n -> Z.land (Z.shiftl a n) b = 0.
Proof.
  intros Hn Hb. apply Z.bits_inj'. intros i Hi.
  rewrite Z.land_spec, Z.bits_0.
  destruct (Z_lt_ge_dec i n).
  - rewrite Z.shiftl_spec_low by lia. reflexivity.
  - rewrite (testbit_small b n i) by lia. apply andb_false_r.
Qed.

Lemma lor_shiftl_add (a b n : Z) :
  0 <= n -> 0 <= b < 2 ^ n -> Z.lor (Z.shiftl a n) b = a * 2 ^ n + b.
Proof.
  intros Hn Hb.
  rewrite <- Z.shiftl_mul_pow2 by lia.
  rewrite <- Z.lxor_lor by (apply land_shiftl_small; lia).
  symmetry. apply Z.add_nocarry_lxor. apply land_shiftl_small; lia.
Qed.

Lemma lor_mul_add (a b n : Z) :
  0 <= n -> 0 <= b < 2 ^ n -> Z.lor (a * 2 ^ n) b = a * 2 ^ n + b.
Proof.
  intros Hn Hb. rewrite <- lor_shiftl_add by lia.
  now rewrite Z.shiftl_mul_pow2 by lia.
Qed.

End BitFacts.

(** ** Variable-length integers *)

Section VarintFacts.
Import Int Varint.

(** The first byte of an encoding: a two-bit length tag above six value
    bits. *)
Lemma first_byte (k x : Z) :
  0 <= k < 4 -> 0 <= x < 64 ->
  let b := u8 (Z.lor (k * 2 ^ 6) x) in
  Z.shiftr b 6 = k /\ Z.land b 0x3f = x /\ b = k * 64 + x.
Proof.
  intros Hk Hx b. subst b.
  rewrite lor_mul_add by lia.
  unfold u8. rewrite Z.mod_small by lia.
  split; [|split]; [| |lia].
  - rewrite Z.shiftr_div_pow2 by lia.
    symmetry. apply (Z.div_unique _ _ k x); lia.
  - change 0x3f with (Z.ones 6). rewrite Z.land_ones by lia.
    symmetry. apply (Z.mod_unique _ _ k x); lia.
Qed.

(** One turn of the decoder's loop on the next big-endian byte. *)
Lemma dec_step (v k : Z) :
  0 <= v < 2 ^ 64 -> 8 <= k ->
  u64 (Z.lor (Z.shiftl (Z.shiftr v k) 8) (u8 (Z.shiftr v (k - 8))))
  = Z.shiftr v (k - 8).
Proof.
  intros Hv Hk. unfold u8, u64.
  assert (Hx : 0 <= Z.shiftr v (k - 8) < 2 ^ 64).
  { rewrite Z.shiftr_div_pow2 by lia. split.
    - apply Z.div_pos; lia.
    - apply Z.le_lt_trans with v; [|lia].
      apply Z.div_le_upper_bound; [lia|].
      assert (1 <= 2 ^ (k - 8)) by (apply Z.pow_le_mono_r with (b := 0); lia).
      nia. }
  replace (Z.shiftr v k) with (Z.shiftr (Z.shiftr v (k - 8)) 8)
    by (rewrite Z.shiftr_shiftr by lia; f_equal; lia).
  set (x := Z.shiftr v (k - 8)) in *.
  rewrite lor_shiftl_add by (try lia; apply Z.mod_pos_bound; lia).
  rewrite Z.shiftr_div_pow2 by lia.
  rewrite Z.mod_small; [|].
  - pose proof (Z.div_mod x (2 ^ 8)). lia.
  - pose proof (Z.div_mod x (2 ^ 8)). lia.
Qed.

Lemma shiftr_small (v k : Z) :
  0 <= k -> 0 <= v < 2 ^ (k + 6) -> 0 <= Z.shiftr v k < 64.
Proof.
  intros Hk Hv. rewrite Z.shiftr_div_pow2 by lia. split.
  - apply Z.div_pos; lia.
  - apply Z.div_lt_upper_bound; [lia|].
    rewrite Z.pow_add_r in Hv by lia. lia.
Qed.

Lemma enc_len_cases (val : Z) :
  0 <= val < 2 ^ 62 ->
  (enc_len val = 1 /\ val < 2 ^ 6)
  \/ (enc_len val = 2 /\ 2 ^ 6 <= val < 2 ^ 14)
  \/ (enc_len val = 4 /\ 2 ^ 14 <= val < 2 ^ 30)
  \/ (enc_len val = 8 /\ 2 ^ 30 <= val < 2 ^ 62).
Proof.
  intros Hv. unfold enc_len.
  destruct (Z.ltb_spec val (2 ^ 6)); [lia|].
  destruct (Z.ltb_spec val (2 ^ 14)); [lia|].
  destruct (Z.ltb_spec val (2 ^ 30)); lia.
Qed.

(** [quic_enc_int] on a value that fits and a buffer with enough room:
    the bytes it stores and what the decoder reads back from them. *)
Lemma quic_enc_int_ok (val : Z) (c : cursor) (tail : list Z) :
  0 <= val < 2 ^ 62 -> enc_len val <= room c ->
  exists bytes,
    quic_enc_int c val
    = (1, {| written := written c ++ bytes;
             avail := skipn (length bytes) (avail c) |})
    /\ Z.of_nat (length bytes) = enc_len val
    /\ quic_dec_int (bytes ++ tail) = (val, tail).
Proof.
  intros Hv Hroom. destruct c as [w a]. unfold room in Hroom. cbn [avail] in Hroom.
  assert (H64 : 0 <= val < 2 ^ 64) by lia.
  destruct (enc_len_cases val Hv) as [[E R]|[[E R]|[[E R]|[E R]]]];
    rewrite E in *.
  - (* one byte *)
    destruct a as [|a0 a]; [cbn [length] in Hroom; lia|].
    exists [u8 val].
    split; [|split; [reflexivity|]].
    { unfold quic_enc_int, room, put; cbn [avail written length skipn app].
      zcmp; reflexivity. }
    destruct (first_byte 0 val ltac:(lia) ltac:(lia)) as (S6 & L & B).
    change (0 * 2 ^ 6) with 0 in *. rewrite Z.lor_0_l in *.
    unfold quic_dec_int, QUIC_VARINT_BYTE_0_SHIFT; cbn [app].
    rewrite S6. change (Z.shiftl 1 0) with 1.
    cbn [app length].
    match goal with |- (if ?a <? ?b then _ else _) = _ =>
      destruct (Z.ltb_spec a b); [cbn [length] in *; lia|] end.
    unfold QUIC_VARINT_BYTE_0_BITMASK. rewrite L. reflexivity.
  - (* two bytes *)
    destruct a as [|a0 [|a1 a]]; try (cbn [length] in Hroom; lia).
    exists [u8 (Z.lor 0x40 (Z.shiftr val 8)); u8 val].
    split; [|split; [reflexivity|]].
    { unfold quic_enc_int, room, put; cbn [avail written length skipn app].
      zcmp; rewrite <- !app_assoc; reflexivity. }
    pose proof (shiftr_small val 8 ltac:(lia) ltac:(lia)) as Hs.
    destruct (first_byte 1 (Z.shiftr val 8) ltac:(lia) Hs) as (S6 & L & B).
    change (1 * 2 ^ 6) with 0x40 in *.
    unfold quic_dec_int, QUIC_VARINT_BYTE_0_SHIFT; cbn [app]. rewrite S6.
    change (Z.shiftl 1 1) with 2. cbn [app length].
    match goal with |- (if ?a <? ?b then _ else _) = _ =>
      destruct (Z.ltb_spec a b); [cbn [length] in *; lia|] end.
    unfold QUIC_VARINT_BYTE_0_BITMASK. rewrite L.
    change (Z.to_nat 2 - 1)%nat with 1%nat. cbn [dec_loop].
    pose proof (dec_step val 8 H64 ltac:(lia)) as D.
    change (8 - 8) with 0 in D. rewrite Z.shiftr_0_r in D. rewrite D. reflexivity.
  - (* four bytes *)
    destruct a as [|a0 [|a1 [|a2 [|a3 a]]]]; try (cbn [length] in Hroom; lia).
    exists [u8 (Z.lor 0x80 (Z.shiftr val 24)); u8 (Z.shiftr val 16);
            u8 (Z.shiftr val 8); u8 val].
    split; [|split; [reflexivity|]].
    { unfold quic_enc_int, room, put; cbn [avail written length skipn app].
      zcmp; rewrite <- !app_assoc; reflexivity. }
    pose proof (shiftr_small val 24 ltac:(lia) ltac:(lia)) as Hs.
    destruct (first_byte 2 (Z.shiftr val 24) ltac:(lia) Hs) as (S6 & L & B).
    change (2 * 2 ^ 6) with 0x80 in *.
    unfold quic_dec_int, QUIC_VARINT_BYTE_0_SHIFT; cbn [app]. rewrite S6.
    change (Z.shiftl 1 2) with 4. cbn [app length].
    match goal with |- (if ?a <? ?b then _ else _) = _ =>
      destruct (Z.ltb_spec a b); [cbn [length] in *; lia|] end.
    unfold QUIC_VARINT_BYTE_0_BITMASK. rewrite L.
    change (Z.to_nat 4 - 1)%nat with 3%nat. cbn [dec_loop].
    pose proof (dec_step val 24 H64 ltac:(lia)) as D24.
    pose proof (dec_step val 16 H64 ltac:(lia)) as D16.
    pose proof (dec_step val 8 H64 ltac:(lia)) as D8.
    change (24 - 8) with 16 in *. change (16 - 8) with 8 in *.
    change (8 - 8) with 0 in *. rewrite Z.shiftr_0_r in D8.
    rewrite D24, D16, D8. reflexivity.
  - (* eight bytes *)
    destruct a as [|a0 [|a1 [|a2 [|a3 [|a4 [|a5 [|a6 [|a7 a]]]]]]]];
      try (cbn [length] in Hroom; lia).
    exists [u8 (Z.lor 0xc0 (Z.shiftr val 56)); u8 (Z.shiftr val 48);
            u8 (Z.shiftr val 40); u8 (Z.shiftr val 32);
            u8 (Z.shiftr val 24); u8 (Z.shiftr val 16);
            u8 (Z.shiftr val 8); u8 val].
    split; [|split; [reflexivity|]].
    { unfold quic_enc_int, room, put; cbn [avail written length skipn app].
      zcmp; rewrite <- !app_assoc; reflexivity. }
    pose proof (shiftr_small val 56 ltac:(lia) ltac:(lia)) as Hs.
    destruct (first_byte 3 (Z.shiftr val 56) ltac:(lia) Hs) as (S6 & L & B).
    change (3 * 2 ^ 6) with 0xc0 in *.
    unfold quic_dec_int, QUIC_VARINT_BYTE_0_SHIFT; cbn [app]. rewrite S6.
    change (Z.shiftl 1 3) with 8. cbn [app length].
    match goal with |- (if ?a <? ?b then _ else _) = _ =>
      destruct (Z.ltb_spec a b); [cbn [length] in *; lia|] end.
    unfold QUIC_VARINT_BYTE_0_BITMASK. rewrite L.
    change (Z.to_nat 8 - 1)%nat with 7%nat. cbn [dec_loop].
    pose proof (dec_step val 56 H64 ltac:(lia)) as D56.
    pose proof (dec_step val 48 H64 ltac:(lia)) as D48.
    pose proof (dec_step val 40 H64 ltac:(lia)) as D40.
    pose proof (dec_step val 32 H64 ltac:(lia)) as D32.
    pose proof (dec_step val 24 H64 ltac:(lia)) as D24.
    pose proof (dec_step val 16 H64 ltac:(lia)) as D16.
    pose proof (dec_step val 8 H64 ltac:(lia)) as D8.
    change (56 - 8) with 48 in *. change (48 - 8) with 40 in *.
    change (40 - 8) with 32 in *. change (32 - 8) with 24 in *.
    change (24 - 8) with 16 in *. change (16 - 8) with 8 in *.
    change (8 - 8) with 0 in *. rewrite Z.shiftr_0_r in D8.
    rewrite D56, D48, D40, D32, D24, D16, D8. reflexivity.
Qed.

End VarintFacts.

Section VarintClaims.
Import Int Varint.

Lemma quic_enc_int_too_big (val : Z) (c : cursor) :
  2 ^ 62 <= val -> quic_enc_int c val = (0, c).
Proof. intros H. unfold quic_enc_int. zcmp; reflexivity. Qed.

Lemma quic_enc_int_no_room (val : Z) (c : cursor) :
  0 <= val < 2 ^ 62 -> room c < enc_len val -> quic_enc_int c val = (0, c).
Proof.
  intros Hv Hr.
  destruct (enc_len_cases val Hv) as [[E R]|[[E R]|[[E R]|[E R]]]];
    rewrite E in Hr; unfold quic_enc_int; zcmp; reflexivity.
Qed.

Lemma quic_dec_int_short (b0 : Z) (rest : list Z) :
  0 <= b0 < 256 ->
  Z.of_nat (length (b0 :: rest)) < 2 ^ Z.shiftr b0 6 ->
  quic_dec_int (b0 :: rest) = (UINT64_MAX, b0 :: rest).
Proof.
  intros Hb Hl. unfold quic_dec_int, QUIC_VARINT_BYTE_0_SHIFT.
  rewrite Z.shiftl_1_l.
  destruct (Z.ltb_spec (Z.of_nat (length (b0 :: rest))) (2 ^ Z.shiftr b0 6));
    [reflexivity|lia].
Qed.

Lemma enc_len_smallest (val : Z) :
  0 <= val < 2 ^ 62 ->
  In (enc_len val) [1; 2; 4; 8]
  /\ fits val (enc_len val)
  /\ (forall n, In n [1; 2; 4; 8] -> fits val n -> enc_len val <= n).
Proof.
  intros Hv. unfold fits.
  destruct (enc_len_cases val Hv) as [[E R]|[[E R]|[[E R]|[E R]]]];
    rewrite E; cbn [In]; (split; [tauto|]); (split; [cbn; lia|]);
    intros n [<-|[<-|[<-|[<-|[]]]]]; cbn; lia.
Qed.

(** C8. For every [val] of [0, 2^62) and every output position with at
    least [enc_len val] bytes of room, [quic_enc_int] returns 1 after
    storing [enc_len val] bytes, the smallest of the lengths 1, 2, 4, 8
    that fits [val], and [quic_dec_int] reads [val] back from these bytes
    (leaving what follows them); [quic_enc_int] returns 0 and stores
    nothing for [val >= 2^62] and when the room is below the chosen
    length; [quic_dec_int] returns [(uint64_t)-1] without consuming
    anything when the input is empty or shorter than the length its first
    byte announces. *)
Theorem varint_round_trip (val : Z) (c : cursor) (tail : list Z) :
  0 <= val < 2 ^ 64 ->
  (val < 2 ^ 62 -> enc_len val <= room c ->
     (In (enc_len val) [1; 2; 4; 8]
      /\ fits val (enc_len val)
      /\ (forall n, In n [1; 2; 4; 8] -> fits val n -> enc_len val <= n))
     /\ exists bytes,
          quic_enc_int c val
          = (1, {| written := written c ++ bytes;
                   avail := skipn (length bytes) (avail c) |})
          /\ Z.of_nat (length bytes) = enc_len val
          /\ quic_dec_int (bytes ++ tail) = (val, tail))
  /\ (2 ^ 62 <= val -> quic_enc_int c val = (0, c))
  /\ (val < 2 ^ 62 -> room c < enc_len val -> quic_enc_int c val = (0, c))
  /\ (forall b0 rest,
        0 <= b0 < 256 ->
        Z.of_nat (length (b0 :: rest)) < 2 ^ Z.shiftr b0 6 ->
        quic_dec_int (b0 :: rest) = (UINT64_MAX, b0 :: rest))
  /\ quic_dec_int [] = (UINT64_MAX, []).
Proof.
  intros Hv. repeat split.
  - apply enc_len_smallest; lia.
  - apply enc_len_smallest; lia.
  - apply enc_len_smallest; lia.
  - apply quic_enc_int_ok; lia.
  - apply quic_enc_int_too_big.
  - intros. apply quic_enc_int_no_room; lia.
  - intros. apply quic_dec_int_short; assumption.
Qed.

Lemma varint_round_trip_witness :
  exists bytes,
    quic_enc_int (mkCursor [] [0; 0; 0]) 300
    = (1, {| written := [] ++ bytes; avail := skipn (length bytes) [0; 0; 0] |})
    /\ Z.of_nat (length bytes) = enc_len 300
    /\ quic_dec_int (bytes ++ [7]) = (300, [7]).
Proof.
  destruct (varint_round_trip 300 (mkCursor [] [0; 0; 0]) [7]) as [H _].
  - lia.
  - apply H.
    + lia.
    + vm_compute. discriminate.
Defined.

End VarintClaims.

(** ** Packet-number expansion *)

Section PacketNumberClaims.
Import Int PacketNumber.

Lemma land_u64_r (e x : Z) :
  0 <= e < 2 ^ 64 -> Z.land e (u64 x) = Z.land e x.
Proof.
  intros He. unfold u64. rewrite <- Z.land_ones by lia.
  rewrite (Z.land_comm x), Z.land_assoc, Z.land_ones by lia.
  now rewrite Z.mod_small by lia.
Qed.

(** [(expected & ~(win - 1)) | truncated] clears the low bits of
    [expected] and puts [truncated] in their place. *)
Lemma candidate_arith (e t n : Z) :
  0 <= e < 2 ^ 64 -> 0 <= n -> 0 <= t < 2 ^ n ->
  Z.lor (Z.land e (u64 (Z.lnot (2 ^ n - 1)))) t = e - e mod 2 ^ n + t.
Proof.
  intros He Hn Ht. rewrite land_u64_r by lia.
  rewrite <- Z.ldiff_land.
  replace (2 ^ n - 1) with (Z.ones n) by (rewrite Z.ones_equiv; lia).
  rewrite Z.ldiff_ones_r by lia.
  rewrite Z.shiftl_mul_pow2, Z.shiftr_div_pow2 by lia.
  rewrite lor_mul_add by lia.
  pose proof (Z.div_mod e (2 ^ n)). lia.
Qed.

Lemma decode_packet_number_unfold (largest_pn truncated_pn pn_nbits : Z) :
  -1 <= largest_pn < 2 ^ 62 -> 0 < pn_nbits <= 32 ->
  0 <= truncated_pn < 2 ^ pn_nbits ->
  let expected := largest_pn + 1 in
  let win := 2 ^ pn_nbits in
  let hwin := win / 2 in
  let candidate := expected - expected mod win + truncated_pn in
  decode_packet_number largest_pn truncated_pn pn_nbits
  = if candidate + hwin <=? expected then candidate + win
    else if (expected + hwin <? candidate) && (win <? candidate)
         then candidate - win
         else candidate.
Proof.
  intros Hl Hn Ht expected win hwin candidate.
  assert (Hw : 2 <= win <= 2 ^ 32).
  { subst win. split.
    - change 2 with (2 ^ 1). apply Z.pow_le_mono_r; lia.
    - apply Z.pow_le_mono_r; lia. }
  assert (Hr : 0 <= expected mod win < win) by (apply Z.mod_pos_bound; lia).
  assert (Hre : expected mod win <= expected)
    by (apply Z.mod_le; subst expected; lia).
  assert (Hh : 0 <= hwin <= win).
  { subst hwin. split; [apply Z.div_pos; lia|].
    apply Z.div_le_upper_bound; lia. }
  unfold decode_packet_number.
  rewrite Z.shiftl_1_l. fold win.
  replace (u64 (largest_pn + 1)) with expected
    by (unfold u64; rewrite Z.mod_small; subst expected; lia).
  replace (u64 win) with win by (unfold u64; rewrite Z.mod_small; lia).
  fold hwin.
  replace (u64 (win - 1)) with (win - 1)
    by (unfold u64; rewrite Z.mod_small; lia).
  subst win. rewrite candidate_arith by (subst expected; lia).
  fold candidate. set (win := 2 ^ pn_nbits) in *.
  assert (Hc : 0 <= candidate < 2 ^ 63) by (subst candidate expected; lia).
  replace (u64 (candidate + hwin)) with (candidate + hwin)
    by (unfold u64; rewrite Z.mod_small; lia).
  replace (u64 (expected + hwin)) with (expected + hwin)
    by (unfold u64; rewrite Z.mod_small; subst expected; lia).
  replace (u64 (candidate + win)) with (candidate + win)
    by (unfold u64; rewrite Z.mod_small; lia).
  destruct (Z.leb_spec (candidate + hwin) expected); [reflexivity|].
  destruct (Z.ltb_spec (expected + hwin) candidate); cbn [andb]; [|reflexivity].
  destruct (Z.ltb_spec win candidate); [|reflexivity].
  unfold u64. rewrite Z.mod_small; lia.
Qed.

End PacketNumberClaims.

Section PacketNumberWindow.
Import Int PacketNumber.

(** C4, as the spec states it, fails next to zero: with packet 0 the
    largest received and a one-byte packet number 0xff, the candidate
    0xff is above the window but not above [win], so the guard of the
    downward shift keeps it. *)
Lemma decode_packet_number_window_counterexample :
  decode_packet_number 0 0xff 8 = 0xff
  /\ ~ in_window 0 8 (decode_packet_number 0 0xff 8).
Proof.
  split; [reflexivity|].
  change (decode_packet_number 0 0xff 8) with 255.
  unfold in_window. cbn. lia.
Qed.

(** C4 (amended). With [expected = largest_pn + 1], [win = 2^pn_nbits],
    [hwin = win / 2] and [candidate = (expected & ~(win - 1)) | truncated_pn],
    [decode_packet_number] returns [candidate + win] when
    [candidate + hwin <= expected], [candidate - win] when
    [candidate > expected + hwin] and [candidate > win], and [candidate]
    otherwise; the result lies in [(expected - hwin, expected + hwin]]
    whenever [hwin <= expected] or [truncated_pn <= expected + hwin];
    for largest 0xAAF0, truncated 0x01 and 8 bits it is 0xAB01. *)
Theorem decode_packet_number_candidate (largest_pn truncated_pn pn_nbits : Z) :
  -1 <= largest_pn < 2 ^ 62 -> 0 < pn_nbits <= 32 ->
  0 <= truncated_pn < 2 ^ pn_nbits ->
  let expected := largest_pn + 1 in
  let win := 2 ^ pn_nbits in
  let hwin := win / 2 in
  let candidate :=
    Z.lor (Z.land expected (Z.lnot (win - 1))) truncated_pn in
  decode_packet_number largest_pn truncated_pn pn_nbits
  = (if candidate + hwin <=? expected then candidate + win
     else if (expected + hwin <? candidate) && (win <? candidate)
          then candidate - win
          else candidate)
  /\ (hwin <= expected \/ truncated_pn <= expected + hwin ->
      in_window largest_pn pn_nbits
        (decode_packet_number largest_pn truncated_pn pn_nbits))
  /\ decode_packet_number 0xAAF0 0x01 8 = 0xAB01.
Proof.
  intros Hl Hn Ht expected win hwin candidate.
  assert (Hcand : candidate = expected - expected mod win + truncated_pn).
  { subst candidate win.
    rewrite <- (land_u64_r expected) by (subst expected; lia).
    apply candidate_arith; subst expected; lia. }
  pose proof (decode_packet_number_unfold
                largest_pn truncated_pn pn_nbits Hl Hn Ht) as U.
  cbv zeta in U. fold expected win hwin in U. rewrite <- Hcand in U.
  split; [exact U|]. split; [|reflexivity].
  intros Hguard. rewrite U. unfold in_window. fold expected win hwin.
  assert (Hw : win = 2 * hwin /\ 0 < hwin).
  { subst hwin win. replace pn_nbits with (Z.succ (pn_nbits - 1)) by lia.
    rewrite Z.pow_succ_r by lia.
    rewrite (Z.mul_comm 2), Z.div_mul by lia.
    split; [lia|]. apply Z.pow_pos_nonneg; lia. }
  destruct Hw as [Hw Hh].
  assert (Hr : 0 <= expected mod win < win) by (apply Z.mod_pos_bound; lia).
  assert (Hq : expected < win /\ expected mod win = expected
               \/ win <= expected - expected mod win).
  { destruct (Z_lt_ge_dec expected win) as [Hlt|Hge].
    - left. split; [lia|]. apply Z.mod_small. subst expected. lia.
    - right. rewrite (Z.div_mod expected win) at 1 by lia.
      assert (1 <= expected / win) by (apply Z.div_le_lower_bound; lia).
      nia. }
  destruct (Z.leb_spec (candidate + hwin) expected); [lia|].
  destruct (Z.ltb_spec (expected + hwin) candidate); cbn [andb]; [|lia].
  destruct (Z.ltb_spec win candidate); lia.
Qed.

Lemma decode_packet_number_candidate_witness :
  in_window 0xAAF0 8 (decode_packet_number 0xAAF0 0x01 8).
Proof.
  apply (decode_packet_number_candidate 0xAAF0 0x01 8).
  - lia.
  - lia.
  - cbn. lia.
  - left. cbn. lia.
Defined.

End PacketNumberWindow.

(** ** ACK ranges *)

Section AckRangesFacts.
Import Int AckRanges.

Lemma s64_small (x : Z) : - 2 ^ 63 <= x < 2 ^ 63 -> s64 x = x.
Proof. intros H. unfold s64. rewrite Z.mod_small; lia. Qed.

Lemma ranges_ok_cons (r : quic_ack_range) (l : list quic_ack_range) :
  ranges_ok (r :: l) <-> range_ok r /\ Forall (above r) l /\ ranges_ok l.
Proof.
  unfold ranges_ok. split.
  - intros [HF HS]. inversion HF; subst. inversion HS; subst. tauto.
  - intros (Hr & Ha & HF & HS). split; constructor; assumption.
Qed.

Lemma ranges_ok_nil : ranges_ok [].
Proof. split; constructor. Qed.

Lemma covers_cons (r : quic_ack_range) (l : list quic_ack_range) (x : Z) :
  covers (r :: l) x <-> first r <= x <= last r \/ covers l x.
Proof. unfold covers. apply Exists_cons. Qed.

Lemma covers_nil (x : Z) : covers [] x <-> False.
Proof. unfold covers. split; [apply Exists_nil|tauto]. Qed.

(** What [update_loop] guarantees on a non-empty, well-formed tail. *)
Lemma update_loop_ok (pn : Z) (l : list quic_ack_range) (n : Z) :
  0 <= pn < 2 ^ 62 -> l <> [] -> ranges_ok l ->
  let l' := fst (update_loop pn l n) in
  ranges_ok l'
  /\ (forall x, covers l' x <-> covers l x \/ x = pn)
  /\ (forall c, Forall (fun r => last r + 1 < c) l -> pn + 1 < c ->
                Forall (fun r => last r + 1 < c) l').
Proof.
  intros Hpn. induction l as [|curr rest IH]; [congruence|].
  intros _ Hok. apply ranges_ok_cons in Hok. destruct Hok as (Hc & Hab & Hrest).
  destruct Hc as [Hc1 Hc2].
  cbn [update_loop].
  rewrite (s64_small (last curr + 1)) by lia.
  rewrite (s64_small (pn + 1)) by lia.
  destruct (Z.leb_spec (first curr) pn) as [H1|H1];
    [destruct (Z.leb_spec pn (last curr)) as [H2|H2]|]; cbn [andb].
  - (* already there *)
    cbn [fst]. split; [apply ranges_ok_cons; unfold range_ok; tauto|].
    split; [|tauto].
    intros x. rewrite covers_cons. split; [tauto|].
    intros [H| ->]; [tauto|left; lia].
  - (* above [curr] *)
    destruct (Z.ltb_spec (last curr + 1) pn) as [H3|H3].
    + cbn [fst]. split; [|split].
      * apply ranges_ok_cons. split; [unfold range_ok, single; cbn; lia|].
        split; [|apply ranges_ok_cons; unfold range_ok; tauto].
        constructor; [unfold above, single; cbn; lia|].
        eapply Forall_impl; [|exact Hab]. unfold above, single. cbn. intros; lia.
      * intros x. rewrite !covers_cons. unfold single; cbn. intuition lia.
      * intros c HF Hlt. constructor; [unfold single; cbn; lia|assumption].
    + destruct (Z.eqb_spec (last curr + 1) pn) as [H4|H4]; [|lia].
      cbn [fst]. split; [|split].
      * apply ranges_ok_cons. split; [unfold range_ok; cbn; lia|].
        split; [|assumption].
        eapply Forall_impl; [|exact Hab]. unfold above. cbn. intros; lia.
      * intros x. rewrite !covers_cons. cbn. intuition lia.
      * intros c HF Hlt. inversion HF; subst. constructor; [cbn; lia|assumption].
  - (* below [curr] *)
    destruct (Z.ltb_spec (last curr + 1) pn) as [H3|H3]; [lia|].
    destruct (Z.eqb_spec (last curr + 1) pn) as [H4|H4]; [lia|].
    destruct (Z.eqb_spec (first curr) (pn + 1)) as [H5|H5].
    + (* just below [curr] *)
      destruct rest as [|next rest'].
      * cbn [fst]. split; [|split].
        -- apply ranges_ok_cons. split; [unfold range_ok; cbn; lia|].
           split; [constructor|apply ranges_ok_nil].
        -- intros x. rewrite !covers_cons, covers_nil. cbn. intuition lia.
        -- intros c HF Hlt. inversion HF; subst. constructor; [cbn; lia|constructor].
      * apply ranges_ok_cons in Hrest. destruct Hrest as (Hn & Hnab & Hrest').
        destruct Hn as [Hn1 Hn2].
        inversion Hab as [|? ? Hcn Hab']; subst. unfold above in Hcn.
        rewrite (s64_small (last next + 1)) by lia.
        destruct (Z.eqb_spec pn (last next + 1)) as [H6|H6].
        -- cbn [fst]. split; [|split].
           ++ apply ranges_ok_cons. split; [unfold range_ok; cbn; lia|].
              split; [|assumption].
              eapply Forall_impl; [|exact Hnab]. unfold above. cbn. intros; lia.
           ++ intros x. rewrite !covers_cons. cbn. intuition lia.
           ++ intros c HF Hlt. inversion HF as [|? ? ? HF']; subst.
              inversion HF'; subst. constructor; [cbn; lia|assumption].
        -- cbn [fst]. split; [|split].
           ++ apply ranges_ok_cons. split; [unfold range_ok; cbn; lia|].
              split; [|apply ranges_ok_cons; unfold range_ok; tauto].
              constructor; [unfold above; cbn; lia|].
              eapply Forall_impl; [|exact Hnab]. unfold above. cbn. intros; lia.
           ++ intros x. rewrite !covers_cons. cbn. intuition lia.
           ++ intros c HF Hlt. inversion HF; subst.
              constructor; [cbn; lia|assumption].
    + (* further below *)
      destruct rest as [|next rest'].
      * cbn [fst]. split; [|split].
        -- apply ranges_ok_cons. split; [unfold range_ok; tauto|].
           split; [constructor; [unfold above, single; cbn; lia|constructor]|].
           apply ranges_ok_cons. split; [unfold range_ok, single; cbn; lia|].
           split; [constructor|apply ranges_ok_nil].
        -- intros x. rewrite !covers_cons, covers_nil. unfold single; cbn.
           intuition lia.
        -- intros c HF Hlt. inversion HF; subst.
           constructor; [assumption|].
           constructor; [unfold single; cbn; lia|constructor].
      * specialize (IH ltac:(discriminate) Hrest).
        destruct (update_loop pn (next :: rest') n) as [r' n'] eqn:E.
        cbn [fst] in *. destruct IH as (IH1 & IH2 & IH3).
        split; [|split].
        -- apply ranges_ok_cons. split; [unfold range_ok; tauto|].
           split; [|assumption].
           apply (IH3 (first curr)); [exact Hab|lia].
        -- intros x. rewrite !covers_cons, IH2, covers_cons. tauto.
        -- intros c HF Hlt. inversion HF; subst.
           constructor; [assumption|]. apply IH3; assumption.
Qed.

End AckRangesFacts.

Section AckRangesClaims.
Import Int AckRanges.

(** C5. For every ACK-range list that is sorted in descending order,
    disjoint and merged (for any two ranges, the lower one ends at least
    two below the start of the upper one), and every packet number [pn],
    [quic_update_ack_ranges_list] returns 1 and leaves a list that is
    still sorted, disjoint and merged, and that stands for exactly the
    old set of packet numbers with [pn] added. *)
Theorem quic_update_ack_ranges_list_correct
    (ar : quic_ack_ranges) (pn : Z) :
  ranges_ok (lst ar) -> 0 <= pn < 2 ^ 62 ->
  fst (quic_update_ack_ranges_list ar pn) = 1
  /\ ranges_ok (lst (snd (quic_update_ack_ranges_list ar pn)))
  /\ (forall x,
        covers (lst (snd (quic_update_ack_ranges_list ar pn))) x
        <-> covers (lst ar) x \/ x = pn).
Proof.
  intros Hok Hpn. unfold quic_update_ack_ranges_list.
  destruct (lst ar) as [|r l] eqn:E.
  - cbn. split; [reflexivity|]. split.
    + apply ranges_ok_cons. split; [unfold range_ok, single; cbn; lia|].
      split; [constructor|apply ranges_ok_nil].
    + intros x. rewrite covers_cons, !covers_nil. unfold single; cbn. lia.
  - pose proof (update_loop_ok pn (r :: l) (sz ar) Hpn ltac:(discriminate) Hok)
      as (H1 & H2 & _).
    destruct (update_loop pn (r :: l) (sz ar)) as [l' n'].
    cbn [fst snd lst] in *. auto.
Qed.

Example update_merges_neighbours :
  quic_update_ack_ranges_list
    {| lst := [mkRange 5 5; mkRange 3 3]; sz := 2 |} 4
  = (1, {| lst := [mkRange 3 5]; sz := 1 |}).
Proof. reflexivity. Qed.

Lemma quic_update_ack_ranges_list_correct_witness :
  ranges_ok
    (lst (snd (quic_update_ack_ranges_list
                 {| lst := [mkRange 5 5; mkRange 3 3]; sz := 2 |} 4))).
Proof.
  apply (quic_update_ack_ranges_list_correct
           {| lst := [mkRange 5 5; mkRange 3 3]; sz := 2 |} 4).
  - cbn [lst]. split.
    + repeat constructor; cbn; lia.
    + repeat constructor; unfold above; cbn; lia.
  - lia.
Defined.

End AckRangesClaims.


(** ** ACK processing *)

Section AckScenario.
Import Int Xprt Scenario.

Lemma enc_level_eqb_refl (l : quic_tls_enc_level) : enc_level_eqb l l = true.
Proof. destruct l; reflexivity. Qed.

Lemma enc_level_eqb_eq (a b : quic_tls_enc_level) :
  enc_level_eqb a b = true <-> a = b.
Proof. destruct a, b; cbn; split; congruence. Qed.

Lemma pktns_eqb_refl (n : quic_tls_pktns) : pktns_eqb n n = true.
Proof. destruct n; reflexivity. Qed.

Lemma u64_small (x : Z) : 0 <= x < 2 ^ 64 -> u64 x = x.
Proof. intros H. unfold u64. now rewrite Z.mod_small. Qed.

(** C1, as the spec states it, fails: with the pair (gap=1, range=1) the
    second range is 4..5, so packets 6 and 7 are both in the gap; the
    descriptor of 7 is merged into the one of 6, and it is a descriptor at
    packet number 6, for 200 bytes, that enters the retransmit tree. *)
Lemma ack_gap_scenario_counterexample :
  let '(ret, c, _) :=
    qc_parse_ack_frm scenario_ack scenario_conn QUIC_TLS_ENC_LEVEL_INITIAL
                     [1; 1] in
  ret = 1
  /\ tx_crypto_retransmit_frms (enc_levels c QUIC_TLS_ENC_LEVEL_INITIAL)
     = [mkFrm 6 100 200]
  /\ ~ In (mkFrm 7 200 100)
         (tx_crypto_retransmit_frms (enc_levels c QUIC_TLS_ENC_LEVEL_INITIAL)).
Proof.
  vm_compute. split; [reflexivity|]. split; [reflexivity|].
  intros [H|[]]. discriminate H.
Qed.

(** C1 (amended). With outgoing CRYPTO frame descriptors of 100 bytes at
    packet numbers 5, 6, 7 and 8 in a level's outgoing tree, processing an
    ACK frame with largest_ack=8, first_ack_range=0 and one
    (gap=0, range=1) pair, which acknowledges 8 and 5..6, succeeds, removes
    the four descriptors from the outgoing tree, inserts the descriptor of
    packet number 7, offset and length intact, into the retransmit tree,
    sets the retransmit flag to 1 and lowers crypto_in_flight by 400. *)
Theorem ack_gap_scenario (c : quic_conn) (tel : quic_tls_enc_level)
    (o5 o6 o7 o8 : Z) :
  tx_crypto_frms (enc_levels c tel) = scenario_frms o5 o6 o7 o8 ->
  8 <= tx_next_pn (qel_pktns c tel) < 2 ^ 63 ->
  400 <= crypto_in_flight c < 2 ^ 64 ->
  let '(ret, c', _) := qc_parse_ack_frm scenario_ack c tel [0; 1] in
  ret = 1
  /\ tx_crypto_frms (enc_levels c' tel) = []
  /\ tx_crypto_retransmit_frms (enc_levels c' tel)
     = eb64_insert pn (tx_crypto_retransmit_frms (enc_levels c tel))
                   (mkFrm 7 o7 100)
  /\ retransmit c' = 1
  /\ crypto_in_flight c' = crypto_in_flight c - 400.
Proof.
  intros Hfrms Hpn Hcif.
  unfold qc_parse_ack_frm, scenario_ack. cbn [largest_ack first_ack_range ack_range_num].
  rewrite (u64_small (tx_next_pn _)) by lia.
  destruct (Z.ltb_spec (tx_next_pn (qel_pktns c tel)) 8); [lia|].
  change (8 <? 0) with false. cbv iota.
  change (u64 (8 - 0)) with 8. change (Z.to_nat 1) with 1%nat.
  rewrite Hfrms. unfold scenario_frms.
  cbn [ack_loop as_pos as_frms as_retransmit_frms as_crypto_in_flight as_retransmit].
  change (quic_dec_int3 [0; 1]) with (Some (0, [1])). cbv iota beta.
  change (8 <? u64 (0 + 2)) with false. cbv iota.
  change (quic_dec_int3 [1]) with (Some (1, @nil Z)). cbv iota beta.
  change (u64 (8 - 0 - 2)) with 6. change (6 <? 1) with false. cbv iota.
  change (u64 (6 - 1)) with 5.
  unfold quic_ack_range_with_gap_crypto_frames, quic_ack_range_crypto_frames,
    eb64_lookup.
  cbn [eb64_lookup_from pn Z.eqb Pos.eqb ack_range_walk Z.leb Z.compare
       Pos.compare Pos.compare_cont len gap_walk Z.ltb offset rev_append].
  cbn [as_pos as_frms as_retransmit_frms as_crypto_in_flight as_retransmit
       eb64_lookup_from pn Z.eqb Pos.eqb ack_range_walk Z.leb Z.compare
       Pos.compare Pos.compare_cont len gap_walk Z.ltb offset rev_append].
  rewrite (u64_small (crypto_in_flight c - 100)) by lia.
  rewrite (u64_small (crypto_in_flight c - 100 - 100)) by lia.
  rewrite (u64_small (crypto_in_flight c - 100 - 100 - 100)) by lia.
  rewrite (u64_small (crypto_in_flight c - 100 - 100 - 100 - 100)) by lia.
  cbn [Z.eqb fst snd].
  unfold set_retransmit, set_crypto_in_flight, set_enc_level, set_tx_crypto_frms.
  destruct (u64 (rx_largest_acked_pn (qel_pktns c tel)) <? 8);
    cbn [enc_levels retransmit crypto_in_flight set_pktns];
    rewrite enc_level_eqb_refl; cbn [tx_crypto_frms tx_crypto_retransmit_frms];
    repeat split; lia.
Qed.

Lemma ack_gap_scenario_witness :
  let '(ret, c', _) :=
    qc_parse_ack_frm scenario_ack scenario_conn QUIC_TLS_ENC_LEVEL_INITIAL
                     [0; 1] in
  ret = 1
  /\ tx_crypto_frms (enc_levels c' QUIC_TLS_ENC_LEVEL_INITIAL) = []
  /\ tx_crypto_retransmit_frms (enc_levels c' QUIC_TLS_ENC_LEVEL_INITIAL)
     = eb64_insert pn
         (tx_crypto_retransmit_frms
            (enc_levels scenario_conn QUIC_TLS_ENC_LEVEL_INITIAL))
         (mkFrm 7 200 100)
  /\ retransmit c' = 1
  /\ crypto_in_flight c' = crypto_in_flight scenario_conn - 400.
Proof.
  apply (ack_gap_scenario scenario_conn QUIC_TLS_ENC_LEVEL_INITIAL
                          0 100 200 300).
  - reflexivity.
  - cbn. lia.
  - cbn. lia.
Defined.

End AckScenario.

(** ** Header-protection removal *)

Section HeaderProtectionClaims.
Import Int HeaderProtection Scenario.

(** C10 does not hold on the code: the only length check of
    [qc_do_rm_hp] is against [QUIC_PACKET_PN_MAXLEN + sizeof mask] = 9, so
    a packet with 9 to 19 bytes from the packet-number field to its end
    is accepted, [qc_do_rm_hp] returns 1 whenever the cipher succeeds, and
    the sixteen-byte sample runs past the end of the packet. *)
Theorem qc_do_rm_hp_length_check (hp_mask : list Z -> option (list Z))
    (mem mask : list Z) (largest_pn pn end_ : Z) :
  QUIC_PACKET_PN_MAXLEN + sizeof_mask <= end_ - pn ->
  end_ - pn < QUIC_PACKET_PN_MAXLEN + QUIC_HP_SAMPLE_LEN ->
  hp_mask (sample_at mem pn) = Some mask ->
  fst (fst (fst (qc_do_rm_hp hp_mask mem largest_pn pn end_))) = 1
  /\ end_ < sample_end pn.
Proof.
  intros Hlo Hhi Hmask. unfold qc_do_rm_hp.
  destruct (Z.ltb_spec (end_ - pn) (QUIC_PACKET_PN_MAXLEN + sizeof_mask));
    [lia|].
  rewrite Hmask.
  destruct (unmask_pn _ _ _ _ _ _) as [mem' t]. cbn [fst].
  split; [reflexivity|]. unfold sample_end. lia.
Qed.

(** On a packet of 27 bytes with 9 bytes from the packet-number field to
    its end, the packet number [qc_do_rm_hp] stores depends on the bytes
    that follow the packet in memory. *)
Lemma qc_do_rm_hp_length_check_witness :
  (fst (fst (fst (qc_do_rm_hp tail_mask (short_packet ++ repeat 0 16) 0 18 27))) = 1
   /\ 27 < sample_end 18)
  /\ snd (fst (qc_do_rm_hp tail_mask (short_packet ++ repeat 0 16) 0 18 27))
     <> snd (fst (qc_do_rm_hp tail_mask (short_packet ++ repeat 1 16) 0 18 27)).
Proof.
  split.
  - apply (qc_do_rm_hp_length_check tail_mask (short_packet ++ repeat 0 16)
             (skipn 11 (sample_at (short_packet ++ repeat 0 16) 18)) 0 18 27).
    + vm_compute. discriminate.
    + reflexivity.
    + reflexivity.
  - vm_compute. discriminate.
Defined.

End HeaderProtectionClaims.

(** ** The handshake packet builder *)

Section BuilderClaims.
Import Int AckRanges Xprt Scenario.

(** C6 does not hold on the code: [qc_do_build_hdshk_pkt] clears
    ACK_REQUIRED as soon as the ACK frame is built in the trash chunk, and
    the builder can still fail afterwards.  With 30 bytes of room, a
    Handshake packet for a space that owes an ACK for packet 0 gets its
    23-byte header, length, packet number and ACK frame, the CRYPTO frame
    no longer fits, the builder returns -1 with the buffer untouched, and
    ACK_REQUIRED is clear although no ACK frame was committed. *)
Theorem ack_required_cleared_by_failed_build :
  ack_required (qel_pktns ack_pending_conn QUIC_TLS_ENC_LEVEL_HANDSHAKE) = true
  /\ let '(ret, buf, c, off) :=
       qc_build_hdshk_pkt (ext := room_bound_collab)
         (wbuf_with_room 30) ack_pending_conn
         QUIC_PACKET_TYPE_HANDSHAKE 0 100 QUIC_TLS_ENC_LEVEL_HANDSHAKE in
     ret = -1
     /\ buf = wbuf_with_room 30
     /\ off = 0
     /\ Z.land (flags (qel_pktns c QUIC_TLS_ENC_LEVEL_HANDSHAKE))
               QUIC_FL_PKTNS_ACK_REQUIRED = 0
     /\ lst (rx_ack_ranges (qel_pktns c QUIC_TLS_ENC_LEVEL_HANDSHAKE))
        = [mkRange 0 0].
Proof. vm_compute. repeat split. Qed.

(** With room for the whole packet the same build commits a packet that
    carries the ACK frame. *)
Example ack_emitted_by_committed_build :
  let '(ret, buf, c, off) :=
    qc_build_hdshk_pkt (ext := room_bound_collab)
      (wbuf_with_room 1252) ack_pending_conn
      QUIC_PACKET_TYPE_HANDSHAKE 0 100 QUIC_TLS_ENC_LEVEL_HANDSHAKE in
  0 < ret
  /\ q_pkts buf
     = [mkTxPacket QUIC_PACKET_TYPE_HANDSHAKE 1
          [TX_FT_ACK 0 (mkRanges [mkRange 0 0] 1); TX_FT_CRYPTO 0 100]]
  /\ Z.land (flags (qel_pktns c QUIC_TLS_ENC_LEVEL_HANDSHAKE))
            QUIC_FL_PKTNS_ACK_REQUIRED = 0
  /\ crypto_in_flight c = 100.
Proof. vm_compute. repeat split. Qed.

End BuilderClaims.

(** ** WINDOW_UPDATE processing *)

Section MuxClaims.
Import Int MuxH3 Scenario.

Lemma s32_small (x : Z) : - 2 ^ 31 <= x < 2 ^ 31 -> s32 x = x.
Proof. intros H. unfold s32. rewrite Z.mod_small; lia. Qed.

Lemma s32_overflow (x : Z) : 2 ^ 31 <= x < 2 ^ 32 -> s32 x = x - 2 ^ 32.
Proof.
  intros H. unfold s32.
  replace (x + 2 ^ 31) with (x - 2 ^ 31 + 1 * 2 ^ 32) by lia.
  rewrite Z.mod_add by lia. rewrite Z.mod_small; lia.
Qed.




End MuxClaims.

(** ** The RX packet loop *)

Section RxFacts.
Import Int AckRanges Xprt.

Lemma same_rx_refl (c : quic_conn) : same_rx c c.
Proof. unfold same_rx. repeat split. Qed.

Lemma same_rx_trans (a b c : quic_conn) :
  same_rx a b -> same_rx b c -> same_rx a c.
Proof.
  unfold same_rx. intros (S1 & L1 & N1) (S2 & L2 & N2).
  split; [congruence|]. split.
  - intros l. destruct (L1 l), (L2 l). split; congruence.
  - intros n. destruct (N1 n) as (?&?&?&?&?), (N2 n) as (?&?&?&?&?).
    repeat split; congruence.
Qed.

Lemma qc_parse_ack_frm_same_rx (ack : quic_ack) (c : quic_conn)
    (tel : quic_tls_enc_level) (pos : list Z) :
  same_rx c (snd (fst (qc_parse_ack_frm ack c tel pos))).
Proof.
  unfold qc_parse_ack_frm.
  destruct (_ <? largest_ack ack); [apply same_rx_refl|].
  destruct (_ <? first_ack_range ack); [apply same_rx_refl|].
  destruct (ack_loop _ _ _ _) as [ret st].
  assert (H1 : same_rx c
                 (set_retransmit
                    (set_crypto_in_flight
                       (set_enc_level c tel
                          (set_tx_crypto_frms (enc_levels c tel) (as_frms st)
                             (as_retransmit_frms st)))
                       (as_crypto_in_flight st)) (as_retransmit st))).
  { unfold same_rx. cbn. split; [reflexivity|]. split; [|repeat split].
    intros l. destruct (enc_level_eqb l tel) eqn:E; [|split; reflexivity].
    apply enc_level_eqb_eq in E. subst l. split; reflexivity. }
  destruct (ret =? 0); cbn [fst snd]; [exact H1|].
  destruct (_ <? largest_ack ack); [|exact H1].
  eapply same_rx_trans; [exact H1|].
  unfold same_rx. cbn. split; [reflexivity|]. split; [split; reflexivity|].
  intros n. destruct (pktns_eqb n (quic_tls_pktns_of tel)) eqn:E;
    [|repeat split].
  assert (n = quic_tls_pktns_of tel) as ->
    by (destruct n, (quic_tls_pktns_of tel); cbn in E; congruence).
  unfold qel_pktns. cbn. repeat split.
Qed.

(** What a successful run of [qc_parse_hdshk_pkt]'s loop leaves in the
    packet, from the frames alone. *)
Lemma parse_hdshk_frms_ok (tel : quic_tls_enc_level)
    (frms : list (option quic_frame)) :
  forall (qpkt pkt' : quic_rx_packet) (c c1 : quic_conn),
    parse_hdshk_frms frms qpkt c tel = (1, pkt', c1) ->
    same_rx c c1
    /\ out_of_order pkt'
       = out_of_order qpkt
         || any_out_of_order frms (rx_crypto_offset (enc_levels c tel))
    /\ match last_crypto frms with
       | Some (off, data) =>
           crypto_off pkt' = off /\ crypto_dat pkt' = data
           /\ crypto_len pkt' = Z.of_nat (length data)
       | None =>
           crypto_off pkt' = crypto_off qpkt
           /\ crypto_dat pkt' = crypto_dat qpkt
           /\ crypto_len pkt' = crypto_len qpkt
       end
    /\ rx_pn pkt' = rx_pn qpkt.
Proof.
  induction frms as [|[frm|] frms IH]; intros qpkt pkt' c c1 H.
  - cbn in H. inversion H; subst. cbn.
    rewrite orb_false_r. repeat split.
  - cbn [parse_hdshk_frms] in H.
    destruct frm; try discriminate H.
    + (* PADDING *) apply IH in H. exact H.
    + (* PING *) apply IH in H. exact H.
    + (* ACK *)
      pose proof (qc_parse_ack_frm_same_rx ack c tel ranges) as S.
      destruct (qc_parse_ack_frm ack c tel ranges) as [[ret c'] pos'].
      cbn [fst snd] in S.
      destruct (ret =? 0); [discriminate H|].
      apply IH in H. destruct H as (S' & Ho & Hc & Hp).
      split; [eapply same_rx_trans; eassumption|].
      destruct S as (_ & SL & _). destruct (SL tel) as [Hoff _].
      rewrite Hoff in Ho. cbn [any_out_of_order last_crypto]. auto.
    + (* CRYPTO *)
      apply IH in H. destruct H as (S' & Ho & Hc & Hp).
      split; [exact S'|]. cbn [any_out_of_order last_crypto].
      cbn [set_crypto out_of_order crypto_off crypto_dat crypto_len rx_pn]
        in Ho, Hc, Hp.
      split; [|split; [|exact Hp]].
      * rewrite Ho.
        destruct (crypto_offset =? rx_crypto_offset (enc_levels c tel));
          cbn [negb orb]; [reflexivity|].
        now rewrite orb_true_r.
      * destruct (last_crypto frms) as [[o d]|]; exact Hc.
    + (* CONNECTION_CLOSE *) apply IH in H. exact H.
  - discriminate H.
Qed.

End RxFacts.

Section RxLoopFacts.
Import Int AckRanges Xprt.
Context {ext : Collaborators}.

Lemma parse_hdshk_frms_same_rx (tel : quic_tls_enc_level)
    (frms : list (option quic_frame)) :
  forall (qpkt : quic_rx_packet) (c : quic_conn),
    same_rx c (snd (parse_hdshk_frms frms qpkt c tel)).
Proof.
  induction frms as [|[frm|] frms IH]; intros qpkt c;
    cbn [parse_hdshk_frms]; try apply same_rx_refl.
  destruct frm; try apply same_rx_refl; try apply IH.
  pose proof (qc_parse_ack_frm_same_rx ack c tel ranges) as S.
  destruct (qc_parse_ack_frm ack c tel ranges) as [[ret c'] pos'].
  cbn [fst snd] in S. destruct (ret =? 0); [exact S|].
  eapply same_rx_trans; [exact S|apply IH].
Qed.

Lemma parse_hdshk_frms_ret (tel : quic_tls_enc_level)
    (frms : list (option quic_frame)) :
  forall (qpkt : quic_rx_packet) (c : quic_conn),
    fst (fst (parse_hdshk_frms frms qpkt c tel)) = 0
    \/ fst (fst (parse_hdshk_frms frms qpkt c tel)) = 1.
Proof.
  induction frms as [|[frm|] frms IH]; intros qpkt c;
    cbn [parse_hdshk_frms]; try (cbn; lia).
  destruct frm; try (cbn; lia); try apply IH.
  destruct (qc_parse_ack_frm ack c tel ranges) as [[ret c'] pos'].
  destruct (ret =? 0); [cbn; lia|apply IH].
Qed.

Lemma parse_apkt_frms_props (frms : list (option quic_frame)) :
  forall (qpkt : quic_rx_packet) (c : quic_conn),
    same_rx c (snd (parse_apkt_frms frms qpkt c))
    /\ crypto_len (snd (fst (parse_apkt_frms frms qpkt c))) = crypto_len qpkt
    /\ crypto_dat (snd (fst (parse_apkt_frms frms qpkt c))) = crypto_dat qpkt
    /\ crypto_off (snd (fst (parse_apkt_frms frms qpkt c))) = crypto_off qpkt
    /\ out_of_order (snd (fst (parse_apkt_frms frms qpkt c)))
       = out_of_order qpkt.
Proof.
  induction frms as [|[frm|] frms IH]; intros qpkt c;
    cbn [parse_apkt_frms]; try (repeat split; fail).
  destruct frm; try (repeat split; fail); try apply IH;
    try exact (IH (set_ack_eliciting qpkt) c).
  - destruct frms; [apply IH|repeat split].
  - pose proof (qc_parse_ack_frm_same_rx ack c QUIC_TLS_ENC_LEVEL_APP ranges)
      as S.
    destruct (qc_parse_ack_frm ack c QUIC_TLS_ENC_LEVEL_APP ranges)
      as [[ret c'] pos'].
    cbn [fst snd] in S. destruct (ret =? 0); [repeat split; apply S|].
    destruct (IH qpkt c') as (?&?&?&?&?).
    split; [eapply same_rx_trans; eassumption|]. repeat split; assumption.
Qed.

Lemma rx_inv_same_rx (c c' : quic_conn) : same_rx c c' -> rx_inv c -> rx_inv c'.
Proof.
  intros (S & L & _) I l. destruct (L l) as [Ho Hq], (I l) as [Io Iq].
  rewrite Ho, Hq, S. auto.
Qed.

Lemma rx_inv_set_pktns (c : quic_conn) (n : quic_tls_pktns) (p : quic_pktns) :
  rx_inv c -> rx_inv (set_pktns c n p).
Proof. intros I l. exact (I l). Qed.

Lemma u64_add_idemp (a b : Z) : u64 (u64 a + b) = u64 (b + a).
Proof.
  unfold u64. rewrite Z.add_mod_idemp_l by lia. f_equal. lia.
Qed.

(** An accepted delivery keeps the offsets in step with the provider. *)
Lemma deliver_crypto_inv (pkt : quic_rx_packet) (c c' : quic_conn)
    (tel : quic_tls_enc_level) :
  rx_inv c -> crypto_len_ok pkt ->
  deliver_crypto pkt c tel = Delivered c' -> rx_inv c'.
Proof.
  intros I Hlen. unfold deliver_crypto.
  destruct (crypto_len pkt =? 0); [discriminate|].
  destruct (crypto_off pkt =? _); [|discriminate].
  destruct (SSL_provide_quic_data _ _); [|discriminate].
  intros H. inversion H; subst c'. clear H.
  intros l. destruct (I l) as [Io Iq]. cbn.
  destruct (enc_level_eqb l tel) eqn:E.
  - apply enc_level_eqb_eq in E. subst l. cbn.
    rewrite enc_level_eqb_refl. split; [|exact Iq].
    rewrite Io, Hlen. apply u64_add_idemp.
  - rewrite Io. split; [|exact Iq].
    replace (enc_level_eqb tel l) with false; [reflexivity|].
    destruct tel, l; cbn in *; congruence.
Qed.

Lemma treat_rx_loop_inv (tel : quic_tls_enc_level)
    (pkts : list quic_rx_packet) :
  forall (kept : list quic_rx_packet) (c : quic_conn),
    rx_inv c -> Forall crypto_len_ok pkts -> Forall crypto_len_ok kept ->
    rx_inv (snd (treat_rx_loop pkts kept c tel))
    /\ Forall crypto_len_ok (snd (fst (treat_rx_loop pkts kept c tel))).
Proof.
  induction pkts as [|pkt pkts IH]; intros kept c I Hp Hk.
  - cbn. split; [exact I|]. apply Forall_rev. exact Hk.
  - apply Forall_cons_iff in Hp. destruct Hp as [Hpkt Hpkts].
    assert (Hfin : forall (p : quic_rx_packet) (c0 : quic_conn),
               rx_inv c0 -> crypto_len_ok p ->
               let r := match deliver_crypto p c0 tel with
                        | Delivered c' => treat_rx_loop pkts kept c' tel
                        | Retained => treat_rx_loop pkts (p :: kept) c0 tel
                        | Freed => treat_rx_loop pkts kept c0 tel
                        | ProvideError => (0, rev_append kept (p :: pkts), c0)
                        end in
               rx_inv (snd r) /\ Forall crypto_len_ok (snd (fst r))).
    { intros p c0 I0 Hp0.
      destruct (deliver_crypto p c0 tel) as [c'| | |] eqn:D; cbv zeta.
      - apply IH; try assumption. eapply deliver_crypto_inv; eassumption.
      - apply IH; try assumption. constructor; assumption.
      - apply IH; assumption.
      - cbn [fst snd]. split; [exact I0|].
        rewrite rev_append_rev. apply Forall_app. split.
        + apply Forall_rev. exact Hk.
        + constructor; assumption. }
    cbn [treat_rx_loop].
    destruct (out_of_order pkt); [apply Hfin; assumption|].
    destruct (decrypts pkt); cbn [negb]; [|apply IH; assumption].
    destruct (long_header pkt).
    + unfold qc_parse_hdshk_pkt.
      pose proof (parse_hdshk_frms_same_rx tel (payload pkt) pkt c) as S.
      destruct (parse_hdshk_frms (payload pkt) pkt c tel) as [[ret pkt'] c'] eqn:P.
      cbn [snd] in S.
      destruct (Z.eqb_spec ret 0) as [->|Hret].
      * apply IH; try assumption. eapply rx_inv_same_rx; eassumption.
      * assert (ret = 1) as ->.
        { pose proof (parse_hdshk_frms_ret tel (payload pkt) pkt c) as R.
          rewrite P in R. cbn [fst] in R. lia. }
        apply parse_hdshk_frms_ok in P. destruct P as (_ & _ & Hc & _).
        apply Hfin.
        -- apply rx_inv_set_pktns. eapply rx_inv_same_rx; eassumption.
        -- unfold crypto_len_ok.
           destruct (last_crypto (payload pkt)) as [[o d]|].
           ++ destruct Hc as (_ & -> & ->). reflexivity.
           ++ destruct Hc as (_ & -> & ->). exact Hpkt.
    + unfold qc_parse_apkt.
      pose proof (parse_apkt_frms_props (payload pkt) pkt c) as S.
      destruct (parse_apkt_frms (payload pkt) pkt c) as [[ret pkt'] c'].
      cbn [fst snd] in S. destruct S as (S & Hl & Hd & _).
      destruct (ret =? 0).
      * apply IH; try assumption. eapply rx_inv_same_rx; eassumption.
      * apply Hfin.
        -- apply rx_inv_set_pktns. eapply rx_inv_same_rx; eassumption.
        -- unfold crypto_len_ok. rewrite Hl, Hd. exact Hpkt.
Qed.

Lemma qc_treat_rx_pkts_inv (c : quic_conn) (tel : quic_tls_enc_level) :
  rx_inv c -> rx_inv (snd (qc_treat_rx_pkts c tel)).
Proof.
  intros I. unfold qc_treat_rx_pkts.
  destruct (I tel) as [_ Hq].
  pose proof (treat_rx_loop_inv tel (rx_qpkts (enc_levels c tel)) [] c I Hq
                (Forall_nil _)) as [I' Hq'].
  destruct (treat_rx_loop _ _ _ _) as [[ret qpkts] c'].
  cbn [fst snd] in *. intros l. destruct (I' l) as [Io Iq]. cbn.
  destruct (enc_level_eqb l tel) eqn:E; [|auto].
  apply enc_level_eqb_eq in E. subst l. cbn. auto.
Qed.

End RxLoopFacts.

Section RxClaims.
Import Int AckRanges Xprt.
Context {ext : Collaborators}.

Lemma deliver_crypto_cases (pkt : quic_rx_packet) (c : quic_conn)
    (tel : quic_tls_enc_level) :
  crypto_len pkt <> 0 ->
  let el := enc_levels c tel in
  (crypto_off pkt <> rx_crypto_offset el -> deliver_crypto pkt c tel = Retained)
  /\ (crypto_off pkt = rx_crypto_offset el ->
      SSL_provide_quic_data (ssl c) (crypto_dat pkt) = false ->
      deliver_crypto pkt c tel = ProvideError)
  /\ (crypto_off pkt = rx_crypto_offset el ->
      SSL_provide_quic_data (ssl c) (crypto_dat pkt) = true ->
      exists c',
        deliver_crypto pkt c tel = Delivered c'
        /\ ssl c' = (tel, crypto_dat pkt) :: ssl c
        /\ rx_crypto_offset (enc_levels c' tel)
           = u64 (rx_crypto_offset el + crypto_len pkt)).
Proof.
  intros Hlen el. unfold deliver_crypto. fold el.
  destruct (Z.eqb_spec (crypto_len pkt) 0); [contradiction|].
  repeat split.
  - intros H. destruct (Z.eqb_spec (crypto_off pkt) (rx_crypto_offset el));
      [contradiction|reflexivity].
  - intros H A. rewrite H, Z.eqb_refl, A. reflexivity.
  - intros H A. rewrite H, Z.eqb_refl, A. eexists. split; [reflexivity|].
    cbn. rewrite enc_level_eqb_refl. cbn. auto.
Qed.

(** C2 (amended).  At every level, for a long-header packet seen for the
    first time that decrypts, whose frames all parse, and whose CRYPTO
    frame (the last one, if it carries several) has offset [off] and
    non-empty data: when [off] equals the level's rx.crypto.offset the
    data are passed to the TLS provider and, if it accepts them, the
    offset advances by exactly their length and the packet leaves the
    tree (if it refuses them, [qc_treat_rx_pkts] fails with the packet
    still in the tree); otherwise the packet is flagged out-of-order and
    stays in the level's RX tree.  A packet retained by an earlier pass
    is delivered in the same way once rx.crypto.offset has reached its
    offset, and stays in the tree until then.  [qc_treat_rx_pkts]
    maintains, at every level, rx.crypto.offset equal (modulo 2^64) to
    the number of CRYPTO bytes the TLS provider has accepted from that
    level. *)
Theorem crypto_delivered_in_order (c : quic_conn) (tel : quic_tls_enc_level)
    (pkt : quic_rx_packet) (pkts kept : list quic_rx_packet) :
  (out_of_order pkt = false -> decrypts pkt = true -> long_header pkt = true ->
   forall pkt' c1 off data,
     qc_parse_hdshk_pkt pkt c tel = (1, pkt', c1) ->
     last_crypto (payload pkt) = Some (off, data) -> data <> [] ->
     let rxoff := rx_crypto_offset (enc_levels c tel) in
     let c2 := set_pktns c1 (quic_tls_pktns_of tel)
                 (account_rx_pkt pkt' (qel_pktns c1 tel)) in
     crypto_off pkt' = off /\ crypto_dat pkt' = data
     /\ ssl c2 = ssl c /\ rx_crypto_offset (enc_levels c2 tel) = rxoff
     /\ (off = rxoff -> SSL_provide_quic_data (ssl c) data = true ->
         exists c3,
           treat_rx_loop (pkt :: pkts) kept c tel
           = treat_rx_loop pkts kept c3 tel
           /\ ssl c3 = (tel, data) :: ssl c
           /\ rx_crypto_offset (enc_levels c3 tel)
              = u64 (rxoff + Z.of_nat (length data)))
     /\ (off = rxoff -> SSL_provide_quic_data (ssl c) data = false ->
         treat_rx_loop (pkt :: pkts) kept c tel
         = (0, rev_append kept (pkt' :: pkts), c2))
     /\ (off <> rxoff ->
         out_of_order pkt' = true
         /\ treat_rx_loop (pkt :: pkts) kept c tel
            = treat_rx_loop pkts (pkt' :: kept) c2 tel))
  /\ (out_of_order pkt = true -> crypto_len pkt <> 0 ->
      let rxoff := rx_crypto_offset (enc_levels c tel) in
      (crypto_off pkt <> rxoff ->
       treat_rx_loop (pkt :: pkts) kept c tel
       = treat_rx_loop pkts (pkt :: kept) c tel)
      /\ (crypto_off pkt = rxoff ->
          SSL_provide_quic_data (ssl c) (crypto_dat pkt) = true ->
          exists c3,
            treat_rx_loop (pkt :: pkts) kept c tel
            = treat_rx_loop pkts kept c3 tel
            /\ ssl c3 = (tel, crypto_dat pkt) :: ssl c
            /\ rx_crypto_offset (enc_levels c3 tel)
               = u64 (rxoff + crypto_len pkt)))
  /\ (rx_inv c -> rx_inv (snd (qc_treat_rx_pkts c tel))).
Proof.
  split; [|split].
  - intros Hooo Hdec Hlong pkt' c1 off data Hparse Hlast Hdata rxoff c2.
    unfold qc_parse_hdshk_pkt in Hparse.
    pose proof (parse_hdshk_frms_ok tel _ _ _ _ _ Hparse) as (S & Ho & Hc & _).
    rewrite Hlast in Hc. destruct Hc as (Hoff & Hdat & Hlen).
    destruct S as (Sssl & SL & SN). destruct (SL tel) as [Srx _].
    assert (Hnz : crypto_len pkt' <> 0).
    { rewrite Hlen. destruct data; [contradiction|cbn [length]; lia]. }
    pose proof (deliver_crypto_cases pkt' c2 tel Hnz) as (DR & DE & DD).
    cbv zeta in DR, DE, DD.
    assert (Hrx2 : rx_crypto_offset (enc_levels c2 tel) = rxoff)
      by (subst c2 rxoff; cbn; exact Srx).
    assert (Hssl2 : ssl c2 = ssl c) by (subst c2; cbn; exact Sssl).
    rewrite Hrx2, Hoff in DR.
    rewrite Hrx2, Hssl2, Hoff, Hdat in DE.
    rewrite Hrx2, Hssl2, Hoff, Hdat in DD.
    assert (Hloop : treat_rx_loop (pkt :: pkts) kept c tel
                    = match deliver_crypto pkt' c2 tel with
                      | Delivered c' => treat_rx_loop pkts kept c' tel
                      | Retained => treat_rx_loop pkts (pkt' :: kept) c2 tel
                      | Freed => treat_rx_loop pkts kept c2 tel
                      | ProvideError => (0, rev_append kept (pkt' :: pkts), c2)
                      end).
    { cbn [treat_rx_loop]. rewrite Hooo, Hdec, Hlong. cbn [negb].
      unfold qc_parse_hdshk_pkt. rewrite Hparse. reflexivity. }
    repeat split; try assumption.
    + intros He Ha. destruct (DD He Ha) as (c3 & D & D1 & D2).
      exists c3. rewrite Hloop, D, D1, D2, Hlen. auto.
    + intros He Ha. rewrite Hloop, (DE He Ha). reflexivity.
    + rewrite Ho, Hooo. cbn [orb].
      clear - Hlast H. fold rxoff. revert Hlast.
      induction (payload pkt) as [|[frm|] frms IH]; cbn; [discriminate| |exact IH].
      destruct frm; try exact IH.
      destruct (last_crypto frms) as [r|].
      * intros E. rewrite (IH E). apply orb_true_r.
      * intros E. inversion E; subst.
        destruct (Z.eqb_spec off rxoff); [contradiction|reflexivity].
    + rewrite Hloop, (DR H). reflexivity.
  - intros Hooo Hnz rxoff.
    pose proof (deliver_crypto_cases pkt c tel Hnz) as (DR & _ & DD).
    cbv zeta in DR, DD. fold rxoff in DR, DD.
    split.
    + intros H. cbn [treat_rx_loop]. rewrite Hooo, (DR H). reflexivity.
    + intros He Ha. destruct (DD He Ha) as (c3 & D & D1 & D2).
      exists c3. cbn [treat_rx_loop]. rewrite Hooo, D. auto.
  - apply qc_treat_rx_pkts_inv.
Qed.


End RxClaims.

Section RxScenarios.
Import Int AckRanges Xprt Scenario.

(** C2, as the spec states it, fails at the Application level: a
    short-header packet with an in-order CRYPTO frame (offset 0 while
    rx.crypto.offset is 0) is parsed by [qc_parse_apkt], which does not
    record the frame; nothing is passed to the TLS provider, the offset
    stays at 0, and the packet is not retained either. *)
Lemma app_level_crypto_counterexample :
  let c := conn_with_rx QUIC_TLS_ENC_LEVEL_APP
             (rx_packet 0 false [Some (QUIC_FT_CRYPTO 0 [1; 2; 3])]) in
  let r := qc_treat_rx_pkts (ext := room_bound_collab) c QUIC_TLS_ENC_LEVEL_APP in
  rx_crypto_offset (enc_levels c QUIC_TLS_ENC_LEVEL_APP) = 0
  /\ fst r = 1
  /\ ssl (snd r) = []
  /\ rx_crypto_offset (enc_levels (snd r) QUIC_TLS_ENC_LEVEL_APP) = 0
  /\ rx_qpkts (enc_levels (snd r) QUIC_TLS_ENC_LEVEL_APP) = [].
Proof. vm_compute. repeat split. Qed.

Lemma crypto_delivered_in_order_witness :
  let pkt := rx_packet 0 true [Some (QUIC_FT_CRYPTO 0 [1; 2; 3])] in
  let c := conn_with_rx QUIC_TLS_ENC_LEVEL_INITIAL pkt in
  exists c3,
    treat_rx_loop (ext := room_bound_collab) [pkt] [] c
                  QUIC_TLS_ENC_LEVEL_INITIAL
    = treat_rx_loop (ext := room_bound_collab) [] [] c3
                    QUIC_TLS_ENC_LEVEL_INITIAL
    /\ ssl c3 = [(QUIC_TLS_ENC_LEVEL_INITIAL, [1; 2; 3])]
    /\ rx_crypto_offset (enc_levels c3 QUIC_TLS_ENC_LEVEL_INITIAL)
       = u64 (0 + Z.of_nat (length [1; 2; 3])).
Proof.
  intros pkt c.
  destruct (crypto_delivered_in_order (ext := room_bound_collab) c
              QUIC_TLS_ENC_LEVEL_INITIAL pkt [] []) as [H _].
  specialize (H eq_refl eq_refl eq_refl).
  destruct (qc_parse_hdshk_pkt pkt c QUIC_TLS_ENC_LEVEL_INITIAL)
    as [[ret pkt'] c1] eqn:P.
  vm_compute in P. inversion P; subst ret pkt' c1. clear P.
  specialize (H _ _ 0 [1; 2; 3] eq_refl eq_refl).
  destruct H as (_ & _ & _ & _ & H & _).
  - discriminate.
  - apply H; reflexivity.
Defined.



End RxScenarios.

(** ** The CRYPTO in-flight counter *)

Section InFlightFacts.
Import Int AckRanges Xprt.

Lemma frms_total_app (a b : list quic_tx_crypto_frm) :
  frms_total (a ++ b) = frms_total a + frms_total b.
Proof. induction a as [|f a IH]; cbn [app frms_total]; lia. Qed.

Lemma frms_total_rev_append (a b : list quic_tx_crypto_frm) :
  frms_total (rev_append a b) = frms_total a + frms_total b.
Proof.
  revert b. induction a as [|f a IH]; intros b; cbn [rev_append frms_total];
    [lia|]. rewrite IH. cbn [frms_total]. lia.
Qed.

Lemma frms_ok_rev_append (a b : list quic_tx_crypto_frm) :
  frms_ok a -> frms_ok b -> frms_ok (rev_append a b).
Proof.
  unfold frms_ok. intros Ha Hb. rewrite rev_append_rev.
  apply Forall_app. split; [apply Forall_rev; exact Ha|exact Hb].
Qed.

Lemma frms_ok_rev_append_inv (a b : list quic_tx_crypto_frm) :
  frms_ok (rev_append a b) -> frms_ok a /\ frms_ok b.
Proof.
  unfold frms_ok. rewrite rev_append_rev. intros H.
  apply Forall_app in H. destruct H as [Ha Hb]. split; [|exact Hb].
  rewrite <- (rev_involutive a). apply Forall_rev. exact Ha.
Qed.

Lemma frms_total_nonneg (l : list quic_tx_crypto_frm) :
  frms_ok l -> 0 <= frms_total l.
Proof.
  induction 1 as [|f l Hf Hl IH]; cbn [frms_total]; lia.
Qed.

Lemma eb64_lookup_from_split (root : list quic_tx_crypto_frm) (x : Z) :
  forall before b n a,
    eb64_lookup_from pn before root x = Some (b, n, a) ->
    rev_append b (n :: a) = rev_append before root.
Proof.
  induction root as [|node root IH]; intros before b n a H;
    cbn [eb64_lookup_from] in H; [discriminate|].
  destruct (pn node =? x).
  - inversion H; subst. reflexivity.
  - apply IH in H. exact H.
Qed.

Lemma eb64_insert_total (l : list quic_tx_crypto_frm)
    (frm : quic_tx_crypto_frm) :
  frms_total (eb64_insert pn l frm) = len frm + frms_total l.
Proof.
  induction l as [|node l IH]; cbn [eb64_insert frms_total]; [lia|].
  destruct (pn node <=? pn frm); cbn [frms_total]; lia.
Qed.

Lemma eb64_insert_ok (l : list quic_tx_crypto_frm)
    (frm : quic_tx_crypto_frm) :
  frms_ok l -> 0 <= len frm -> frms_ok (eb64_insert pn l frm).
Proof.
  unfold frms_ok. intros Hl Hf.
  induction Hl as [|node l Hn Hl IH]; cbn [eb64_insert].
  - constructor; [exact Hf|constructor].
  - destruct (pn node <=? pn frm); constructor; try assumption.
    constructor; assumption.
Qed.

(** The acknowledged descriptors leave the tree and the counter
    together. *)
Lemma ack_range_walk_total (smallest : Z) (before : list quic_tx_crypto_frm) :
  forall ifcdata,
    frms_ok before -> frms_total before <= ifcdata < 2 ^ 64 ->
    frms_ok (fst (ack_range_walk before ifcdata smallest))
    /\ snd (ack_range_walk before ifcdata smallest)
       - frms_total (fst (ack_range_walk before ifcdata smallest))
       = ifcdata - frms_total before
    /\ frms_total (fst (ack_range_walk before ifcdata smallest))
       <= frms_total before.
Proof.
  induction before as [|node before IH]; intros ifcdata Hok Hb;
    cbn [ack_range_walk].
  - cbn. split; [constructor|split; lia].
  - apply Forall_cons_iff in Hok. destruct Hok as [Hn Hok].
    pose proof (frms_total_nonneg before Hok) as Hnn.
    cbn [frms_total] in Hb.
    destruct (smallest <=? pn node).
    + rewrite u64_small by lia.
      destruct (IH (ifcdata - len node) Hok ltac:(lia)) as (I1 & I2 & I3).
      cbn [frms_total]. split; [exact I1|split; lia].
    + cbn [fst snd frms_total]. split; [constructor; assumption|split; lia].
Qed.

Lemma gap_walk_total (next_largest : Z) (before : list quic_tx_crypto_frm) :
  forall frm,
    0 <= len frm -> frms_ok before ->
    len frm + frms_total before < 2 ^ 64 ->
    0 <= len (fst (gap_walk frm before next_largest))
    /\ frms_ok (snd (gap_walk frm before next_largest))
    /\ len (fst (gap_walk frm before next_largest))
       + frms_total (snd (gap_walk frm before next_largest))
       = len frm + frms_total before.
Proof.
  induction before as [|node before IH]; intros frm Hf Hok Hb;
    cbn [gap_walk].
  - cbn. split; [assumption|split; [constructor|reflexivity]].
  - apply Forall_cons_iff in Hok. destruct Hok as [Hn Hok].
    pose proof (frms_total_nonneg before Hok) as Hnn.
    cbn [frms_total] in Hb.
    destruct (next_largest <? pn node).
    + rewrite (u64_small (len node + len frm)) by lia.
      destruct (IH {| pn := pn node; offset := offset node;
                      len := len node + len frm |})
        as (I1 & I2 & I3); cbn [len]; try assumption; try lia.
      cbn [len] in I3.
      cbn [frms_total]. split; [exact I1|split; [exact I2|lia]].
    + cbn [fst snd frms_total].
      split; [assumption|split; [constructor; assumption|reflexivity]].
Qed.

Lemma quic_ack_range_crypto_frames_total (frms : list quic_tx_crypto_frm)
    (ifcdata largest smallest : Z) :
  frms_ok frms -> frms_total frms <= ifcdata < 2 ^ 64 ->
  let '(before, after, ifcdata') :=
    quic_ack_range_crypto_frames frms ifcdata largest smallest in
  frms_ok before /\ frms_ok after
  /\ ifcdata' - (frms_total before + frms_total after)
     = ifcdata - frms_total frms
  /\ frms_total before + frms_total after <= frms_total frms.
Proof.
  intros Hok Hb. unfold quic_ack_range_crypto_frames, eb64_lookup.
  destruct (eb64_lookup_from pn [] frms largest) as [[[b n] a]|] eqn:E.
  - apply eb64_lookup_from_split in E. cbn [rev_append] in E.
    assert (Hok' : frms_ok (rev_append b (n :: a))) by (rewrite E; exact Hok).
    apply frms_ok_rev_append_inv in Hok'. destruct Hok' as [Hb' Hna].
    apply Forall_cons_iff in Hna. destruct Hna as [Hn Ha].
    assert (Ht : frms_total frms
                 = frms_total (n :: b) + frms_total a).
    { rewrite <- E, frms_total_rev_append. cbn [frms_total]. lia. }
    pose proof (frms_total_nonneg a Ha) as Hann.
    pose proof (ack_range_walk_total smallest (n :: b) ifcdata
                  ltac:(constructor; assumption) ltac:(lia))
      as (W1 & W2 & W3).
    destruct (ack_range_walk (n :: b) ifcdata smallest) as [b' i'].
    cbn [fst snd] in *. cbn [frms_total] in W2, W3, Ht.
    split; [assumption|split; [assumption|split; lia]].
  - cbn [frms_total]. split; [constructor|split; [assumption|split; lia]].
Qed.

(** The state of the ACK loop: the counter exceeds the bytes of this
    level's tree by the bytes of the other levels' trees. *)
Lemma ack_loop_total (n : nat) :
  forall (st : ack_state) (largest smallest : Z),
    frms_ok (as_frms st) ->
    frms_total (as_frms st) <= as_crypto_in_flight st < 2 ^ 64 ->
    let st' := snd (ack_loop n st largest smallest) in
    frms_ok (as_frms st')
    /\ as_crypto_in_flight st' - frms_total (as_frms st')
       = as_crypto_in_flight st - frms_total (as_frms st)
    /\ frms_total (as_frms st') <= frms_total (as_frms st).
Proof.
  induction n as [|n IH]; intros st largest smallest Hok Hb;
    cbn [ack_loop].
  - pose proof (quic_ack_range_crypto_frames_total (as_frms st)
                  (as_crypto_in_flight st) largest smallest Hok Hb) as T.
    destruct (quic_ack_range_crypto_frames _ _ _ _) as [[b a] i].
    destruct T as (T1 & T2 & T3 & T4). cbn.
    rewrite frms_total_rev_append.
    split; [apply frms_ok_rev_append; assumption|split; lia].
  - destruct (quic_dec_int3 (as_pos st)) as [[gap pos1]|];
      [|cbn; split; [assumption|split; lia]].
    destruct (smallest <? u64 (gap + 2));
      [cbn; split; [assumption|split; lia]|].
    destruct (quic_dec_int3 pos1) as [[ack_range pos2]|];
      [|cbn; split; [assumption|split; lia]].
    destruct (u64 (smallest - gap - 2) <? ack_range);
      [cbn; split; [assumption|split; lia]|].
    unfold quic_ack_range_with_gap_crypto_frames.
    pose proof (quic_ack_range_crypto_frames_total (as_frms st)
                  (as_crypto_in_flight st) largest smallest Hok Hb) as T.
    destruct (quic_ack_range_crypto_frames _ _ _ _) as [[b a] i].
    destruct T as (T1 & T2 & T3 & T4).
    pose proof (frms_total_nonneg a T2) as Hann.
    destruct b as [|node b'].
    + cbn [frms_total] in *. cbv zeta.
      match goal with |- context [ack_loop n ?s ?l ?m] =>
        set (st2 := s) end.
      assert (Hok2 : frms_ok (as_frms st2)) by exact T2.
      assert (Hb2 : frms_total (as_frms st2) <= as_crypto_in_flight st2 < 2 ^ 64)
        by (subst st2; cbn [as_frms as_crypto_in_flight]; lia).
      assert (E2 : as_crypto_in_flight st2 - frms_total (as_frms st2)
                   = as_crypto_in_flight st - frms_total (as_frms st))
        by (subst st2; cbn [as_frms as_crypto_in_flight]; lia).
      assert (E3 : frms_total (as_frms st2) <= frms_total (as_frms st))
        by (subst st2; cbn [as_frms]; lia).
      match goal with |- context [ack_loop n st2 ?l ?m] =>
        destruct (IH st2 l m Hok2 Hb2) as (I1 & I2 & I3) end.
      split; [exact I1|split; lia].
    + apply Forall_cons_iff in T1. destruct T1 as [Hn Hb'].
      cbn [frms_total] in *.
      pose proof (frms_total_nonneg b' Hb') as Hbnn.
      pose proof (gap_walk_total (u64 (smallest - gap - 2)) b' node Hn Hb'
                    ltac:(lia)) as (G1 & G2 & G3).
      destruct (gap_walk node b' (u64 (smallest - gap - 2))) as [frm b''].
      cbn [fst snd] in G1, G2, G3.
      pose proof (frms_total_nonneg b'' G2) as Hb2nn. cbv zeta.
      match goal with |- context [ack_loop n ?s ?l ?m] =>
        set (st2 := s) end.
      assert (Hok2 : frms_ok (as_frms st2))
        by (subst st2; cbn [as_frms]; apply frms_ok_rev_append; assumption).
      assert (Hb2 : frms_total (as_frms st2) <= as_crypto_in_flight st2 < 2 ^ 64)
        by (subst st2; cbn [as_frms as_crypto_in_flight];
            rewrite frms_total_rev_append, u64_small by lia; lia).
      assert (E2 : as_crypto_in_flight st2 - frms_total (as_frms st2)
                   = as_crypto_in_flight st - frms_total (as_frms st))
        by (subst st2; cbn [as_frms as_crypto_in_flight];
            rewrite frms_total_rev_append, u64_small by lia; lia).
      assert (E3 : frms_total (as_frms st2) <= frms_total (as_frms st))
        by (subst st2; cbn [as_frms]; rewrite frms_total_rev_append; lia).
      match goal with |- context [ack_loop n st2 ?l ?m] =>
        destruct (IH st2 l m Hok2 Hb2) as (I1 & I2 & I3) end.
      split; [exact I1|split; lia].
Qed.

End InFlightFacts.

Section InFlightSteps.
Import Int AckRanges Xprt.
Context {ext : Collaborators}.

(** What the spec says of [max_stream_data_size]: the size of a CRYPTO
    frame is bounded by what is asked for. *)
Hypothesis max_stream_data_size_le :
  forall sz ilen dlen,
    0 <= dlen -> 0 <= max_stream_data_size sz ilen dlen <= dlen.

Lemma in_flight_total_set_enc_level (c : quic_conn)
    (tel : quic_tls_enc_level) (qel : quic_enc_level) :
  in_flight_total (set_enc_level c tel qel)
  = in_flight_total c - frms_total (tx_crypto_frms (enc_levels c tel))
    + frms_total (tx_crypto_frms qel).
Proof. destruct tel; unfold in_flight_total; cbn; lia. Qed.

Lemma in_flight_total_ge (c : quic_conn) (tel : quic_tls_enc_level) :
  (forall l, frms_ok (tx_crypto_frms (enc_levels c l))) ->
  frms_total (tx_crypto_frms (enc_levels c tel)) <= in_flight_total c.
Proof.
  intros H. unfold in_flight_total.
  pose proof (frms_total_nonneg _ (H QUIC_TLS_ENC_LEVEL_INITIAL)).
  pose proof (frms_total_nonneg _ (H QUIC_TLS_ENC_LEVEL_EARLY_DATA)).
  pose proof (frms_total_nonneg _ (H QUIC_TLS_ENC_LEVEL_HANDSHAKE)).
  pose proof (frms_total_nonneg _ (H QUIC_TLS_ENC_LEVEL_APP)).
  destruct tel; lia.
Qed.

Lemma in_flight_inv_ext (c c' : quic_conn) :
  (forall l, tx_crypto_frms (enc_levels c' l) = tx_crypto_frms (enc_levels c l)) ->
  crypto_in_flight c' = crypto_in_flight c ->
  in_flight_inv c -> in_flight_inv c'.
Proof.
  intros Hl Hc (I1 & I2 & I3). unfold in_flight_inv, in_flight_total.
  rewrite !Hl, Hc. split; [|split; assumption].
  intros l. rewrite Hl. apply I1.
Qed.

(** Replacing the outgoing tree of one level and the counter together. *)
Lemma in_flight_inv_update (c : quic_conn) (tel : quic_tls_enc_level)
    (frms rfrms : list quic_tx_crypto_frm) (v : Z) :
  in_flight_inv c -> frms_ok frms ->
  v - frms_total frms
  = crypto_in_flight c - frms_total (tx_crypto_frms (enc_levels c tel)) ->
  v <= QUIC_CRYPTO_IN_FLIGHT_MAX ->
  in_flight_inv
    (set_crypto_in_flight
       (set_enc_level c tel (set_tx_crypto_frms (enc_levels c tel) frms rfrms))
       v).
Proof.
  intros (I1 & I2 & I3) Hok Hv Hmax. unfold in_flight_inv.
  split; [|split].
  - intros l. cbn. destruct (enc_level_eqb l tel); [exact Hok|apply I1].
  - change (in_flight_total (set_crypto_in_flight ?x v))
      with (in_flight_total x).
    cbn [crypto_in_flight set_crypto_in_flight].
    rewrite in_flight_total_set_enc_level. cbn [tx_crypto_frms set_tx_crypto_frms].
    lia.
  - exact Hmax.
Qed.

Lemma qc_parse_ack_frm_in_flight (ack : quic_ack) (c : quic_conn)
    (tel : quic_tls_enc_level) (pos : list Z) :
  in_flight_inv c ->
  in_flight_inv (snd (fst (qc_parse_ack_frm ack c tel pos)))
  /\ crypto_in_flight (snd (fst (qc_parse_ack_frm ack c tel pos)))
     <= crypto_in_flight c.
Proof.
  intros I. pose proof I as (I1 & I2 & I3).
  pose proof (in_flight_total_ge c tel I1) as Hge.
  pose proof (frms_total_nonneg _ (I1 tel)) as Hnn.
  unfold QUIC_CRYPTO_IN_FLIGHT_MAX in I3.
  unfold qc_parse_ack_frm.
  destruct (_ <? largest_ack ack); [cbn; split; [exact I|lia]|].
  destruct (_ <? first_ack_range ack); [cbn; split; [exact I|lia]|].
  match goal with |- context [ack_loop ?n ?s ?l ?m] =>
    pose proof (ack_loop_total n s l m) as T;
    destruct (ack_loop n s l m) as [ret st] end.
  cbn [as_frms as_crypto_in_flight snd] in T.
  destruct (T (I1 tel) ltac:(lia)) as (T1 & T2 & T3). clear T.
  pose proof (frms_total_nonneg _ T1) as Hnn'.
  assert (H1 : in_flight_inv
                 (set_crypto_in_flight
                    (set_enc_level c tel
                       (set_tx_crypto_frms (enc_levels c tel) (as_frms st)
                          (as_retransmit_frms st)))
                    (as_crypto_in_flight st))).
  { apply in_flight_inv_update; try assumption.
    unfold QUIC_CRYPTO_IN_FLIGHT_MAX. lia. }
  destruct (ret =? 0); cbn [fst snd].
  - split; [|cbn; lia].
    eapply in_flight_inv_ext; [| |exact H1]; reflexivity.
  - destruct (_ <? largest_ack ack); (split; [|cbn; lia]);
      (eapply in_flight_inv_ext; [| |exact H1]; reflexivity).
Qed.

Lemma clamp_crypto_len_bound (c : quic_conn) (len0 : Z) :
  0 <= crypto_in_flight c <= QUIC_CRYPTO_IN_FLIGHT_MAX -> 0 <= len0 ->
  0 <= clamp_crypto_len c len0
    <= QUIC_CRYPTO_IN_FLIGHT_MAX - crypto_in_flight c.
Proof.
  unfold clamp_crypto_len, QUIC_CRYPTO_IN_FLIGHT_MAX. intros Hc Hl.
  rewrite u64_small by lia.
  destruct (Z.ltb_spec (4096 - crypto_in_flight c) len0); lia.
Qed.

(** [qc_do_build_hdshk_pkt] leaves the TX trees and the counter alone and
    moves the offset by at most what the cap leaves. *)
Lemma qc_do_build_hdshk_pkt_tx (buf : q_buf) (pkt_type : quic_packet_type)
    (off len0 : Z) (tel : quic_tls_enc_level) (c : quic_conn) :
  0 <= crypto_in_flight c <= QUIC_CRYPTO_IN_FLIGHT_MAX ->
  0 <= off < 2 ^ 64 -> 0 <= len0 ->
  let r := qc_do_build_hdshk_pkt buf pkt_type off len0 tel c in
  enc_levels (snd r) = enc_levels c
  /\ crypto_in_flight (snd r) = crypto_in_flight c
  /\ exists L,
       0 <= L <= QUIC_CRYPTO_IN_FLIGHT_MAX - crypto_in_flight c
       /\ hp_offset (fst r) = u64 (off + L).
Proof.
  intros Hc Ho Hl.
  assert (Hzero : exists L,
             0 <= L <= QUIC_CRYPTO_IN_FLIGHT_MAX - crypto_in_flight c
             /\ off = u64 (off + L)).
  { exists 0. rewrite Z.add_0_r, u64_small by lia. lia. }
  pose proof (clamp_crypto_len_bound c len0 Hc Hl) as Hclamp.
  cbv beta zeta delta [qc_do_build_hdshk_pkt].
  set (crypto_len := if len0 =? 0 then 0 else clamp_crypto_len c len0).
  assert (Hcl : 0 <= crypto_len
                <= QUIC_CRYPTO_IN_FLIGHT_MAX - crypto_in_flight c)
    by (subst crypto_len; destruct (len0 =? 0); lia).
  clearbody crypto_len.
  destruct (negb (len0 =? 0) && (crypto_len =? 0));
    [cbn; auto|].
  destruct (q_end buf - q_pos buf <? _); [cbn; auto|].
  destruct (ack_required (qel_pktns c tel)) eqn:A; cbn [andb].
  - destruct (quic_do_build_ack_frame _ =? 0); [cbn; auto|].
    destruct (if crypto_len =? 0 then Some 0 else _); [|cbn; auto].
    destruct (if _ =? 0 then Some 0 else _); [|cbn; auto].
    cbn [fst snd hp_offset set_pktns enc_levels crypto_in_flight].
    split; [reflexivity|]. split; [reflexivity|].
    destruct (crypto_len =? 0); [exact Hzero|].
    eexists. split; [|reflexivity].
    match goal with |- context [max_stream_data_size ?a ?b ?d] =>
      pose proof (max_stream_data_size_le a b d ltac:(lia)) end. lia.
  - destruct (if crypto_len =? 0 then Some 0 else _); [|cbn; auto].
    destruct (if _ =? 0 then Some 0 else _); [|cbn; auto].
    cbn [fst snd hp_offset].
    split; [reflexivity|]. split; [reflexivity|].
    destruct (crypto_len =? 0); [exact Hzero|].
    eexists. split; [|reflexivity].
    match goal with |- context [max_stream_data_size ?a ?b ?d] =>
      pose proof (max_stream_data_size_le a b d ltac:(lia)) end. lia.
Qed.

End InFlightSteps.

Section InFlightClaims.
Import Int AckRanges Xprt.
Context {ext : Collaborators}.

Hypothesis max_stream_data_size_le :
  forall sz ilen dlen,
    0 <= dlen -> 0 <= max_stream_data_size sz ilen dlen <= dlen.

Lemma u64_sub_add (off L : Z) :
  0 <= L < 2 ^ 64 -> u64 (u64 (off + L) - off) = L.
Proof.
  intros H. unfold u64. rewrite Zminus_mod_idemp_l.
  replace (off + L - off) with L by lia. apply Z.mod_small. lia.
Qed.

Lemma in_flight_inv_nonneg (c : quic_conn) :
  in_flight_inv c -> 0 <= crypto_in_flight c <= QUIC_CRYPTO_IN_FLIGHT_MAX.
Proof.
  intros (I1 & I2 & I3). split; [|exact I3]. rewrite I2.
  pose proof (in_flight_total_ge c QUIC_TLS_ENC_LEVEL_INITIAL I1).
  pose proof (frms_total_nonneg _ (I1 QUIC_TLS_ENC_LEVEL_INITIAL)). lia.
Qed.

(** A build adds to the counter exactly what it adds to the offset, and
    keeps the counter within its cap. *)
Lemma qc_build_hdshk_pkt_in_flight (buf : q_buf) (c : quic_conn)
    (pkt_type : quic_packet_type) (off len0 : Z) (tel : quic_tls_enc_level) :
  in_flight_inv c -> 0 <= off < 2 ^ 64 -> 0 <= len0 ->
  let r := qc_build_hdshk_pkt buf c pkt_type off len0 tel in
  in_flight_inv (snd (fst r))
  /\ crypto_in_flight (snd (fst r)) = crypto_in_flight c + u64 (snd r - off).
Proof.
  intros I Ho Hl.
  pose proof (in_flight_inv_nonneg c I) as Hc.
  pose proof (qc_do_build_hdshk_pkt_tx max_stream_data_size_le
                buf pkt_type off len0 tel c Hc Ho Hl) as D.
  cbv beta zeta delta [qc_build_hdshk_pkt].
  destruct (qc_do_build_hdshk_pkt buf pkt_type off len0 tel c) as [pkt c1].
  cbn [fst snd] in D. destruct D as (De & Dc & L & HL & Hoff).
  unfold QUIC_CRYPTO_IN_FLIGHT_MAX in *.
  assert (I1 : in_flight_inv c1)
    by (eapply in_flight_inv_ext; [| |exact I]; [intros l; now rewrite De|exact Dc]).
  assert (Hsame : u64 (off - off) = 0) by (rewrite Z.sub_diag; reflexivity).
  destruct (hp_ret pkt <=? 0);
    [cbn [fst snd]; rewrite Hsame; split; [exact I1|lia]|].
  destruct (negb (quic_packet_encrypt _ _ _));
    [cbn [fst snd]; rewrite Hsame; split; [exact I1|lia]|].
  destruct (negb (quic_apply_header_protection _));
    [cbn [fst snd]; rewrite Hsame; split; [exact I1|lia]|].
  match goal with |- context [set_pktns c1 ?n ?p] => set (c2 := set_pktns c1 n p) end.
  assert (I2 : in_flight_inv c2)
    by (eapply in_flight_inv_ext; [| |exact I1]; reflexivity).
  rewrite Hoff, u64_sub_add by lia.
  destruct (Z.eqb_spec L 0) as [->|HnL];
    [cbn [fst snd]; rewrite Hsame; split; [exact I2|subst c2; cbn; lia]|].
  destruct (negb (pool_alloc_tx_crypto_frm _));
    [cbn [fst snd]; rewrite Hsame; split; [exact I2|subst c2; cbn; lia]|].
  cbn [fst snd len].
  assert (Hc2 : crypto_in_flight c2 = crypto_in_flight c) by (subst c2; exact Dc).
  change (crypto_in_flight (set_enc_level c2 tel ?q)) with (crypto_in_flight c2).
  rewrite Hc2. rewrite (u64_small (crypto_in_flight c + L)) by lia.
  rewrite u64_sub_add by lia.
  split; [|cbn; lia].
  apply in_flight_inv_update; try assumption.
  - apply eb64_insert_ok; [apply I2|cbn; lia].
  - rewrite eb64_insert_total. cbn [len]. lia.
  - unfold QUIC_CRYPTO_IN_FLIGHT_MAX. lia.
Qed.

Lemma fresh_conn_in_flight (c : quic_conn) : fresh_conn c -> in_flight_inv c.
Proof.
  intros [Hc Hl]. unfold in_flight_inv, in_flight_total.
  rewrite !Hl, Hc. cbn. split; [|split; [reflexivity|]].
  - intros l. rewrite Hl. constructor.
  - unfold QUIC_CRYPTO_IN_FLIGHT_MAX. lia.
Qed.

Lemma reachable_in_flight (c : quic_conn) : reachable c -> in_flight_inv c.
Proof.
  induction 1 as [c Hf|c c' Hr IH Hs].
  - apply fresh_conn_in_flight. exact Hf.
  - destruct Hs as [buf c pkt_type off len0 tel Ho Hl|ack c tel pos].
    + apply qc_build_hdshk_pkt_in_flight; try assumption. lia.
    + apply qc_parse_ack_frm_in_flight. exact IH.
Qed.

(** C3. Starting from a connection with nothing in flight, after any
    sequence of packet builds and ACK-frame processing steps the
    CRYPTO in-flight counter is within [0, 4096]; from such a state a
    build raises the counter by exactly the CRYPTO length it emits (the
    advance of the offset), which the clamp keeps within
    4096 - crypto_in_flight, and the processing of an ACK frame never
    raises it. *)
Theorem crypto_in_flight_bounded (c : quic_conn) :
  reachable c ->
  0 <= crypto_in_flight c <= QUIC_CRYPTO_IN_FLIGHT_MAX
  /\ (forall buf pkt_type off len0 tel,
        0 <= off < 2 ^ 64 -> 0 <= len0 < 2 ^ 64 ->
        let r := qc_build_hdshk_pkt buf c pkt_type off len0 tel in
        crypto_in_flight (snd (fst r))
        = crypto_in_flight c + u64 (snd r - off)
        /\ crypto_in_flight (snd (fst r)) <= QUIC_CRYPTO_IN_FLIGHT_MAX)
  /\ (forall ack tel pos,
        0 <= crypto_in_flight (snd (fst (qc_parse_ack_frm ack c tel pos)))
          <= crypto_in_flight c).
Proof.
  intros Hr. pose proof (reachable_in_flight c Hr) as I.
  split; [apply in_flight_inv_nonneg; exact I|]. split.
  - intros buf pkt_type off len0 tel Ho Hl.
    destruct (qc_build_hdshk_pkt_in_flight buf c pkt_type off len0 tel I Ho
                ltac:(lia)) as [I' E].
    cbv zeta. split; [exact E|]. apply in_flight_inv_nonneg. exact I'.
  - intros ack tel pos.
    destruct (qc_parse_ack_frm_in_flight ack c tel pos I) as [I' Hle].
    split; [apply in_flight_inv_nonneg; exact I'|exact Hle].
Qed.

End InFlightClaims.

Section InFlightScenario.
Import Int AckRanges Xprt Scenario.

Lemma room_bound_collab_max_stream_data_size (sz ilen dlen : Z) :
  0 <= dlen ->
  0 <= max_stream_data_size (Collaborators := room_bound_collab) sz ilen dlen
    <= dlen.
Proof. intros H. cbn. lia. Qed.

Lemma crypto_in_flight_bounded_witness :
  0 <= crypto_in_flight
         (snd (fst (qc_build_hdshk_pkt (ext := room_bound_collab)
                      (wbuf_with_room 1252) ack_pending_conn
                      QUIC_PACKET_TYPE_HANDSHAKE 0 100
                      QUIC_TLS_ENC_LEVEL_HANDSHAKE)))
    <= QUIC_CRYPTO_IN_FLIGHT_MAX.
Proof.
  apply (crypto_in_flight_bounded (ext := room_bound_collab)
           room_bound_collab_max_stream_data_size).
  apply (reach_step (ext := room_bound_collab) ack_pending_conn).
  - apply reach_init. split; [reflexivity|]. intros l. reflexivity.
  - apply (step_build (ext := room_bound_collab)); lia.
Defined.

End InFlightScenario.

(** ** ACK generation in the builder *)

Section AckGenerationFacts.
Import Int AckRanges Xprt.
Context {ext : Collaborators}.

Lemma clear_ack_required_flag (ns : quic_pktns) :
  Z.land (flags (clear_ack_required ns)) QUIC_FL_PKTNS_ACK_REQUIRED = 0.
Proof.
  unfold clear_ack_required, QUIC_FL_PKTNS_ACK_REQUIRED, u32. cbn [flags set_flags].
  change 1 with (Z.ones 1). rewrite Z.land_ones by lia.
  change (2 ^ 1) with 2.
  rewrite Z.mod_mod_divide by (exists (2 ^ 31); reflexivity).
  change 2 with (2 ^ 1). rewrite <- Z.land_ones by lia.
  rewrite <- Z.land_assoc.
  change (Z.land (u64 (Z.lnot (Z.ones 1))) (Z.ones 1)) with 0.
  apply Z.land_0_r.
Qed.

Lemma qel_pktns_set_pktns (c : quic_conn) (tel : quic_tls_enc_level)
    (p : quic_pktns) :
  qel_pktns (set_pktns c (quic_tls_pktns_of tel) p) tel = p.
Proof. unfold qel_pktns. cbn. now rewrite pktns_eqb_refl. Qed.

(** Once the ACK frame is built in the trash chunk the flag is cleared,
    whatever [qc_do_build_hdshk_pkt] returns afterwards: the frames built
    later can still make it return -1. *)
Lemma qc_do_build_hdshk_pkt_clears_flag (buf : q_buf)
    (pkt_type : quic_packet_type) (off len0 : Z)
    (tel : quic_tls_enc_level) (c : quic_conn) :
  let ns := qel_pktns c tel in
  ack_required ns = true ->
  quic_do_build_ack_frame (rx_ack_ranges ns) <> 0 ->
  (len0 = 0 \/ clamp_crypto_len c len0 <> 0) ->
  QUIC_LONG_PACKET_MINLEN + dcid_len c + scid_len c
  + (if is_initial pkt_type then 1 else 0) <= q_end buf - q_pos buf ->
  let r := qc_do_build_hdshk_pkt buf pkt_type off len0 tel c in
  Z.land (flags (qel_pktns (snd r) tel)) QUIC_FL_PKTNS_ACK_REQUIRED = 0
  /\ (hp_ret (fst r) = -1
      \/ In (TX_FT_ACK 0 (rx_ack_ranges ns)) (hp_frames (fst r))).
Proof.
  intros ns Hreq Hack Hlen Hroom.
  cbv beta zeta delta [qc_do_build_hdshk_pkt]. fold ns.
  set (crypto_len := if len0 =? 0 then 0 else clamp_crypto_len c len0).
  assert (Hout : negb (len0 =? 0) && (crypto_len =? 0) = false).
  { subst crypto_len. destruct (Z.eqb_spec len0 0) as [E|E]; [reflexivity|].
    destruct Hlen as [Hlen|Hlen]; [contradiction|].
    destruct (Z.eqb_spec (clamp_crypto_len c len0) 0); [contradiction|reflexivity]. }
  rewrite Hout. clearbody crypto_len.
  destruct (Z.ltb_spec (q_end buf - q_pos buf)
              (QUIC_LONG_PACKET_MINLEN + dcid_len c + scid_len c
               + (if is_initial pkt_type then 1 else 0))); [lia|].
  rewrite Hreq. cbn [andb].
  destruct (Z.eqb_spec (quic_do_build_ack_frame (rx_ack_ranges ns)) 0);
    [contradiction|].
  destruct (if crypto_len =? 0 then Some 0 else _);
    [|cbn [fst snd hdshk_err hp_ret]; rewrite qel_pktns_set_pktns;
      split; [apply clear_ack_required_flag|left; reflexivity]].
  destruct (if _ =? 0 then Some 0 else _);
    [|cbn [fst snd hdshk_err hp_ret]; rewrite qel_pktns_set_pktns;
      split; [apply clear_ack_required_flag|left; reflexivity]].
  cbn [fst snd hp_frames]. rewrite qel_pktns_set_pktns.
  split; [apply clear_ack_required_flag|right]. left. reflexivity.
Qed.

End AckGenerationFacts.


(** ** Variable-length integers: the decoder *)

Section VarintDecoder.
Import Int Varint Bytes.

Lemma dec_loop_be (n : nat) :
  forall (ret : Z) (buf : list Z) (m : Z),
    0 <= m -> 0 <= ret < 2 ^ m -> m + 8 * Z.of_nat n <= 64 ->
    (n <= length buf)%nat -> Forall is_byte buf ->
    dec_loop n ret buf = (be_from ret (firstn n buf), skipn n buf)
    /\ 0 <= be_from ret (firstn n buf) < 2 ^ (m + 8 * Z.of_nat n).
Proof.
  induction n as [|n IH]; intros ret buf m Hm Hret Hsz Hlen Hb.
  - cbn. rewrite Z.add_0_r. auto.
  - destruct buf as [|b buf]; [cbn in Hlen; lia|].
    inversion Hb as [|? ? Hb0 Hb']; subst. unfold is_byte in Hb0.
    assert (Hstep : u64 (Z.lor (Z.shiftl ret 8) b) = ret * 256 + b).
    { rewrite lor_shiftl_add by lia. change (2 ^ 8) with 256.
      unfold u64. apply Z.mod_small.
      assert (2 ^ (m + 8) <= 2 ^ 64) by (apply Z.pow_le_mono_r; lia).
      rewrite Z.pow_add_r in H by lia. change (2 ^ 8) with 256 in H. nia. }
    cbn [dec_loop firstn skipn]. rewrite Hstep.
    unfold be_from. cbn [fold_left]. fold (be_from (ret * 256 + b) (firstn n buf)).
    assert (Hr' : 0 <= ret * 256 + b < 2 ^ (m + 8)).
    { rewrite Z.pow_add_r by lia. change (2 ^ 8) with 256. nia. }
    destruct (IH (ret * 256 + b) buf (m + 8)) as [E R];
      try assumption; try lia; [cbn in Hlen; lia|].
    split; [exact E|].
    replace (m + 8 * Z.of_nat (S n)) with (m + 8 + 8 * Z.of_nat n) by lia.
    exact R.
Qed.

Lemma quic_dec_int_be (b0 : Z) (rest : list Z) :
  Forall is_byte (b0 :: rest) ->
  2 ^ Z.shiftr b0 6 <= Z.of_nat (length (b0 :: rest)) ->
  let n := Z.to_nat (2 ^ Z.shiftr b0 6) in
  quic_dec_int (b0 :: rest)
  = (be_val (Z.land b0 0x3f :: firstn (n - 1) rest), skipn n (b0 :: rest))
  /\ 0 <= fst (quic_dec_int (b0 :: rest)) < 2 ^ (8 * Z.of_nat n - 2)
  /\ fst (quic_dec_int (b0 :: rest)) < 2 ^ 62
  /\ fst (quic_dec_int (b0 :: rest)) <> UINT64_MAX.
Proof.
  intros Hb Hlen n.
  inversion Hb as [|? ? Hb0 Hrest]; subst. unfold is_byte in Hb0.
  assert (Hk : 0 <= Z.shiftr b0 6 < 4).
  { rewrite Z.shiftr_div_pow2 by lia. change (2 ^ 6) with 64.
    split; [apply Z.div_pos; lia|apply Z.div_lt_upper_bound; lia]. }
  assert (Hn : 1 <= 2 ^ Z.shiftr b0 6 <= 8).
  { split; [apply (Z.pow_le_mono_r 2 0); lia|].
    change 8 with (2 ^ 3). apply Z.pow_le_mono_r; lia. }
  assert (Hx : 0 <= Z.land b0 63 < 2 ^ 6).
  { change 63 with (Z.ones 6). rewrite Z.land_ones by lia.
    apply Z.mod_pos_bound. lia. }
  unfold quic_dec_int, QUIC_VARINT_BYTE_0_SHIFT, QUIC_VARINT_BYTE_0_BITMASK.
  rewrite Z.shiftl_1_l.
  destruct (Z.ltb_spec (Z.of_nat (length (b0 :: rest))) (2 ^ Z.shiftr b0 6));
    [lia|].
  destruct (dec_loop_be (n - 1) (Z.land b0 63) rest 6) as [E R];
    try assumption; try (subst n; lia).
  { subst n. cbn [length] in Hlen. lia. }
  replace (Z.to_nat (2 ^ Z.shiftr b0 6) - 1)%nat with (n - 1)%nat by reflexivity.
  rewrite E. cbn [fst].
  assert (Hsk : skipn (n - 1) rest = skipn n (b0 :: rest)).
  { subst n. destruct (Z.to_nat (2 ^ Z.shiftr b0 6)) as [|k] eqn:Ek; [lia|].
    replace (S k - 1)%nat with k by lia. reflexivity. }
  assert (Hv : be_from (Z.land b0 63) (firstn (n - 1) rest)
               = be_val (Z.land b0 63 :: firstn (n - 1) rest)).
  { unfold be_val, be_from. cbn [fold_left]. reflexivity. }
  rewrite Hsk, Hv in *.
  replace (6 + 8 * Z.of_nat (n - 1)) with (8 * Z.of_nat n - 2) in R
    by (subst n; lia).
  assert (Hp : 2 ^ (8 * Z.of_nat n - 2) <= 2 ^ 62)
    by (apply Z.pow_le_mono_r; subst n; lia).
  split; [reflexivity|]. split; [exact R|]. split; [lia|].
  unfold UINT64_MAX. lia.
Qed.

(** X1. [quic_dec_int] on a buffer that holds the whole integer: with
    [n = 2^(b0 >> 6)] the length that the two top bits of the first
    byte announce, it returns the number that the low six bits of the
    first byte and the [n - 1] bytes behind it spell in network order,
    and leaves the buffer behind these [n] bytes.  The value is below
    [2^(8n - 2)], so below [2^62], and is never the error value
    [UINT64_MAX]. *)
Theorem quic_dec_int_value (b0 : Z) (rest : list Z) :
  Forall is_byte (b0 :: rest) ->
  2 ^ Z.shiftr b0 6 <= Z.of_nat (length (b0 :: rest)) ->
  let n := Z.to_nat (2 ^ Z.shiftr b0 6) in
  quic_dec_int (b0 :: rest)
  = (be_val (Z.land b0 0x3f :: firstn (n - 1) rest), skipn n (b0 :: rest))
  /\ 0 <= fst (quic_dec_int (b0 :: rest)) < 2 ^ (8 * Z.of_nat n - 2)
  /\ fst (quic_dec_int (b0 :: rest)) < 2 ^ 62
  /\ fst (quic_dec_int (b0 :: rest)) <> UINT64_MAX.
Proof. exact (quic_dec_int_be b0 rest). Qed.

End VarintDecoder.

Section VarintNormalise.
Import Int Varint Bytes.

Lemma pow2_shiftr_cases (b0 : Z) :
  0 <= b0 < 256 -> In (2 ^ Z.shiftr b0 6) [1; 2; 4; 8].
Proof.
  intros Hb.
  assert (Hk : 0 <= Z.shiftr b0 6 < 4).
  { rewrite Z.shiftr_div_pow2 by lia. change (2 ^ 6) with 64.
    split; [apply Z.div_pos; lia|apply Z.div_lt_upper_bound; lia]. }
  assert (Hc : Z.shiftr b0 6 = 0 \/ Z.shiftr b0 6 = 1 \/ Z.shiftr b0 6 = 2
               \/ Z.shiftr b0 6 = 3) by lia.
  destruct Hc as [-> |[-> |[-> | ->]]]; cbn; tauto.
Qed.

(** X2. Decoding then encoding normalises an integer: the value decoded
    from [n] bytes is encoded again by [quic_enc_int], given room for
    [n] bytes, in the shortest of the four lengths, which is at most [n];
    the call returns 1 and the bytes written decode to the same value. *)
Theorem quic_dec_enc_normalises (b0 : Z) (rest : list Z) (c : cursor) :
  Forall is_byte (b0 :: rest) ->
  2 ^ Z.shiftr b0 6 <= Z.of_nat (length (b0 :: rest)) ->
  2 ^ Z.shiftr b0 6 <= room c ->
  let v := fst (quic_dec_int (b0 :: rest)) in
  let tail := snd (quic_dec_int (b0 :: rest)) in
  exists bytes,
    quic_enc_int c v
    = (1, {| written := written c ++ bytes;
             avail := skipn (length bytes) (avail c) |})
    /\ Z.of_nat (length bytes) = enc_len v
    /\ enc_len v <= 2 ^ Z.shiftr b0 6
    /\ quic_dec_int (bytes ++ tail) = (v, tail).
Proof.
  intros Hb Hlen Hroom v tail.
  destruct (quic_dec_int_be b0 rest Hb Hlen) as (_ & Hv & Hv62 & _).
  fold v in Hv, Hv62.
  inversion Hb as [|? ? Hb0 _]; subst. unfold is_byte in Hb0.
  pose proof (pow2_shiftr_cases b0 Hb0) as Hin.
  assert (Hn : 1 <= 2 ^ Z.shiftr b0 6 <= 8).
  { cbn [In] in Hin. lia. }
  rewrite Z2Nat.id in Hv by lia.
  destruct (enc_len_smallest v) as (_ & _ & Hmin); [lia|].
  assert (Hle : enc_len v <= 2 ^ Z.shiftr b0 6).
  { apply Hmin; [exact Hin|]. unfold fits. lia. }
  destruct (quic_enc_int_ok v c tail) as (bytes & E1 & E2 & E3); [lia|lia|].
  exists bytes. auto.
Qed.

Lemma quic_dec_int_value_witness :
  quic_dec_int [0x7b; 0xbd; 0xff] = (15293, [0xff]).
Proof.
  destruct (quic_dec_int_value 0x7b [0xbd; 0xff]) as (E & _).
  - repeat constructor; unfold is_byte; lia.
  - cbn. lia.
  - exact E.
Defined.

Lemma quic_dec_enc_normalises_witness :
  enc_len (fst (quic_dec_int [0x40; 0x25])) <= 2.
Proof.
  destruct (quic_dec_enc_normalises 0x40 [0x25]
              {| written := []; avail := [0; 0] |})
    as (bytes & _ & _ & H & _).
  - repeat constructor; unfold is_byte; lia.
  - cbn. lia.
  - cbn. lia.
  - exact H.
Defined.

End VarintNormalise.


(** ** Packet-number expansion: recovering a packet number *)

Section PacketNumberRecover.
Import Int PacketNumber.

(** X3. Truncation then expansion: a packet number [pn] that lies in the
    window [(expected - hwin, expected + hwin]] around
    [expected = largest_pn + 1] is what [decode_packet_number] returns
    for its [pn_nbits] low bits. *)
Theorem decode_packet_number_recovers (largest_pn pn pn_nbits : Z) :
  -1 <= largest_pn < 2 ^ 62 -> 0 < pn_nbits <= 32 -> 0 <= pn ->
  in_window largest_pn pn_nbits pn ->
  decode_packet_number largest_pn (pn mod 2 ^ pn_nbits) pn_nbits = pn.
Proof.
  intros Hl Hn Hpn Hw. unfold in_window in Hw. cbv zeta in Hw.
  assert (Hwin : 0 < 2 ^ pn_nbits) by (apply Z.pow_pos_nonneg; lia).
  pose proof (Z.mod_pos_bound pn (2 ^ pn_nbits) Hwin) as Ht.
  rewrite (decode_packet_number_unfold largest_pn (pn mod 2 ^ pn_nbits)
             pn_nbits Hl Hn Ht).
  cbv zeta.
  assert (Hh : 2 ^ pn_nbits = 2 * (2 ^ pn_nbits / 2)).
  { replace pn_nbits with (1 + (pn_nbits - 1)) at 1 2 by lia.
    rewrite Z.pow_add_r by lia. change (2 ^ 1) with 2.
    rewrite (Z.mul_comm 2), Z.div_mul by lia. lia. }
  set (w := 2 ^ pn_nbits) in *. set (h := w / 2) in *.
  set (e := largest_pn + 1) in *.
  pose proof (Z.div_mod pn w ltac:(lia)) as Dp.
  pose proof (Z.div_mod e w ltac:(lia)) as De.
  pose proof (Z.mod_pos_bound e w Hwin) as Hr.
  set (t := pn mod w) in *. set (r := e mod w) in *.
  set (q := pn / w) in *. set (p := e / w) in *.
  assert (Hd : q - p = -1 \/ q - p = 0 \/ q - p = 1) by nia.
  assert (Hp : 0 <= p) by (subst p; apply Z.div_pos; lia).
  assert (Hq : 0 <= q) by (subst q; apply Z.div_pos; lia).
  replace (e - r) with (w * p) by lia.
  destruct Hd as [Hd|[Hd|Hd]].
  - assert (Hp1 : 1 <= p) by lia.
    assert (Hew : w <= e) by nia.
    replace q with (p - 1) in * by lia.
    destruct (Z.leb_spec (w * p + t + h) e); [nia|].
    destruct (Z.ltb_spec (e + h) (w * p + t)); [|nia].
    destruct (Z.ltb_spec w (w * p + t)); cbn [andb]; nia.
  - replace q with p in * by lia.
    destruct (Z.leb_spec (w * p + t + h) e); [nia|].
    destruct (Z.ltb_spec (e + h) (w * p + t)); [nia|]. cbn [andb]. lia.
  - replace q with (p + 1) in * by lia.
    destruct (Z.leb_spec (w * p + t + h) e); [nia|]. nia.
Qed.

Lemma decode_packet_number_recovers_witness :
  decode_packet_number 0xa82f30ea (0xa82f9b32 mod 2 ^ 16) 16 = 0xa82f9b32.
Proof.
  apply (decode_packet_number_recovers 0xa82f30ea 0xa82f9b32 16).
  - lia.
  - lia.
  - lia.
  - unfold in_window. cbn. lia.
Defined.

End PacketNumberRecover.


(** ** The AEAD nonce *)

Section NonceFacts.
Import Int Bytes QuicConn.

Lemma land_lxor_distr_r (a b c : Z) :
  Z.land (Z.lxor a b) c = Z.lxor (Z.land a c) (Z.land b c).
Proof.
  apply Z.bits_inj'. intros n _.
  rewrite !Z.lxor_spec, !Z.land_spec, Z.lxor_spec.
  destruct (Z.testbit a n), (Z.testbit b n), (Z.testbit c n); reflexivity.
Qed.

Lemma u8_lxor (a b : Z) : u8 (Z.lxor a b) = Z.lxor (u8 a) (u8 b).
Proof.
  unfold u8. rewrite <- !Z.land_ones by lia. apply land_lxor_distr_r.
Qed.

Lemma u8_small (b : Z) : is_byte b -> u8 b = b.
Proof. intros H. unfold u8, is_byte in *. apply Z.mod_small. lia. Qed.

Lemma unmask_byte (b x : Z) :
  is_byte b -> Z.lxor (u8 (Z.lxor b x)) b = u8 x.
Proof.
  intros Hb. rewrite u8_lxor, (u8_small b Hb).
  rewrite (Z.lxor_comm b), Z.lxor_assoc, Z.lxor_nilpotent. apply Z.lxor_0_r.
Qed.

Lemma Forall_skipn_byte (n : nat) (l : list Z) :
  Forall is_byte l -> Forall is_byte (skipn n l).
Proof.
  revert l. induction n as [|n IH]; intros l H; [exact H|].
  destruct l as [|b l]; [constructor|]. inversion H; subst. now apply IH.
Qed.

Lemma iv_xor_loop_length (n : nat) :
  forall (shift : Z) (iv : list Z) (pn : Z),
    (n <= length iv)%nat -> length (iv_xor_loop n shift iv pn) = n.
Proof.
  induction n as [|n IH]; intros shift iv pn H; [reflexivity|].
  destruct iv as [|b iv]; [cbn in H; lia|].
  cbn [iv_xor_loop length]. rewrite IH; [reflexivity|cbn in H; lia].
Qed.

Lemma iv_xor_loop_be (pn : Z) (n : nat) :
  0 <= pn ->
  forall (iv : list Z) (acc : Z),
    Forall is_byte iv -> (n <= length iv)%nat ->
    be_from acc
      (xor_bytes (iv_xor_loop n (8 * (Z.of_nat n - 1)) iv pn) iv)
    = acc * 2 ^ (8 * Z.of_nat n) + pn mod 2 ^ (8 * Z.of_nat n).
Proof.
  intros Hpn. induction n as [|n IH]; intros iv acc Hb Hlen.
  - cbn. rewrite Z.mod_1_r. lia.
  - destruct iv as [|b iv]; [cbn in Hlen; lia|].
    inversion Hb as [|? ? Hb0 Hb']; subst.
    cbn [iv_xor_loop xor_bytes combine map fst snd].
    fold (xor_bytes (iv_xor_loop n (8 * (Z.of_nat (S n) - 1) - 8) iv pn) iv).
    rewrite (unmask_byte b _ Hb0).
    unfold be_from at 1. cbn [fold_left].
    fold (be_from (acc * 256 + u8 (Z.shiftr pn (8 * (Z.of_nat (S n) - 1))))
            (xor_bytes (iv_xor_loop n (8 * (Z.of_nat (S n) - 1) - 8) iv pn) iv)).
    replace (8 * (Z.of_nat (S n) - 1) - 8) with (8 * (Z.of_nat n - 1)) by lia.
    rewrite IH by (try assumption; cbn in Hlen; lia).
    replace (8 * (Z.of_nat (S n) - 1)) with (8 * Z.of_nat n) by lia.
    replace (8 * Z.of_nat (S n)) with (8 * Z.of_nat n + 8) by lia.
    rewrite (Z.pow_add_r 2 (8 * Z.of_nat n) 8) by lia.
    assert (Hp : 0 < 2 ^ (8 * Z.of_nat n)) by (apply Z.pow_pos_nonneg; lia).
    rewrite (Z.rem_mul_r pn (2 ^ (8 * Z.of_nat n)) (2 ^ 8)) by lia.
    unfold u8. rewrite Z.shiftr_div_pow2 by lia.
    change (2 ^ 8) with 256. ring.
Qed.

End NonceFacts.

Section NonceClaims.
Import Int Bytes QuicConn.

(** X4. [quic_aead_iv_build] makes the nonce from the twelve bytes of the
    IV by xoring the packet number, in network order, into the last
    eight: the nonce has twelve bytes, its first four are those of the
    IV, and xoring its last eight with those of the IV gives the packet
    number back.  So two packet numbers never share a nonce under one
    IV. *)
Theorem quic_aead_iv_build_nonce (iv : list Z) (pn : Z) :
  length iv = 12%nat -> Forall is_byte iv -> 0 <= pn < 2 ^ 64 ->
  length (quic_aead_iv_build iv pn) = 12%nat
  /\ firstn 4 (quic_aead_iv_build iv pn) = firstn 4 iv
  /\ be_val (xor_bytes (skipn 4 (quic_aead_iv_build iv pn)) (skipn 4 iv)) = pn
  /\ (forall pn', 0 <= pn' < 2 ^ 64 ->
        quic_aead_iv_build iv pn' = quic_aead_iv_build iv pn -> pn' = pn).
Proof.
  intros Hlen Hb Hpn.
  assert (Hsk : forall x, 0 <= x < 2 ^ 64 ->
            be_val (xor_bytes (skipn 4 (quic_aead_iv_build iv x)) (skipn 4 iv))
            = x).
  { intros x Hx. unfold quic_aead_iv_build, iv_size, sizeof_pn.
    change (Z.to_nat (12 - 8)) with 4%nat. change (Z.to_nat 8) with 8%nat.
    assert (Hbt : Forall is_byte (skipn 4 iv))
      by (apply Forall_skipn_byte; exact Hb).
    assert (Hlt : length (skipn 4 iv) = 8%nat) by (rewrite length_skipn; lia).
    set (tl := skipn 4 iv) in *.
    rewrite skipn_app, length_firstn, Hlen. change (4 - Nat.min 4 12)%nat with 0%nat.
    rewrite (skipn_all2 (firstn 4 iv)) by (rewrite length_firstn; lia).
    cbn [skipn app]. unfold be_val.
    change 56 with (8 * (Z.of_nat 8 - 1)).
    rewrite iv_xor_loop_be; try lia; try assumption.
    change (8 * Z.of_nat 8) with 64. rewrite Z.mod_small; lia. }
  split; [|split; [|split]].
  - unfold quic_aead_iv_build, iv_size, sizeof_pn.
    change (Z.to_nat (12 - 8)) with 4%nat. change (Z.to_nat 8) with 8%nat.
    rewrite length_app, length_firstn, iv_xor_loop_length.
    + rewrite Hlen. reflexivity.
    + rewrite length_skipn, Hlen. lia.
  - unfold quic_aead_iv_build, iv_size, sizeof_pn.
    change (Z.to_nat (12 - 8)) with 4%nat.
    rewrite firstn_app, firstn_firstn, length_firstn, Hlen.
    change (4 - Nat.min 4 12)%nat with 0%nat. cbn [firstn Nat.min].
    apply app_nil_r.
  - apply Hsk. exact Hpn.
  - intros pn' Hpn' E. rewrite <- (Hsk pn' Hpn'), E. apply Hsk. exact Hpn.
Qed.

Lemma quic_aead_iv_build_nonce_witness :
  length (quic_aead_iv_build [1; 2; 3; 4; 5; 6; 7; 8; 9; 10; 11; 12] 258)
  = 12%nat.
Proof.
  apply (quic_aead_iv_build_nonce [1; 2; 3; 4; 5; 6; 7; 8; 9; 10; 11; 12] 258).
  - reflexivity.
  - repeat constructor; unfold is_byte; lia.
  - lia.
Defined.

End NonceClaims.


(** ** ACK ranges: the counter, duplicates and arrival order *)

Section AckRangesMore.
Import Int AckRanges.

Lemma update_loop_sz (pn : Z) (l : list quic_ack_range) :
  forall n k : Z,
    0 <= k -> n = Z.of_nat (length l) + k -> n + 1 < 2 ^ 64 ->
    let r := update_loop pn l n in
    snd r = Z.of_nat (length (fst r)) + k /\ n - 1 <= snd r <= n + 1.
Proof.
  induction l as [|curr rest IH]; intros n k Hk Hn Hb.
  - cbn in *. lia.
  - cbn [update_loop]. cbn [length] in Hn.
    assert (Hu1 : u64 (n + 1) = n + 1) by (unfold u64; apply Z.mod_small; lia).
    assert (Hu2 : u64 (n - 1) = n - 1) by (unfold u64; apply Z.mod_small; lia).
    destruct ((first curr <=? pn) && (pn <=? last curr));
      [cbn [fst snd length]; lia|].
    destruct (s64 (last curr + 1) <? pn);
      [cbn [fst snd length]; rewrite Hu1; lia|].
    destruct (s64 (last curr + 1) =? pn); [cbn [fst snd length]; lia|].
    destruct (first curr =? s64 (pn + 1)).
    + destruct rest as [|next rest']; [cbn [fst snd length] in *; lia|].
      destruct (pn =? s64 (last next + 1)); cbn [fst snd length] in *;
        rewrite ?Hu2; lia.
    + destruct rest as [|next rest'];
        [cbn [fst snd length] in *; rewrite Hu1; lia|].
      specialize (IH n (k + 1) ltac:(lia) ltac:(lia) Hb).
      destruct (update_loop pn (next :: rest') n) as [r' n'].
      cbn [fst snd length] in *. lia.
Qed.

Lemma quic_update_ack_ranges_list_keeps_sz (ar : quic_ack_ranges) (pn : Z) :
  sz ar = Z.of_nat (length (lst ar)) -> sz ar + 1 < 2 ^ 64 ->
  let ar' := snd (quic_update_ack_ranges_list ar pn) in
  sz ar' = Z.of_nat (length (lst ar'))
  /\ sz ar - 1 <= sz ar' <= sz ar + 1.
Proof.
  intros Hsz Hb. unfold quic_update_ack_ranges_list.
  destruct (lst ar) as [|r l] eqn:E.
  - cbn [snd lst sz length] in *. unfold u64. rewrite Z.mod_small; lia.
  - pose proof (update_loop_sz pn (r :: l) (sz ar) 0 ltac:(lia) ltac:(lia) Hb)
      as H.
    destruct (update_loop pn (r :: l) (sz ar)) as [l' n'].
    cbn [fst snd lst sz] in *. lia.
Qed.

(** X5. [quic_update_ack_ranges_list] keeps [sz] equal to the number of
    ranges in the list, and one call changes it by at most one: a new
    range adds one, a packet number that joins two ranges removes
    one. *)
Theorem quic_update_ack_ranges_list_sz (ar : quic_ack_ranges) (pn : Z) :
  sz ar = Z.of_nat (length (lst ar)) -> sz ar + 1 < 2 ^ 64 ->
  let ar' := snd (quic_update_ack_ranges_list ar pn) in
  sz ar' = Z.of_nat (length (lst ar'))
  /\ sz ar - 1 <= sz ar' <= sz ar + 1.
Proof. exact (quic_update_ack_ranges_list_keeps_sz ar pn). Qed.

Lemma quic_update_ack_ranges_list_sz_witness :
  sz (snd (quic_update_ack_ranges_list
             {| lst := [mkRange 5 5; mkRange 3 3]; sz := 2 |} 4)) = 1.
Proof.
  destruct (quic_update_ack_ranges_list_sz
              {| lst := [mkRange 5 5; mkRange 3 3]; sz := 2 |} 4) as [H _].
  - reflexivity.
  - cbn. lia.
  - exact H.
Defined.

(** Two well-formed lists that stand for the same set of packet numbers
    are the same list. *)
Lemma covers_below (r : quic_ack_range) (l : list quic_ack_range) (x : Z) :
  Forall (above r) l -> covers l x -> x + 1 < first r.
Proof.
  intros Ha Hc. unfold covers in Hc. apply Exists_exists in Hc.
  destruct Hc as (r' & Hin & Hx). rewrite Forall_forall in Ha.
  specialize (Ha r' Hin). unfold above in Ha. lia.
Qed.

Lemma ranges_ok_unique (l1 : list quic_ack_range) :
  forall l2,
    ranges_ok l1 -> ranges_ok l2 ->
    (forall x, covers l1 x <-> covers l2 x) -> l1 = l2.
Proof.
  induction l1 as [|r1 t1 IH]; intros l2 H1 H2 Hc.
  - destruct l2 as [|r2 t2]; [reflexivity|].
    apply ranges_ok_cons in H2. destruct H2 as ([Hr _] & _).
    exfalso. apply (covers_nil (first r2)). apply Hc.
    apply covers_cons. left. lia.
  - apply ranges_ok_cons in H1. destruct H1 as ([Hr1 Hr1'] & Ha1 & Ht1).
    destruct l2 as [|r2 t2].
    { exfalso. apply (covers_nil (first r1)). apply Hc.
      apply covers_cons. left. lia. }
    apply ranges_ok_cons in H2. destruct H2 as ([Hr2 Hr2'] & Ha2 & Ht2).
    assert (Hin1 : forall x, first r1 <= x <= last r1 ->
                             first r2 <= x <= last r2 \/ x + 1 < first r2).
    { intros x Hx.
      assert (Hcx : covers (r2 :: t2) x)
        by (apply Hc; apply covers_cons; left; exact Hx).
      apply covers_cons in Hcx. destruct Hcx as [Hcx|Hcx]; [left; exact Hcx|].
      right. apply (covers_below r2 t2 x Ha2 Hcx). }
    assert (Hin2 : forall x, first r2 <= x <= last r2 ->
                             first r1 <= x <= last r1 \/ x + 1 < first r1).
    { intros x Hx.
      assert (Hcx : covers (r1 :: t1) x)
        by (apply Hc; apply covers_cons; left; exact Hx).
      apply covers_cons in Hcx. destruct Hcx as [Hcx|Hcx]; [left; exact Hcx|].
      right. apply (covers_below r1 t1 x Ha1 Hcx). }
    assert (Hl : last r1 = last r2).
    { pose proof (Hin1 (last r1) ltac:(lia)).
      pose proof (Hin2 (last r2) ltac:(lia)). lia. }
    assert (Hf : first r1 = first r2).
    { destruct (Z.lt_trichotomy (first r1) (first r2)) as [Hlt|[Heq|Hgt]];
        [|exact Heq|].
      - pose proof (Hin1 (first r2 - 1) ltac:(lia)). lia.
      - pose proof (Hin2 (first r1 - 1) ltac:(lia)). lia. }
    assert (Hr : r1 = r2) by (destruct r1, r2; cbn in *; congruence).
    subst r2. f_equal. apply IH; try assumption.
    intros x. split; intros Hx.
    + assert (Hcx : covers (r1 :: t2) x)
        by (apply Hc; apply covers_cons; right; exact Hx).
      apply covers_cons in Hcx. destruct Hcx as [Hcx|Hcx]; [|exact Hcx].
      pose proof (covers_below r1 t1 x Ha1 Hx). lia.
    + assert (Hcx : covers (r1 :: t1) x)
        by (apply Hc; apply covers_cons; right; exact Hx).
      apply covers_cons in Hcx. destruct Hcx as [Hcx|Hcx]; [|exact Hcx].
      pose proof (covers_below r1 t2 x Ha2 Hx). lia.
Qed.

(** What [quic_update_ack_ranges_list] guarantees, for use below. *)
Lemma quic_update_ack_ranges_list_ok (ar : quic_ack_ranges) (pn : Z) :
  ranges_ok (lst ar) -> 0 <= pn < 2 ^ 62 ->
  ranges_ok (lst (snd (quic_update_ack_ranges_list ar pn)))
  /\ (forall x,
        covers (lst (snd (quic_update_ack_ranges_list ar pn))) x
        <-> covers (lst ar) x \/ x = pn).
Proof.
  intros Hok Hpn. unfold quic_update_ack_ranges_list.
  destruct (lst ar) as [|r l] eqn:E.
  - cbn. split.
    + apply ranges_ok_cons. split; [unfold range_ok, single; cbn; lia|].
      split; [constructor|apply ranges_ok_nil].
    + intros x. rewrite covers_cons, !covers_nil. unfold single; cbn. lia.
  - pose proof (update_loop_ok pn (r :: l) (sz ar) Hpn ltac:(discriminate) Hok)
      as (H1 & H2 & _).
    destruct (update_loop pn (r :: l) (sz ar)) as [l' n'].
    cbn [fst snd lst] in *. auto.
Qed.

(** X6. A duplicate changes nothing: for a packet number that the ranges
    already cover, [quic_update_ack_ranges_list] returns 1 and leaves the
    list and its size as they are. *)
Theorem quic_update_ack_ranges_list_duplicate
    (ar : quic_ack_ranges) (pn : Z) :
  ranges_ok (lst ar) -> 0 <= pn < 2 ^ 62 -> covers (lst ar) pn ->
  quic_update_ack_ranges_list ar pn = (1, ar).
Proof.
  intros Hok Hpn Hc.
  destruct (quic_update_ack_ranges_list_ok ar pn Hok Hpn) as [H1 H2].
  assert (Hl : lst (snd (quic_update_ack_ranges_list ar pn)) = lst ar).
  { apply ranges_ok_unique; try assumption.
    intros x. rewrite H2. split; [intros [H| ->]; assumption|tauto]. }
  assert (Hs : sz (snd (quic_update_ack_ranges_list ar pn)) = sz ar).
  { revert Hl. unfold quic_update_ack_ranges_list.
    destruct (lst ar) as [|r l] eqn:E.
    - apply covers_nil in Hc. contradiction.
    - clear H1 H2. revert Hc Hok. generalize (sz ar) as n.
      generalize (r :: l) as l0. clear. intros l0.
      induction l0 as [|curr rest IH]; intros n Hc Hok.
      + cbn. reflexivity.
      + apply ranges_ok_cons in Hok. destruct Hok as ([Hr Hr'] & Ha & Hrest).
        cbn [update_loop].
        rewrite (s64_small (last curr + 1)) by lia.
        destruct ((first curr <=? pn) && (pn <=? last curr)) eqn:Ein;
          [reflexivity|].
        apply covers_cons in Hc. destruct Hc as [Hc|Hc].
        { exfalso. apply andb_false_iff in Ein.
          destruct Ein as [Ein|Ein];
            [apply Z.leb_gt in Ein|apply Z.leb_gt in Ein]; lia. }
        pose proof (covers_below curr rest pn Ha Hc) as Hlt.
        assert (Hp62 : 0 <= pn < 2 ^ 62).
        { unfold covers in Hc. apply Exists_exists in Hc.
          destruct Hc as (r' & Hin & Hx).
          destruct Hrest as [HF _]. rewrite Forall_forall in HF.
          specialize (HF r' Hin). unfold range_ok in HF. lia. }
        rewrite (s64_small (pn + 1)) by lia.
        destruct (Z.ltb_spec (last curr + 1) pn); [lia|].
        destruct (Z.eqb_spec (last curr + 1) pn); [lia|].
        destruct (Z.eqb_spec (first curr) (pn + 1)); [lia|].
        destruct rest as [|next rest'];
          [apply covers_nil in Hc; contradiction|].
        specialize (IH n Hc Hrest).
        destruct (update_loop pn (next :: rest') n) as [r' n'].
        cbn [snd sz lst] in *. intros Hl. apply IH.
        injection Hl as Hl. exact Hl. }
  destruct ar as [l n]. unfold quic_update_ack_ranges_list in *.
  cbn [lst sz] in *.
  destruct l as [|r l]; [apply covers_nil in Hc; contradiction|].
  destruct (update_loop pn (r :: l) n) as [l' n']. cbn [snd lst sz] in *.
  subst. reflexivity.
Qed.

Lemma quic_update_ack_ranges_list_duplicate_witness :
  quic_update_ack_ranges_list
    {| lst := [mkRange 7 9; mkRange 3 5]; sz := 2 |} 4
  = (1, {| lst := [mkRange 7 9; mkRange 3 5]; sz := 2 |}).
Proof.
  apply (quic_update_ack_ranges_list_duplicate
           {| lst := [mkRange 7 9; mkRange 3 5]; sz := 2 |} 4).
  - cbn [lst]. split.
    + repeat constructor; cbn; lia.
    + repeat constructor; unfold above; cbn; lia.
  - lia.
  - cbn [lst]. apply covers_cons. right. apply covers_cons. left. cbn. lia.
Defined.

(** X7. The order of arrival does not matter: recording [a] then [b]
    leaves the same ranges and the same size as recording [b] then
    [a]. *)
Theorem quic_update_ack_ranges_list_order
    (ar : quic_ack_ranges) (a b : Z) :
  ranges_ok (lst ar) -> sz ar = Z.of_nat (length (lst ar)) ->
  sz ar + 2 < 2 ^ 64 ->
  0 <= a < 2 ^ 62 -> 0 <= b < 2 ^ 62 ->
  snd (quic_update_ack_ranges_list
         (snd (quic_update_ack_ranges_list ar a)) b)
  = snd (quic_update_ack_ranges_list
           (snd (quic_update_ack_ranges_list ar b)) a).
Proof.
  intros Hok Hsz Hb Ha Hb'.
  destruct (quic_update_ack_ranges_list_ok ar a Hok Ha) as [Oa Ca].
  destruct (quic_update_ack_ranges_list_ok ar b Hok Hb') as [Ob Cb].
  destruct (quic_update_ack_ranges_list_keeps_sz ar a Hsz ltac:(lia)) as [Sa Ba].
  destruct (quic_update_ack_ranges_list_keeps_sz ar b Hsz ltac:(lia)) as [Sb Bb].
  set (ara := snd (quic_update_ack_ranges_list ar a)) in *.
  set (arb := snd (quic_update_ack_ranges_list ar b)) in *.
  destruct (quic_update_ack_ranges_list_ok ara b Oa Hb') as [Oab Cab].
  destruct (quic_update_ack_ranges_list_ok arb a Ob Ha) as [Oba Cba].
  destruct (quic_update_ack_ranges_list_keeps_sz ara b Sa ltac:(lia)) as [Sab _].
  destruct (quic_update_ack_ranges_list_keeps_sz arb a Sb ltac:(lia)) as [Sba _].
  set (r1 := snd (quic_update_ack_ranges_list ara b)) in *.
  set (r2 := snd (quic_update_ack_ranges_list arb a)) in *.
  assert (Hl : lst r1 = lst r2).
  { apply ranges_ok_unique; try assumption.
    intros x. rewrite Cab, Cba, Ca, Cb. tauto. }
  destruct r1 as [l1 n1], r2 as [l2 n2]. cbn [lst sz] in *.
  subst. reflexivity.
Qed.

Lemma quic_update_ack_ranges_list_order_witness :
  snd (quic_update_ack_ranges_list
         (snd (quic_update_ack_ranges_list
                 {| lst := [mkRange 5 5; mkRange 1 1]; sz := 2 |} 3)) 4)
  = snd (quic_update_ack_ranges_list
           (snd (quic_update_ack_ranges_list
                   {| lst := [mkRange 5 5; mkRange 1 1]; sz := 2 |} 4)) 3).
Proof.
  apply (quic_update_ack_ranges_list_order
           {| lst := [mkRange 5 5; mkRange 1 1]; sz := 2 |} 3 4).
  - cbn [lst]. split.
    + repeat constructor; cbn; lia.
    + repeat constructor; unfold above; cbn; lia.
  - reflexivity.
  - cbn. lia.
  - lia.
  - lia.
Defined.

End AckRangesMore.


(** ** The outgoing CRYPTO buffers *)

Section CryptoBufFacts.
Import Int CryptoBuf.
Variable realloc : Z -> bool.
Variable pool_alloc : Z -> bool.

Lemma stream_app (full : list quic_crypto_buf) (qcb : quic_crypto_buf)
    (n : Z) :
  stream {| bufs := full ++ [qcb]; crypto_sz := n |}
  = concat (map data full) ++ data qcb.
Proof.
  unfold stream. cbn [bufs]. rewrite map_app, concat_app. cbn.
  now rewrite app_nil_r.
Qed.

Lemma cpy_loop_ok (fuel : nat) :
  (forall n, realloc n = true) -> (forall n, pool_alloc n = true) ->
  forall (full : list quic_crypto_buf) (qcb : quic_crypto_buf)
         (total : Z) (dat : list Z),
    (length dat < fuel)%nat ->
    Forall (fun b => buf_ok b /\ sz b = QUIC_CRYPTO_BUF_SZ) full ->
    buf_ok qcb -> sz qcb < QUIC_CRYPTO_BUF_SZ ->
    total = Z.of_nat (length (concat (map data full) ++ data qcb)) ->
    total + Z.of_nat (length dat) < 2 ^ 64 ->
    exists t',
      cpy_loop realloc pool_alloc fuel full qcb total dat = Some (1, t')
      /\ stream t' = (concat (map data full) ++ data qcb) ++ dat
      /\ crypto_inv t'.
Proof.
  intros Hre Hpo. induction fuel as [|fuel IH];
    intros full qcb total dat Hfuel Hfull Hq Hlt Htot Hmax; [lia|].
  cbn [cpy_loop].
  destruct (Z.eqb_spec (Z.of_nat (length dat)) 0) as [E|E].
  - destruct dat; [|cbn in E; lia].
    eexists. split; [reflexivity|]. rewrite stream_app, app_nil_r.
    split; [reflexivity|].
    exists full, qcb. cbn [bufs crypto_sz]. rewrite stream_app. auto.
  - unfold buf_ok in Hq.
    assert (Hsz0 : 0 <= sz qcb) by lia.
    assert (HB : QUIC_CRYPTO_BUF_SZ = 16384) by reflexivity.
    rewrite HB in *.
    assert (Hroom : u64 (16384 - sz qcb) = 16384 - sz qcb)
      by (unfold u64; apply Z.mod_small; lia).
    rewrite Hroom.
    set (len := Z.of_nat (length dat)) in *.
    set (to_copy := if 16384 - sz qcb <? len then 16384 - sz qcb else len).
    assert (Htc : 1 <= to_copy <= len /\ to_copy <= 16384 - sz qcb).
    { subst to_copy. destruct (Z.ltb_spec (16384 - sz qcb) len); lia. }
    assert (Hu : u64 (sz qcb + to_copy) = sz qcb + to_copy)
      by (unfold u64; apply Z.mod_small; lia).
    assert (Hut : u64 (total + to_copy) = total + to_copy).
    { unfold u64. apply Z.mod_small. rewrite Htot in *. lia. }
    rewrite Hu, Hut. rewrite (Hre _), (Hpo _).
    assert (Hfn : length (firstn (Z.to_nat to_copy) dat) = Z.to_nat to_copy)
      by (rewrite length_firstn; subst len; lia).
    assert (Hsn : length (skipn (Z.to_nat to_copy) dat)
                  = (length dat - Z.to_nat to_copy)%nat)
      by apply length_skipn.
    pose proof (firstn_skipn (Z.to_nat to_copy) dat) as Hsplit.
    set (qcb' := {| data := data qcb ++ firstn (Z.to_nat to_copy) dat;
                    sz := sz qcb + to_copy |}).
    assert (Hq' : buf_ok qcb').
    { unfold buf_ok, qcb'. cbn [sz data]. rewrite length_app, Hfn. lia. }
    assert (Hsq : sz qcb' = sz qcb + to_copy) by reflexivity.
    destruct (Z.leb_spec 16384 (sz qcb')) as [Hfullb|Hnot].
    + destruct (IH (full ++ [qcb']) {| data := []; sz := 0 |}
                  (total + to_copy) (skipn (Z.to_nat to_copy) dat))
        as (t' & E1 & E2 & E3).
      * rewrite Hsn. lia.
      * apply Forall_app. split; [exact Hfull|].
        constructor; [|constructor]. split; [exact Hq'|]. lia.
      * reflexivity.
      * cbn [sz]. lia.
      * cbn [data]. rewrite map_app, concat_app. cbn [map concat data qcb'].
        rewrite !app_nil_r, !length_app, Hfn. rewrite Htot, length_app. lia.
      * rewrite Hsn. subst len. lia.
      * exists t'. split; [exact E1|]. split; [|exact E3].
        rewrite E2. cbn [data]. rewrite map_app, concat_app.
        cbn [map concat data qcb']. rewrite !app_nil_r.
        rewrite <- Hsplit at 3. now rewrite !app_assoc.
    + destruct (IH full qcb' (total + to_copy)
                  (skipn (Z.to_nat to_copy) dat))
        as (t' & E1 & E2 & E3).
      * rewrite Hsn. lia.
      * exact Hfull.
      * exact Hq'.
      * lia.
      * cbn [data qcb']. rewrite !length_app, Hfn. rewrite Htot, length_app.
        lia.
      * rewrite Hsn. subst len. lia.
      * exists t'. split; [exact E1|]. split; [|exact E3].
        rewrite E2. cbn [data qcb'].
        rewrite <- Hsplit at 3. now rewrite !app_assoc.
Qed.

Lemma removelast_last_app (full : list quic_crypto_buf)
    (qcb d : quic_crypto_buf) :
  removelast (full ++ [qcb]) = full /\ last (full ++ [qcb]) d = qcb.
Proof.
  split; [apply removelast_last|apply last_last].
Qed.

Lemma cpy_loop_stuck (fuel : nat) :
  forall (full : list quic_crypto_buf) (qcb : quic_crypto_buf)
         (total : Z) (dat : list Z),
    sz qcb = QUIC_CRYPTO_BUF_SZ -> dat <> [] ->
    realloc (Z.of_nat (length full) + 1 + 1) = false ->
    cpy_loop realloc pool_alloc fuel full qcb total dat = None.
Proof.
  induction fuel as [|fuel IH]; intros full qcb total dat Hsz Hd Hre;
    [reflexivity|].
  cbn [cpy_loop].
  destruct (Z.eqb_spec (Z.of_nat (length dat)) 0) as [E|E];
    [destruct dat; [congruence|cbn in E; lia]|].
  rewrite Hsz, Z.sub_diag. change (u64 0) with 0.
  destruct (Z.ltb_spec 0 (Z.of_nat (length dat))); [|lia].
  cbn [sz Z.to_nat skipn]. rewrite Z.add_0_r.
  change (u64 QUIC_CRYPTO_BUF_SZ) with QUIC_CRYPTO_BUF_SZ.
  rewrite Z.leb_refl, Hre.
  apply IH; [reflexivity|exact Hd|exact Hre].
Qed.

End CryptoBufFacts.

Section CryptoBufClaims.
Import Int CryptoBuf.
Variable realloc : Z -> bool.
Variable pool_alloc : Z -> bool.

Lemma quic_crypto_data_cpy_ok (fuel : nat) (t : tx_crypto)
    (dat : list Z) :
  (forall n, realloc n = true) -> (forall n, pool_alloc n = true) ->
  crypto_inv t -> crypto_sz t + Z.of_nat (length dat) < 2 ^ 64 ->
  (length dat < fuel)%nat ->
  exists t',
    quic_crypto_data_cpy realloc pool_alloc fuel t dat = Some (1, t')
    /\ stream t' = stream t ++ dat
    /\ crypto_sz t' = crypto_sz t + Z.of_nat (length dat)
    /\ crypto_inv t'.
Proof.
  intros Hre Hpo (full & qcb & Eb & Hfull & Hq & Hlt & Htot) Hmax Hfuel.
  unfold quic_crypto_data_cpy, cur_buf. rewrite Eb.
  destruct (removelast_last_app full qcb {| data := []; sz := 0 |}) as [-> ->].
  assert (Hst : stream t = concat (map data full) ++ data qcb).
  { unfold stream. rewrite Eb, map_app, concat_app. cbn.
    now rewrite app_nil_r. }
  destruct (cpy_loop_ok realloc pool_alloc fuel Hre Hpo full qcb
              (crypto_sz t) dat) as (t' & E1 & E2 & E3);
    try assumption.
  { rewrite Htot, Hst. reflexivity. }
  exists t'. split; [exact E1|]. split; [now rewrite E2, Hst|].
  split; [|exact E3].
  destruct E3 as (_ & _ & _ & _ & _ & _ & Ht').
  rewrite Ht', E2, <- Hst, length_app, Htot. lia.
Qed.

(** X8. [quic_crypto_data_cpy] when every allocation succeeds: the call
    returns 1 (the loop ends within one round for each byte), the buffers
    hold the stream they held followed by the new bytes, the total size
    grows by their number, and again every buffer but the last is full
    and the last is not. *)
Theorem quic_crypto_data_cpy_appends (fuel : nat) (t : tx_crypto)
    (dat : list Z) :
  (forall n, realloc n = true) -> (forall n, pool_alloc n = true) ->
  crypto_inv t -> crypto_sz t + Z.of_nat (length dat) < 2 ^ 64 ->
  (length dat < fuel)%nat ->
  exists t',
    quic_crypto_data_cpy realloc pool_alloc fuel t dat = Some (1, t')
    /\ stream t' = stream t ++ dat
    /\ crypto_sz t' = crypto_sz t + Z.of_nat (length dat)
    /\ crypto_inv t'.
Proof. exact (quic_crypto_data_cpy_ok fuel t dat). Qed.

(** X9. When the bytes do not fit in the current buffer and [realloc]
    cannot grow the array, [quic_crypto_data_cpy] does not return: the
    branch for this failure is empty, so the loop runs on with no room
    and data left, whatever the number of rounds. *)
Theorem quic_crypto_data_cpy_realloc_failure (t : tx_crypto)
    (dat : list Z) :
  crypto_inv t -> buf_room t < Z.of_nat (length dat) ->
  realloc (nb_buf t + 1) = false ->
  forall fuel, quic_crypto_data_cpy realloc pool_alloc fuel t dat = None.
Proof.
  intros (full & qcb & Eb & Hfull & Hq & Hlt & Htot) Hroom Hre fuel.
  unfold quic_crypto_data_cpy, buf_room, cur_buf, nb_buf in *.
  rewrite Eb in *.
  destruct (removelast_last_app full qcb {| data := []; sz := 0 |}) as [E1 E2].
  rewrite E1. rewrite E2 in *. rewrite length_app in Hre. cbn [length] in Hre.
  replace (Z.of_nat (length full + 1) + 1)
    with (Z.of_nat (length full) + 1 + 1) in Hre by lia.
  destruct fuel as [|fuel]; [reflexivity|].
  cbn [cpy_loop]. unfold buf_ok in Hq.
  assert (HB : QUIC_CRYPTO_BUF_SZ = 16384) by reflexivity.
  rewrite HB in *.
  destruct (Z.eqb_spec (Z.of_nat (length dat)) 0) as [E|E]; [lia|].
  assert (Hu : u64 (16384 - sz qcb) = 16384 - sz qcb)
    by (unfold u64; apply Z.mod_small; lia).
  rewrite Hu.
  destruct (Z.ltb_spec (16384 - sz qcb) (Z.of_nat (length dat))); [|lia].
  cbn [sz]. replace (sz qcb + (16384 - sz qcb)) with 16384 by lia.
  change (u64 16384) with 16384. change (16384 <=? 16384) with true.
  cbv iota. rewrite Hre.
  apply cpy_loop_stuck; [reflexivity| |exact Hre].
  intros Hnil. apply (f_equal (@length Z)) in Hnil.
  rewrite length_skipn in Hnil. cbn [length] in Hnil. lia.
Qed.

(** X10. When the bytes fill the current buffer and [pool_alloc] fails for
    the next one, [quic_crypto_data_cpy] returns 0, but what fitted in
    the current buffer stays stored and counted in the total size. *)
Theorem quic_crypto_data_cpy_pool_failure (fuel : nat) (t : tx_crypto)
    (dat : list Z) :
  crypto_inv t -> buf_room t <= Z.of_nat (length dat) ->
  crypto_sz t + buf_room t < 2 ^ 64 ->
  realloc (nb_buf t + 1) = true -> pool_alloc (nb_buf t) = false ->
  exists t',
    quic_crypto_data_cpy realloc pool_alloc (S fuel) t dat = Some (0, t')
    /\ stream t' = stream t ++ firstn (Z.to_nat (buf_room t)) dat
    /\ crypto_sz t' = crypto_sz t + buf_room t.
Proof.
  intros (full & qcb & Eb & Hfull & Hq & Hlt & Htot) Hroom Hmax Hre Hpo.
  assert (Hst : stream t = concat (map data full) ++ data qcb).
  { unfold stream. rewrite Eb, map_app, concat_app. cbn.
    now rewrite app_nil_r. }
  unfold quic_crypto_data_cpy, buf_room, cur_buf, nb_buf in *.
  rewrite Eb in *.
  destruct (removelast_last_app full qcb {| data := []; sz := 0 |}) as [E1 E2].
  rewrite E1. rewrite E2 in *. rewrite length_app in Hre, Hpo.
  cbn [length] in Hre, Hpo.
  replace (Z.of_nat (length full + 1) + 1)
    with (Z.of_nat (length full) + 1 + 1) in Hre by lia.
  replace (Z.of_nat (length full + 1))
    with (Z.of_nat (length full) + 1) in Hpo by lia.
  cbn [cpy_loop]. unfold buf_ok in Hq.
  assert (HB : QUIC_CRYPTO_BUF_SZ = 16384) by reflexivity.
  rewrite HB in *.
  destruct (Z.eqb_spec (Z.of_nat (length dat)) 0) as [E|E]; [lia|].
  assert (Hu : u64 (16384 - sz qcb) = 16384 - sz qcb)
    by (unfold u64; apply Z.mod_small; lia).
  rewrite Hu.
  assert (Htc : (if 16384 - sz qcb <? Z.of_nat (length dat)
                 then 16384 - sz qcb else Z.of_nat (length dat))
                = 16384 - sz qcb)
    by (destruct (Z.ltb_spec (16384 - sz qcb) (Z.of_nat (length dat))); lia).
  rewrite Htc. cbn [sz].
  replace (sz qcb + (16384 - sz qcb)) with 16384 by lia.
  change (u64 16384) with 16384. change (16384 <=? 16384) with true.
  cbv iota. rewrite Hre, Hpo.
  assert (Hut : u64 (crypto_sz t + (16384 - sz qcb))
                = crypto_sz t + (16384 - sz qcb))
    by (unfold u64; apply Z.mod_small; lia).
  rewrite Hut.
  eexists. split; [reflexivity|]. split; [|reflexivity].
  rewrite stream_app. cbn [data]. now rewrite Hst, app_assoc.
Qed.

End CryptoBufClaims.

Section CryptoBufScenario.
Import Int CryptoBuf.

Lemma quic_conn_enc_level_init_inv : crypto_inv quic_conn_enc_level_init.
Proof.
  exists [], {| data := []; sz := 0 |}.
  split; [reflexivity|]. split; [constructor|]. split; [reflexivity|].
  split; [cbn; unfold QUIC_CRYPTO_BUF_SZ; cbn; lia|reflexivity].
Qed.

Lemma quic_crypto_data_cpy_appends_witness :
  exists t',
    quic_crypto_data_cpy (fun _ => true) (fun _ => true) 4
      quic_conn_enc_level_init [1; 2; 3] = Some (1, t')
    /\ stream t' = [1; 2; 3].
Proof.
  destruct (quic_crypto_data_cpy_appends (fun _ => true) (fun _ => true) 4
              quic_conn_enc_level_init [1; 2; 3])
    as (t' & E1 & E2 & _).
  - reflexivity.
  - reflexivity.
  - exact quic_conn_enc_level_init_inv.
  - cbn. lia.
  - cbn. lia.
  - exists t'. split; [exact E1|exact E2].
Defined.

Lemma nearly_full_inv : crypto_inv nearly_full.
Proof.
  exists [], {| data := repeat 0 (Z.to_nat 16383); sz := 16383 |}.
  split; [reflexivity|]. split; [constructor|].
  split; [unfold buf_ok; cbn [sz data]; rewrite repeat_length; lia|].
  split; [cbn [sz]; unfold QUIC_CRYPTO_BUF_SZ; cbn; lia|].
  unfold stream. cbn [bufs map concat data crypto_sz nearly_full].
  rewrite app_nil_r, repeat_length. lia.
Qed.

Lemma quic_crypto_data_cpy_realloc_failure_witness :
  quic_crypto_data_cpy (fun _ => false) (fun _ => true) 1000 nearly_full [1; 2]
  = None.
Proof.
  apply (quic_crypto_data_cpy_realloc_failure (fun _ => false) (fun _ => true)
           nearly_full [1; 2]).
  - exact nearly_full_inv.
  - cbn. lia.
  - reflexivity.
Defined.

Lemma quic_crypto_data_cpy_pool_failure_witness :
  exists t',
    quic_crypto_data_cpy (fun _ => true) (fun _ => false) 1 nearly_full [1]
    = Some (0, t')
    /\ crypto_sz t' = 16384.
Proof.
  destruct (quic_crypto_data_cpy_pool_failure (fun _ => true) (fun _ => false)
              0 nearly_full [1]) as (t' & E1 & _ & E3).
  - exact nearly_full_inv.
  - cbn. lia.
  - cbn. lia.
  - reflexivity.
  - reflexivity.
  - exists t'. split; [exact E1|exact E3].
Defined.

End CryptoBufScenario.


(** ** Header protection: applying, then removing *)

Section HeaderProtectionFacts.
Import Int Bytes HeaderProtection HeaderProtectionTx.

Lemma set_byte_length (mem : list Z) :
  forall (i : nat) (v : Z), length (set_byte mem i v) = length mem.
Proof.
  induction mem as [|b mem IH]; intros [|i] v; cbn; auto.
Qed.








Section Loops.
Variables (mask : list Z) (pn : Z).
Hypothesis Hpn : 0 <= pn.

Lemma mask_pn_length (n : nat) :
  forall (i : Z) (mem : list Z),
    length (mask_pn n i mem mask pn) = length mem.
Proof.
  induction n as [|n IH]; intros i mem; [reflexivity|].
  cbn [mask_pn]. rewrite IH. apply set_byte_length.
Qed.





End Loops.


End HeaderProtectionFacts.

Section HeaderProtectionRoundTrip.
Import Int Bytes HeaderProtection HeaderProtectionTx.
Variable hp_mask : list Z -> option (list Z).


End HeaderProtectionRoundTrip.

Section HeaderProtectionScenario.
Import Int Bytes HeaderProtection HeaderProtectionTx Scenario.


End HeaderProtectionScenario.


(** ** ACK processing: what one range releases *)

Section AckRangeFacts.
Import Int AckRanges Xprt AckProps.

Lemma eb64_lookup_from_none (root : list quic_tx_crypto_frm) (x : Z) :
  forall before,
    ~ In x (map pn root) -> eb64_lookup_from pn before root x = None.
Proof.
  induction root as [|node root IH]; intros before H; cbn; [reflexivity|].
  cbn in H. destruct (Z.eqb_spec (pn node) x); [tauto|]. apply IH. tauto.
Qed.

Lemma eb64_lookup_from_some (root : list quic_tx_crypto_frm) (x : Z) :
  forall before,
    In x (map pn root) ->
    exists prefix node after,
      root = prefix ++ node :: after /\ pn node = x
      /\ eb64_lookup_from pn before root x
         = Some (rev_append prefix before, node, after).
Proof.
  induction root as [|node root IH]; intros before H; [contradiction|].
  cbn [eb64_lookup_from].
  destruct (Z.eqb_spec (pn node) x) as [E|E].
  - exists [], node, root.
    split; [reflexivity|split; [exact E|reflexivity]].
  - cbn in H. destruct H as [H|H]; [contradiction|].
    destruct (IH (node :: before) H) as (p & n & a & E1 & E2 & E3).
    exists (node :: p), n, a. rewrite E1. cbn [app rev_append].
    split; [reflexivity|split; [exact E2|]]. rewrite <- E1. exact E3.
Qed.

(** The walk on a list in descending order drops the descriptors from
    [smallest] up and charges their lengths. *)
Lemma ack_range_walk_filter (smallest : Z) (l : list quic_tx_crypto_frm) :
  forall ifcdata,
    StronglySorted (fun a b => pn b < pn a) l ->
    fst (ack_range_walk l ifcdata smallest)
    = filter (fun f => pn f <? smallest) l
    /\ u64 (snd (ack_range_walk l ifcdata smallest))
       = u64 (ifcdata
              - frms_total (filter (fun f => smallest <=? pn f) l)).
Proof.
  induction l as [|node l IH]; intros ifcdata Hs; cbn [ack_range_walk].
  - cbn. split; [reflexivity|]. now rewrite Z.sub_0_r.
  - inversion Hs as [|? ? Hs' Hall]; subst. cbn [filter].
    destruct (Z.leb_spec smallest (pn node)) as [H|H].
    + destruct (Z.ltb_spec (pn node) smallest); [lia|].
      destruct (IH (u64 (ifcdata - len node)) Hs') as [I1 I2].
      split; [exact I1|]. rewrite I2. cbn [frms_total]. unfold u64.
      rewrite Zminus_mod_idemp_l. f_equal. lia.
    + destruct (Z.ltb_spec (pn node) smallest); [|lia].
      cbn [fst snd].
      assert (Hf : forall f, In f l -> pn f < smallest).
      { rewrite Forall_forall in Hall. intros f Hin.
        specialize (Hall f Hin). lia. }
      split.
      * f_equal. symmetry. apply forallb_filter_id.
        apply forallb_forall. intros f Hin. apply Z.ltb_lt. auto.
      * f_equal. replace (filter (fun f => smallest <=? pn f) l) with
          (@nil quic_tx_crypto_frm); [cbn; lia|].
        symmetry. clear - Hf. induction l as [|f l IH]; [reflexivity|].
        cbn [filter]. destruct (Z.leb_spec smallest (pn f)).
        -- specialize (Hf f (or_introl eq_refl)). lia.
        -- apply IH. intros g Hg. apply Hf. now right.
Qed.

Lemma sorted_rev (l : list quic_tx_crypto_frm) :
  tree_sorted l -> StronglySorted (fun a b => pn b < pn a) (rev l).
Proof.
  unfold tree_sorted. induction 1 as [|a l Hs IH Ha]; cbn [rev];
    [constructor|].
  clear Hs. induction (rev l) as [|b r IHr] eqn:E.
  - cbn. constructor; constructor.
  - assert (Hin : forall x, In x (b :: r) -> pn a < pn x).
    { intros x Hx. rewrite <- E in Hx. apply in_rev in Hx.
      rewrite Forall_forall in Ha. auto. }
    clear E. revert Hin. induction IH as [|b' r' Hs' IH' Hb']; intros Hin.
    + cbn. constructor; constructor.
    + cbn [app]. constructor.
      * apply IH'. intros x Hx. apply Hin. now right.
      * apply Forall_app. split; [exact Hb'|].
        constructor; [|constructor]. apply Hin. now left.
Qed.

End AckRangeFacts.

Section AckRangeClaims.
Import Int AckRanges Xprt AckProps.

Lemma ack_range_walk_bound (smallest : Z) (l : list quic_tx_crypto_frm) :
  forall ifcdata,
    0 <= ifcdata < 2 ^ 64 ->
    0 <= snd (ack_range_walk l ifcdata smallest) < 2 ^ 64.
Proof.
  induction l as [|node l IH]; intros ifcdata H; cbn [ack_range_walk];
    [exact H|].
  destruct (smallest <=? pn node); [|exact H].
  apply IH. unfold u64. apply Z.mod_pos_bound. lia.
Qed.

(** What [qc_parse_ack_frm] does to the connection, seen through the
    fields this section is about. *)
Lemma qc_parse_ack_frm_no_range (ack : quic_ack) (c : quic_conn)
    (tel : quic_tls_enc_level) (pos : list Z) :
  ack_range_num ack = 0 ->
  0 <= first_ack_range ack <= largest_ack ack ->
  largest_ack ack <= tx_next_pn (qel_pktns c tel) < 2 ^ 63 ->
  let frms := tx_crypto_frms (enc_levels c tel) in
  let w := quic_ack_range_crypto_frames frms (crypto_in_flight c)
             (largest_ack ack) (largest_ack ack - first_ack_range ack) in
  let r := qc_parse_ack_frm ack c tel pos in
  let c' := snd (fst r) in
  fst (fst r) = 1 /\ snd r = pos
  /\ tx_crypto_frms (enc_levels c' tel)
     = rev_append (fst (fst w)) (snd (fst w))
  /\ tx_crypto_retransmit_frms (enc_levels c' tel)
     = tx_crypto_retransmit_frms (enc_levels c tel)
  /\ crypto_in_flight c' = snd w
  /\ retransmit c' = retransmit c.
Proof.
  intros Hn Hf Hl frms w r c'. subst r c' w frms.
  unfold qc_parse_ack_frm. rewrite Hn. change (Z.to_nat 0) with 0%nat.
  rewrite (u64_small (tx_next_pn (qel_pktns c tel))) by lia.
  destruct (Z.ltb_spec (tx_next_pn (qel_pktns c tel)) (largest_ack ack));
    [lia|].
  destruct (Z.ltb_spec (largest_ack ack) (first_ack_range ack)); [lia|].
  rewrite (u64_small (largest_ack ack - first_ack_range ack)) by lia.
  cbn [ack_loop as_frms as_crypto_in_flight as_retransmit_frms as_retransmit
       as_pos].
  destruct (quic_ack_range_crypto_frames _ _ _ _) as [[b a] i].
  cbn [fst snd as_frms as_crypto_in_flight as_retransmit_frms as_retransmit
       as_pos].
  change (1 =? 0) with false. cbv iota.
  destruct (u64 (rx_largest_acked_pn (qel_pktns c tel)) <? largest_ack ack);
    cbn [fst snd set_pktns set_retransmit set_crypto_in_flight set_enc_level
         enc_levels crypto_in_flight retransmit];
    rewrite enc_level_eqb_refl; cbn;
    repeat (split; [reflexivity|]); reflexivity.
Qed.

(** On a sorted tree that holds [largest],
    [quic_ack_range_crypto_frames] releases the descriptors of the range
    and no other. *)
Lemma quic_ack_range_crypto_frames_sorted (frms : list quic_tx_crypto_frm)
    (ifcdata largest smallest : Z) :
  tree_sorted frms -> In largest (map pn frms) -> 0 <= ifcdata < 2 ^ 64 ->
  let w := quic_ack_range_crypto_frames frms ifcdata largest smallest in
  rev_append (fst (fst w)) (snd (fst w))
  = filter (fun f => negb (acked smallest largest f)) frms
  /\ snd w
     = u64 (ifcdata - frms_total (filter (acked smallest largest) frms)).
Proof.
  intros Hs Hin Hc w. subst w.
  unfold quic_ack_range_crypto_frames, eb64_lookup.
  destruct (eb64_lookup_from_some frms largest [] Hin)
    as (p & n & a & E1 & E2 & E3).
  rewrite rev_append_rev, app_nil_r in E3. rewrite E3.
  assert (Hs' : tree_sorted (p ++ n :: a)) by (rewrite <- E1; exact Hs).
  assert (Hsp : tree_sorted (p ++ [n])).
  { unfold tree_sorted in *.
    replace (p ++ n :: a) with ((p ++ [n]) ++ a) in Hs'
      by (rewrite <- app_assoc; reflexivity).
    clear - Hs'. induction (p ++ [n]) as [|x l IH]; [constructor|].
    cbn [app] in Hs'. inversion Hs' as [|? ? H1 H2]; subst.
    constructor; [apply IH; exact H1|].
    apply Forall_app in H2. tauto. }
  assert (Ha : Forall (fun f => largest < pn f) a).
  { unfold tree_sorted in Hs'. clear - Hs' E2.
    induction p as [|x p IH]; cbn [app] in Hs'.
    - inversion Hs'; subst. assumption.
    - inversion Hs'; subst. apply IH. assumption. }
  assert (Hp : Forall (fun f => pn f <= largest) (p ++ [n])).
  { unfold tree_sorted in Hsp. clear - Hsp E2.
    induction p as [|x p IH]; cbn [app] in *.
    - constructor; [lia|constructor].
    - inversion Hsp as [|? ? H1 H2]; subst.
      constructor; [|apply IH; exact H1].
      apply Forall_app in H2. destruct H2 as [_ H2].
      inversion H2; subst. lia. }
  pose proof (sorted_rev (p ++ [n]) Hsp) as Hr.
  rewrite rev_app_distr in Hr. cbn [rev app] in Hr.
  destruct (ack_range_walk_filter smallest (n :: rev p) ifcdata Hr)
    as [W1 W2].
  pose proof (ack_range_walk_bound smallest (n :: rev p) ifcdata Hc) as Wb.
  destruct (ack_range_walk (n :: rev p) ifcdata smallest) as [b' i'] eqn:Ew.
  cbn [fst snd] in *.
  assert (Esplit : frms = (p ++ [n]) ++ a)
    by (rewrite E1, <- app_assoc; reflexivity).
  assert (Erev : n :: rev p = rev (p ++ [n]))
    by (rewrite rev_app_distr; reflexivity).
  split.
  - rewrite rev_append_rev, W1, Esplit, filter_app, Erev.
    rewrite <- filter_rev, rev_involutive.
    f_equal.
    + apply filter_ext_in. intros f Hf'. rewrite Forall_forall in Hp.
      specialize (Hp f Hf'). unfold acked.
      rewrite (proj2 (Z.leb_le (pn f) largest) Hp), andb_true_r.
      apply Z.ltb_antisym.
    + symmetry. apply forallb_filter_id. apply forallb_forall.
      intros f Hf'. rewrite Forall_forall in Ha. specialize (Ha f Hf').
      unfold acked. destruct (Z.leb_spec (pn f) largest); [lia|].
      now rewrite andb_false_r.
  - rewrite <- (u64_small i') by lia. rewrite W2. f_equal. f_equal.
    rewrite Esplit, filter_app, frms_total_app.
    replace (filter (acked smallest largest) a)
      with (@nil quic_tx_crypto_frm).
    + cbn [frms_total]. rewrite Z.add_0_r, Erev, filter_rev.
      assert (El : filter (fun f => smallest <=? pn f) (p ++ [n])
                   = filter (acked smallest largest) (p ++ [n])).
      { apply filter_ext_in. intros f Hf'.
        rewrite Forall_forall in Hp. specialize (Hp f Hf'). unfold acked.
        destruct (Z.leb_spec (pn f) largest); [|lia].
        now rewrite andb_true_r. }
      rewrite El. generalize (filter (acked smallest largest) (p ++ [n])).
      clear. intros l. induction l as [|x l IH]; [reflexivity|].
      cbn [rev]. rewrite frms_total_app. cbn [frms_total]. lia.
    + symmetry. clear - Ha. induction a as [|f a IH]; [reflexivity|].
      inversion Ha; subst. cbn [filter]. unfold acked at 1.
      destruct (Z.leb_spec (pn f) largest); [lia|].
      rewrite andb_false_r. apply IH. assumption.
Qed.

(** X12. An ACK frame with one range [smallest .. largest], the tree of
    sent CRYPTO frames sorted by packet number and holding a descriptor
    for [largest]: [qc_parse_ack_frm] returns 1, removes from the tree
    just the descriptors with a packet number in the range, takes their
    lengths off the in-flight count, and touches neither the
    retransmission tree nor the retransmission flag. *)
Theorem qc_parse_ack_frm_single_range (ack : quic_ack) (c : quic_conn)
    (tel : quic_tls_enc_level) (pos : list Z) :
  let frms := tx_crypto_frms (enc_levels c tel) in
  let largest := largest_ack ack in
  let smallest := largest - first_ack_range ack in
  tree_sorted frms ->
  ack_range_num ack = 0 ->
  0 <= first_ack_range ack <= largest ->
  largest <= tx_next_pn (qel_pktns c tel) < 2 ^ 63 ->
  0 <= crypto_in_flight c < 2 ^ 64 ->
  In largest (map pn frms) ->
  let r := qc_parse_ack_frm ack c tel pos in
  let c' := snd (fst r) in
  fst (fst r) = 1 /\ snd r = pos
  /\ tx_crypto_frms (enc_levels c' tel)
     = filter (fun f => negb (acked smallest largest f)) frms
  /\ tx_crypto_retransmit_frms (enc_levels c' tel)
     = tx_crypto_retransmit_frms (enc_levels c tel)
  /\ crypto_in_flight c'
     = u64 (crypto_in_flight c
            - frms_total (filter (acked smallest largest) frms))
  /\ retransmit c' = retransmit c.
Proof.
  intros frms largest smallest Hs Hn Hf Hl Hc Hin r c'.
  destruct (qc_parse_ack_frm_no_range ack c tel pos Hn Hf Hl)
    as (R1 & R2 & R3 & R4 & R5 & R6).
  destruct (quic_ack_range_crypto_frames_sorted frms (crypto_in_flight c)
              largest smallest Hs Hin Hc) as [F1 F2].
  fold frms largest smallest r c' in R1, R2, R3, R4, R5, R6.
  split; [exact R1|]. split; [exact R2|].
  split; [rewrite R3; exact F1|]. split; [exact R4|].
  split; [rewrite R5; exact F2|exact R6].
Qed.

(** X13. An ACK frame with one range whose largest packet number has no
    descriptor in the tree releases nothing, even if it covers packets
    that have one: [qc_parse_ack_frm] returns 1 with the tree, the
    in-flight count, the retransmission tree and the flag unchanged. *)
Theorem qc_parse_ack_frm_unknown_largest (ack : quic_ack) (c : quic_conn)
    (tel : quic_tls_enc_level) (pos : list Z) :
  let frms := tx_crypto_frms (enc_levels c tel) in
  ack_range_num ack = 0 ->
  0 <= first_ack_range ack <= largest_ack ack ->
  largest_ack ack <= tx_next_pn (qel_pktns c tel) < 2 ^ 63 ->
  ~ In (largest_ack ack) (map pn frms) ->
  let r := qc_parse_ack_frm ack c tel pos in
  let c' := snd (fst r) in
  fst (fst r) = 1
  /\ tx_crypto_frms (enc_levels c' tel) = frms
  /\ tx_crypto_retransmit_frms (enc_levels c' tel)
     = tx_crypto_retransmit_frms (enc_levels c tel)
  /\ crypto_in_flight c' = crypto_in_flight c
  /\ retransmit c' = retransmit c.
Proof.
  intros frms Hn Hf Hl Hin r c'.
  destruct (qc_parse_ack_frm_no_range ack c tel pos Hn Hf Hl)
    as (R1 & R2 & R3 & R4 & R5 & R6).
  fold frms r c' in R1, R2, R3, R4, R5, R6.
  unfold quic_ack_range_crypto_frames, eb64_lookup in R3, R5.
  rewrite (eb64_lookup_from_none frms (largest_ack ack) [] Hin) in R3, R5.
  cbn in R3, R5. auto.
Qed.

End AckRangeClaims.

Section AckRangeScenario.
Import Int AckRanges Xprt AckProps Scenario.

Lemma scenario_frms_sorted (o5 o6 o7 o8 : Z) :
  tree_sorted (scenario_frms o5 o6 o7 o8).
Proof.
  unfold tree_sorted, scenario_frms.
  repeat (constructor; [|repeat constructor; cbn; lia]). constructor.
Qed.

Lemma qc_parse_ack_frm_single_range_witness :
  tx_crypto_frms
    (enc_levels
       (snd (fst (qc_parse_ack_frm (mkAck 7 0 0 1) scenario_conn
                    QUIC_TLS_ENC_LEVEL_INITIAL [])))
       QUIC_TLS_ENC_LEVEL_INITIAL)
  = [mkFrm 5 0 100; mkFrm 8 300 100].
Proof.
  destruct (qc_parse_ack_frm_single_range (mkAck 7 0 0 1) scenario_conn
              QUIC_TLS_ENC_LEVEL_INITIAL []) as (_ & _ & H & _).
  - apply scenario_frms_sorted.
  - reflexivity.
  - cbn. lia.
  - cbn. lia.
  - cbn. lia.
  - cbn. tauto.
  - exact H.
Defined.

Lemma qc_parse_ack_frm_unknown_largest_witness :
  crypto_in_flight
    (snd (fst (qc_parse_ack_frm (mkAck 8 0 0 3)
                 (set_enc_level scenario_conn QUIC_TLS_ENC_LEVEL_INITIAL
                    (mkEncLevel [] 0 300
                       [mkFrm 5 0 100; mkFrm 6 100 100; mkFrm 7 200 100] []))
                 QUIC_TLS_ENC_LEVEL_INITIAL [])))
  = 400.
Proof.
  destruct (qc_parse_ack_frm_unknown_largest (mkAck 8 0 0 3)
              (set_enc_level scenario_conn QUIC_TLS_ENC_LEVEL_INITIAL
                 (mkEncLevel [] 0 300
                    [mkFrm 5 0 100; mkFrm 6 100 100; mkFrm 7 200 100] []))
              QUIC_TLS_ENC_LEVEL_INITIAL []) as (_ & _ & _ & H & _).
  - reflexivity.
  - cbn. lia.
  - cbn. lia.
  - cbn. intros [H|[H|[H|[]]]]; discriminate.
  - exact H.
Defined.

End AckRangeScenario.


(** ** The handshake packet builder: what a build commits *)

Section BuilderFacts.
Import Int AckRanges Xprt.
Context {ext : Collaborators}.

Hypothesis max_stream_data_size_le :
  forall sz ilen dlen,
    0 <= dlen -> 0 <= max_stream_data_size sz ilen dlen <= dlen.

(** What [qc_do_build_hdshk_pkt] hands to [qc_build_hdshk_pkt]: the
    connection differs by the flags of the level's packet-number space
    at most, and the offset has moved by the length of the CRYPTO frame
    of the packet, if it has one. *)
Lemma qc_do_build_hdshk_pkt_frames (buf : q_buf)
    (pkt_type : quic_packet_type) (off len0 : Z)
    (tel : quic_tls_enc_level) (c : quic_conn) :
  0 <= crypto_in_flight c <= QUIC_CRYPTO_IN_FLIGHT_MAX ->
  0 <= off < 2 ^ 64 -> 0 <= len0 ->
  let r := qc_do_build_hdshk_pkt buf pkt_type off len0 tel c in
  enc_levels (snd r) = enc_levels c
  /\ crypto_in_flight (snd r) = crypto_in_flight c
  /\ retransmit (snd r) = retransmit c
  /\ ssl (snd r) = ssl c
  /\ (forall n, tx_next_pn (pktns (snd r) n) = tx_next_pn (pktns c n))
  /\ (hp_offset (fst r) = off
      \/ exists L,
           0 < L <= QUIC_CRYPTO_IN_FLIGHT_MAX - crypto_in_flight c
           /\ hp_offset (fst r) = u64 (off + L)
           /\ In (TX_FT_CRYPTO off L) (hp_frames (fst r))).
Proof.
  intros Hc Ho Hl.
  pose proof (clamp_crypto_len_bound c len0 Hc Hl) as Hclamp.
  cbv beta zeta delta [qc_do_build_hdshk_pkt].
  set (crypto_len := if len0 =? 0 then 0 else clamp_crypto_len c len0).
  assert (Hcl : 0 <= crypto_len
                <= QUIC_CRYPTO_IN_FLIGHT_MAX - crypto_in_flight c)
    by (subst crypto_len; destruct (len0 =? 0); lia).
  clearbody crypto_len.
  assert (Hns : forall n,
             tx_next_pn
               (pktns (set_pktns c (quic_tls_pktns_of tel)
                         (clear_ack_required (qel_pktns c tel))) n)
             = tx_next_pn (pktns c n)).
  { intros n. cbn [pktns set_pktns]. unfold qel_pktns.
    destruct (pktns_eqb n (quic_tls_pktns_of tel)) eqn:E; [|reflexivity].
    assert (n = quic_tls_pktns_of tel)
      by (destruct n, (quic_tls_pktns_of tel); cbn in E; congruence).
    subst n. reflexivity. }
  destruct (negb (len0 =? 0) && (crypto_len =? 0));
    [cbn [fst snd hdshk_err hp_offset]; repeat (split; [reflexivity|]); left; reflexivity|].
  destruct (q_end buf - q_pos buf <? _);
    [cbn [fst snd hdshk_err hp_offset]; repeat (split; [reflexivity|]); left; reflexivity|].
  destruct (ack_required (qel_pktns c tel)) eqn:A; cbn [andb].
  - destruct (quic_do_build_ack_frame _ =? 0);
      [cbn [fst snd hdshk_err hp_offset]; repeat (split; [reflexivity|]); left; reflexivity|].
    destruct (if crypto_len =? 0 then Some 0 else _);
      [|cbn [fst snd hdshk_err hp_offset set_pktns enc_levels
             crypto_in_flight retransmit ssl];
        repeat (split; [reflexivity|]); split; [exact Hns|left; reflexivity]].
    destruct (if _ =? 0 then Some 0 else _);
      [|cbn [fst snd hdshk_err hp_offset set_pktns enc_levels
             crypto_in_flight retransmit ssl];
        repeat (split; [reflexivity|]); split; [exact Hns|left; reflexivity]].
    cbn [fst snd hp_offset hp_frames set_pktns enc_levels crypto_in_flight
         retransmit ssl].
    repeat (split; [reflexivity|]). split; [exact Hns|].
    destruct (Z.eqb_spec crypto_len 0); [left; reflexivity|].
    match goal with |- context [max_stream_data_size ?a ?b ?d] =>
      pose proof (max_stream_data_size_le a b d ltac:(lia)) as HL;
      set (L := max_stream_data_size a b d) in * end.
    destruct (Z.eq_dec L 0) as [E0|E0].
    + left. rewrite E0, Z.add_0_r. apply u64_small. lia.
    + right. exists L. split; [lia|]. split; [reflexivity|].
      apply in_or_app. right. apply in_or_app. left. now left.
  - destruct (if crypto_len =? 0 then Some 0 else _);
      [|cbn [fst snd hdshk_err hp_offset]; repeat (split; [reflexivity|]); left; reflexivity].
    destruct (if _ =? 0 then Some 0 else _);
      [|cbn [fst snd hdshk_err hp_offset]; repeat (split; [reflexivity|]); left; reflexivity].
    cbn [fst snd hp_offset hp_frames].
    repeat (split; [reflexivity|]).
    destruct (Z.eqb_spec crypto_len 0); [left; reflexivity|].
    match goal with |- context [max_stream_data_size ?a ?b ?d] =>
      pose proof (max_stream_data_size_le a b d ltac:(lia)) as HL;
      set (L := max_stream_data_size a b d) in * end.
    destruct (Z.eq_dec L 0) as [E0|E0].
    + left. rewrite E0, Z.add_0_r. apply u64_small. lia.
    + right. exists L. split; [lia|]. split; [reflexivity|].
      apply in_or_app. right. apply in_or_app. left. now left.
Qed.

(** The packet-number space of the level after its [tx.next_pn] is
    consumed. *)
Lemma qel_pktns_set_next_pn (c : quic_conn) (tel : quic_tls_enc_level)
    (v : Z) :
  tx_next_pn
    (qel_pktns (set_pktns c (quic_tls_pktns_of tel)
                  (set_tx_next_pn (qel_pktns c tel) v)) tel) = v.
Proof. unfold qel_pktns. cbn. now rewrite pktns_eqb_refl. Qed.

(** X14. A failed [qc_build_hdshk_pkt] (result at most 0) leaves the
    CRYPTO offset, the encryption levels with their trees, the in-flight
    count, the retransmission flag, the TLS state and the byte count of
    the buffer as they were; unless the result is -2 (the descriptor
    could not be allocated) the buffer and every next packet number are
    unchanged too. *)
Theorem qc_build_hdshk_pkt_failure (buf : q_buf) (c : quic_conn)
    (pkt_type : quic_packet_type) (off len0 : Z)
    (tel : quic_tls_enc_level) :
  0 <= crypto_in_flight c <= QUIC_CRYPTO_IN_FLIGHT_MAX ->
  0 <= off < 2 ^ 64 -> 0 <= len0 ->
  let r := qc_build_hdshk_pkt buf c pkt_type off len0 tel in
  let ret := fst (fst (fst r)) in
  let buf' := snd (fst (fst r)) in
  let c' := snd (fst r) in
  ret <= 0 ->
  snd r = off
  /\ enc_levels c' = enc_levels c
  /\ crypto_in_flight c' = crypto_in_flight c
  /\ retransmit c' = retransmit c
  /\ ssl c' = ssl c
  /\ q_data buf' = q_data buf
  /\ (ret <> -2 ->
      buf' = buf
      /\ forall n, tx_next_pn (pktns c' n) = tx_next_pn (pktns c n)).
Proof.
  intros Hc Ho Hl.
  pose proof (qc_do_build_hdshk_pkt_frames buf pkt_type off len0 tel c
                Hc Ho Hl) as D.
  cbv beta zeta delta [qc_build_hdshk_pkt].
  destruct (qc_do_build_hdshk_pkt buf pkt_type off len0 tel c) as [pkt c1].
  cbn [fst snd] in D. destruct D as (De & Dc & Dr & Ds & Dn & Doff).
  destruct (Z.leb_spec (hp_ret pkt) 0) as [Hle|Hgt];
    [cbn [fst snd]; intros _; do 6 (split; [assumption || reflexivity|]);
     intros _; split; [reflexivity|exact Dn]|].
  destruct (negb (quic_packet_encrypt _ _ _));
    [cbn [fst snd]; intros _; do 6 (split; [assumption || reflexivity|]);
     intros H; contradiction|].
  destruct (negb (quic_apply_header_protection _));
    [cbn [fst snd]; intros _; do 6 (split; [assumption || reflexivity|]);
     intros H; contradiction|].
  destruct (u64 (hp_offset pkt - off) =? 0);
    [cbn [fst snd]; unfold QUIC_TLS_TAG_LEN; intros H; lia|].
  destruct (negb (pool_alloc_tx_crypto_frm _));
    [|cbn [fst snd]; unfold QUIC_TLS_TAG_LEN; intros H; lia].
  cbn [fst snd q_data set_pktns enc_levels crypto_in_flight retransmit ssl].
  intros _. do 6 (split; [assumption || reflexivity|]).
  intros H; contradiction.
Qed.

(** X15. A successful [qc_build_hdshk_pkt] (result above 0) moves the
    write position and the byte count of the buffer on by the result,
    takes the next packet number of the space and records a packet with
    it.  Either the packet carries no CRYPTO data and the offset, the
    trees and the in-flight count stay, or it carries [L > 0] bytes from
    the offset: then the offset and the in-flight count grow by [L] and
    the tree gets a descriptor with this packet number, offset and
    length. *)
Theorem qc_build_hdshk_pkt_success (buf : q_buf) (c : quic_conn)
    (pkt_type : quic_packet_type) (off len0 : Z)
    (tel : quic_tls_enc_level) :
  0 <= crypto_in_flight c <= QUIC_CRYPTO_IN_FLIGHT_MAX ->
  0 <= off < 2 ^ 64 -> 0 <= len0 ->
  let r := qc_build_hdshk_pkt buf c pkt_type off len0 tel in
  let ret := fst (fst (fst r)) in
  let buf' := snd (fst (fst r)) in
  let c' := snd (fst r) in
  let next_pn := s64 (tx_next_pn (qel_pktns c tel) + 1) in
  0 < ret ->
  q_pos buf' = q_pos buf + ret
  /\ q_data buf' = u64 (q_data buf + ret)
  /\ tx_next_pn (qel_pktns c' tel) = next_pn
  /\ exists frames,
       q_pkts buf'
       = {| tp_type := pkt_type; tp_pn := next_pn; tp_frames := frames |}
         :: q_pkts buf
       /\ ((snd r = off
            /\ enc_levels c' = enc_levels c
            /\ crypto_in_flight c' = crypto_in_flight c)
           \/ exists L,
                0 < L
                /\ In (TX_FT_CRYPTO off L) frames
                /\ snd r = u64 (off + L)
                /\ tx_crypto_frms (enc_levels c' tel)
                   = eb64_insert pn (tx_crypto_frms (enc_levels c tel))
                       {| pn := u64 next_pn; offset := off; len := L |}
                /\ crypto_in_flight c' = crypto_in_flight c + L).
Proof.
  intros Hc Ho Hl.
  pose proof (qc_do_build_hdshk_pkt_frames buf pkt_type off len0 tel c
                Hc Ho Hl) as D.
  cbv beta zeta delta [qc_build_hdshk_pkt].
  destruct (qc_do_build_hdshk_pkt buf pkt_type off len0 tel c) as [pkt c1].
  cbn [fst snd] in D. destruct D as (De & Dc & Dr & Ds & Dn & Doff).
  assert (Hn1 : tx_next_pn (qel_pktns c1 tel) = tx_next_pn (qel_pktns c tel))
    by (unfold qel_pktns; apply Dn).
  destruct (Z.leb_spec (hp_ret pkt) 0) as [Hle|Hgt];
    [cbn [fst snd]; unfold QUIC_TLS_TAG_LEN; intros H; lia|].
  destruct (negb (quic_packet_encrypt _ _ _));
    [cbn [fst snd]; unfold QUIC_TLS_TAG_LEN; intros H; lia|].
  destruct (negb (quic_apply_header_protection _));
    [cbn [fst snd]; unfold QUIC_TLS_TAG_LEN; intros H; lia|].
  rewrite !Hn1.
  set (npn := s64 (tx_next_pn (qel_pktns c tel) + 1)).
  set (c2 := set_pktns c1 (quic_tls_pktns_of tel)
               (set_tx_next_pn (qel_pktns c1 tel) npn)).
  assert (Hn2 : tx_next_pn (qel_pktns c2 tel) = npn)
    by (apply qel_pktns_set_next_pn).
  unfold QUIC_CRYPTO_IN_FLIGHT_MAX in *.
  destruct Doff as [Doff|(L & HL & Doff & Hin)].
  - rewrite Doff, Z.sub_diag. change (u64 0 =? 0) with true. cbv iota.
    cbn [fst snd q_pos q_data q_pkts]. intros _.
    split; [lia|]. split; [reflexivity|]. split; [exact Hn2|].
    eexists. split; [reflexivity|]. left.
    split; [reflexivity|]. split; [exact De|exact Dc].
  - rewrite Doff, u64_sub_add by lia.
    destruct (Z.eqb_spec L 0); [lia|].
    destruct (negb (pool_alloc_tx_crypto_frm _));
      [cbn [fst snd]; unfold QUIC_TLS_TAG_LEN; intros H; lia|].
    cbn [fst snd q_pos q_data q_pkts len]. intros _.
    split; [lia|]. split; [reflexivity|].
    split.
    { unfold qel_pktns in *. cbn [pktns set_crypto_in_flight set_enc_level].
      exact Hn2. }
    eexists. split; [reflexivity|]. right. exists L.
    split; [lia|]. split; [exact Hin|]. split; [reflexivity|].
    split.
    + cbn [enc_levels set_crypto_in_flight set_enc_level].
      rewrite enc_level_eqb_refl. cbn [tx_crypto_frms set_tx_crypto_frms].
      cbn [tx_next_pn set_tx_next_pn]. subst c2. cbn [enc_levels set_pktns].
      rewrite De. reflexivity.
    + cbn [crypto_in_flight set_crypto_in_flight set_enc_level].
      subst c2. cbn [crypto_in_flight set_pktns]. rewrite Dc.
      apply u64_small. lia.
Qed.

End BuilderFacts.

Section BuilderScenario.
Import Int AckRanges Xprt Scenario.

Lemma qc_build_hdshk_pkt_failure_witness :
  snd (qc_build_hdshk_pkt (ext := room_bound_collab)
         (wbuf_with_room 30) ack_pending_conn
         QUIC_PACKET_TYPE_HANDSHAKE 0 100 QUIC_TLS_ENC_LEVEL_HANDSHAKE) = 0.
Proof.
  refine (proj1 (qc_build_hdshk_pkt_failure (ext := room_bound_collab)
                   room_bound_collab_max_stream_data_size
                   (wbuf_with_room 30) ack_pending_conn
                   QUIC_PACKET_TYPE_HANDSHAKE 0 100
                   QUIC_TLS_ENC_LEVEL_HANDSHAKE _ _ _ _)).
  - unfold QUIC_CRYPTO_IN_FLIGHT_MAX. cbn. lia.
  - lia.
  - lia.
  - vm_compute. discriminate.
Defined.

Lemma qc_build_hdshk_pkt_success_witness :
  q_pos (snd (fst (fst (qc_build_hdshk_pkt (ext := room_bound_collab)
                          (wbuf_with_room 1252) ack_pending_conn
                          QUIC_PACKET_TYPE_HANDSHAKE 0 100
                          QUIC_TLS_ENC_LEVEL_HANDSHAKE))))
  = q_pos (wbuf_with_room 1252)
    + fst (fst (fst (qc_build_hdshk_pkt (ext := room_bound_collab)
                       (wbuf_with_room 1252) ack_pending_conn
                       QUIC_PACKET_TYPE_HANDSHAKE 0 100
                       QUIC_TLS_ENC_LEVEL_HANDSHAKE))).
Proof.
  refine (proj1 (qc_build_hdshk_pkt_success (ext := room_bound_collab)
                   room_bound_collab_max_stream_data_size
                   (wbuf_with_room 1252) ack_pending_conn
                   QUIC_PACKET_TYPE_HANDSHAKE 0 100
                   QUIC_TLS_ENC_LEVEL_HANDSHAKE _ _ _ _)).
  - unfold QUIC_CRYPTO_IN_FLIGHT_MAX. cbn. lia.
  - lia.
  - lia.
  - vm_compute. reflexivity.
Defined.

End BuilderScenario.



(** ** The RX loop: what gets acknowledged *)

Section RxAckFacts.
Import Int AckRanges Xprt RxProps.
Context {ext : Collaborators}.

Lemma parse_apkt_frms_rx_pn (frms : list (option quic_frame)) :
  forall (qpkt : quic_rx_packet) (c : quic_conn),
    rx_pn (snd (fst (parse_apkt_frms frms qpkt c))) = rx_pn qpkt.
Proof.
  induction frms as [|[frm|] frms IH]; intros qpkt c;
    cbn [parse_apkt_frms]; try reflexivity.
  destruct frm; try reflexivity; try apply IH;
    try exact (IH (set_ack_eliciting qpkt) c).
  - destruct frms; [apply IH|reflexivity].
  - destruct (qc_parse_ack_frm ack c QUIC_TLS_ENC_LEVEL_APP ranges)
      as [[ret c'] pos'].
    destruct (ret =? 0); [reflexivity|apply IH].
Qed.

Lemma parse_hdshk_frms_rx_pn (tel : quic_tls_enc_level)
    (frms : list (option quic_frame)) :
  forall (qpkt : quic_rx_packet) (c : quic_conn),
    rx_pn (snd (fst (parse_hdshk_frms frms qpkt c tel))) = rx_pn qpkt.
Proof.
  induction frms as [|[frm|] frms IH]; intros qpkt c;
    cbn [parse_hdshk_frms]; try reflexivity.
  destruct frm; try reflexivity; try apply IH.
  - exact (IH (set_ack_eliciting qpkt) c).
  - destruct (qc_parse_ack_frm ack c tel ranges) as [[ret c'] pos'].
    destruct (ret =? 0); [reflexivity|apply IH].
  - match goal with |- context [set_crypto qpkt ?o ?a ?d] =>
      exact (IH (set_crypto qpkt o a d) c) end.
Qed.

Lemma deliver_crypto_pktns (pkt : quic_rx_packet) (c c' : quic_conn)
    (tel : quic_tls_enc_level) :
  deliver_crypto pkt c tel = Delivered c' -> pktns c' = pktns c.
Proof.
  unfold deliver_crypto.
  destruct (crypto_len pkt =? 0); [discriminate|].
  destruct (crypto_off pkt =? _); [|discriminate].
  destruct (SSL_provide_quic_data _ _); [|discriminate].
  intros H. inversion H. reflexivity.
Qed.

Lemma same_rx_ranges (c c' : quic_conn) (tel : quic_tls_enc_level) :
  same_rx c c' -> ack_ranges_of c' tel = ack_ranges_of c tel.
Proof.
  intros (_ & _ & N). unfold ack_ranges_of, qel_pktns.
  destruct (N (quic_tls_pktns_of tel)) as (_ & _ & _ & -> & _). reflexivity.
Qed.

Lemma account_rx_pkt_ranges (pkt : quic_rx_packet) (c : quic_conn)
    (tel : quic_tls_enc_level) :
  ack_ranges_of (set_pktns c (quic_tls_pktns_of tel)
            (account_rx_pkt pkt (qel_pktns c tel))) tel
  = lst (snd (quic_update_ack_ranges_list (rx_ack_ranges (qel_pktns c tel))
                (s64 (rx_pn pkt)))).
Proof.
  unfold ack_ranges_of, qel_pktns. cbn [pktns set_pktns].
  rewrite pktns_eqb_refl. reflexivity.
Qed.

Lemma treat_rx_loop_acks (tel : quic_tls_enc_level)
    (pkts : list quic_rx_packet) :
  forall (kept : list quic_rx_packet) (c : quic_conn),
    ranges_ok (ack_ranges_of c tel) ->
    Forall (fun p => 0 <= rx_pn p < 2 ^ 62) pkts ->
    let c' := snd (treat_rx_loop pkts kept c tel) in
    ranges_ok (ack_ranges_of c' tel)
    /\ (forall x, covers (ack_ranges_of c tel) x -> covers (ack_ranges_of c' tel) x)
    /\ (forall x, covers (ack_ranges_of c' tel) x ->
                  covers (ack_ranges_of c tel) x \/ received pkts x).
Proof.
  induction pkts as [|pkt pkts IH]; intros kept c Hok Hp.
  - cbn. auto.
  - apply Forall_cons_iff in Hp. destruct Hp as [Hpkt Hpkts].
    assert (Hmono : forall x, received pkts x -> received (pkt :: pkts) x).
    { intros x (p & Hin & Hx). exists p. split; [now right|exact Hx]. }
    assert (Hskip : forall kept0 c0,
               ack_ranges_of c0 tel = ack_ranges_of c tel ->
               let c' := snd (treat_rx_loop pkts kept0 c0 tel) in
               ranges_ok (ack_ranges_of c' tel)
               /\ (forall x, covers (ack_ranges_of c tel) x ->
                             covers (ack_ranges_of c' tel) x)
               /\ (forall x, covers (ack_ranges_of c' tel) x ->
                             covers (ack_ranges_of c tel) x
                             \/ received (pkt :: pkts) x)).
    { intros kept0 c0 E.
      destruct (IH kept0 c0) as (I1 & I2 & I3);
        [rewrite E; exact Hok|exact Hpkts|].
      rewrite E in I2, I3. split; [exact I1|]. split; [exact I2|].
      intros x Hx. destruct (I3 x Hx); auto. }
    assert (Hfin : forall (p : quic_rx_packet) (c0 : quic_conn),
               ranges_ok (ack_ranges_of c0 tel) ->
               (forall x, covers (ack_ranges_of c tel) x -> covers (ack_ranges_of c0 tel) x) ->
               (forall x, covers (ack_ranges_of c0 tel) x ->
                          covers (ack_ranges_of c tel) x
                          \/ received (pkt :: pkts) x) ->
               let r := match deliver_crypto p c0 tel with
                        | Delivered c' => treat_rx_loop pkts kept c' tel
                        | Retained => treat_rx_loop pkts (p :: kept) c0 tel
                        | Freed => treat_rx_loop pkts kept c0 tel
                        | ProvideError => (0, rev_append kept (p :: pkts), c0)
                        end in
               ranges_ok (ack_ranges_of (snd r) tel)
               /\ (forall x, covers (ack_ranges_of c tel) x ->
                             covers (ack_ranges_of (snd r) tel) x)
               /\ (forall x, covers (ack_ranges_of (snd r) tel) x ->
                             covers (ack_ranges_of c tel) x
                             \/ received (pkt :: pkts) x)).
    { intros p c0 Hok0 H1 H2.
      assert (Hgo : forall kept0 c1,
                 ack_ranges_of c1 tel = ack_ranges_of c0 tel ->
                 let c' := snd (treat_rx_loop pkts kept0 c1 tel) in
                 ranges_ok (ack_ranges_of c' tel)
                 /\ (forall x, covers (ack_ranges_of c tel) x ->
                               covers (ack_ranges_of c' tel) x)
                 /\ (forall x, covers (ack_ranges_of c' tel) x ->
                               covers (ack_ranges_of c tel) x
                               \/ received (pkt :: pkts) x)).
      { intros kept0 c1 E.
        destruct (IH kept0 c1) as (I1 & I2 & I3);
          [rewrite E; exact Hok0|exact Hpkts|].
        rewrite E in I2, I3. split; [exact I1|]. split.
        - intros x Hx. apply I2, H1, Hx.
        - intros x Hx. destruct (I3 x Hx) as [Hc|Hr]; [apply H2, Hc|].
          right. apply Hmono, Hr. }
      destruct (deliver_crypto p c0 tel) as [c'| | |] eqn:D; cbv zeta.
      - apply Hgo. unfold ack_ranges_of, qel_pktns.
        now rewrite (deliver_crypto_pktns p c0 c' tel D).
      - apply Hgo. reflexivity.
      - apply Hgo. reflexivity.
      - cbn [snd]. auto. }
    cbn [treat_rx_loop].
    destruct (out_of_order pkt) eqn:Eo;
      [apply Hfin; [exact Hok|auto|auto]|].
    destruct (decrypts pkt) eqn:Ed; cbn [negb];
      [|apply Hskip; reflexivity].
    assert (Hacc : forall (pkt' : quic_rx_packet) (c1 : quic_conn),
               same_rx c c1 -> rx_pn pkt' = rx_pn pkt ->
               let c2 := set_pktns c1 (quic_tls_pktns_of tel)
                           (account_rx_pkt pkt' (qel_pktns c1 tel)) in
               ranges_ok (ack_ranges_of c2 tel)
               /\ (forall x, covers (ack_ranges_of c tel) x ->
                             covers (ack_ranges_of c2 tel) x)
               /\ (forall x, covers (ack_ranges_of c2 tel) x ->
                             covers (ack_ranges_of c tel) x
                             \/ received (pkt :: pkts) x)).
    { intros pkt' c1 S Hpn. cbv zeta.
      rewrite account_rx_pkt_ranges, Hpn, s64_small by lia.
      pose proof (same_rx_ranges c c1 tel S) as E. unfold ack_ranges_of in E.
      destruct (quic_update_ack_ranges_list_ok
                  (rx_ack_ranges (qel_pktns c1 tel)) (rx_pn pkt))
        as [U1 U2]; [rewrite E; exact Hok|lia|].
      split; [exact U1|]. split.
      - intros x Hx. apply U2. left. rewrite E. exact Hx.
      - intros x Hx. apply U2 in Hx. destruct Hx as [Hx| ->].
        + left. rewrite E in Hx. exact Hx.
        + right. exists pkt. split; [now left|]. auto. }
    destruct (long_header pkt).
    + unfold qc_parse_hdshk_pkt.
      pose proof (parse_hdshk_frms_same_rx tel (payload pkt) pkt c) as S.
      pose proof (parse_hdshk_frms_rx_pn tel (payload pkt) pkt c) as Hpn.
      destruct (parse_hdshk_frms (payload pkt) pkt c tel) as [[ret pkt'] c1].
      cbn [fst snd] in S, Hpn.
      destruct (ret =? 0).
      * apply Hskip. apply same_rx_ranges. exact S.
      * destruct (Hacc pkt' c1 S Hpn) as (A1 & A2 & A3).
        apply Hfin; assumption.
    + unfold qc_parse_apkt.
      pose proof (parse_apkt_frms_props (payload pkt) pkt c) as S.
      pose proof (parse_apkt_frms_rx_pn (payload pkt) pkt c) as Hpn.
      destruct (parse_apkt_frms (payload pkt) pkt c) as [[ret pkt'] c1].
      cbn [fst snd] in S, Hpn. destruct S as (S & _).
      destruct (ret =? 0).
      * apply Hskip. apply same_rx_ranges. exact S.
      * destruct (Hacc pkt' c1 S Hpn) as (A1 & A2 & A3).
        apply Hfin; assumption.
Qed.

(** X16. [qc_treat_rx_pkts] and the acknowledgement ranges of the level's
    packet-number space: they stay well formed, no packet number that
    was covered is lost, and a packet number that becomes covered is
    that of a packet of the receive tree that was seen for the first
    time and decrypted. *)
Theorem qc_treat_rx_pkts_acks (c : quic_conn) (tel : quic_tls_enc_level) :
  ranges_ok (ack_ranges_of c tel) ->
  Forall (fun p => 0 <= rx_pn p < 2 ^ 62) (rx_qpkts (enc_levels c tel)) ->
  let c' := snd (qc_treat_rx_pkts c tel) in
  ranges_ok (ack_ranges_of c' tel)
  /\ (forall x, covers (ack_ranges_of c tel) x -> covers (ack_ranges_of c' tel) x)
  /\ (forall x, covers (ack_ranges_of c' tel) x ->
                covers (ack_ranges_of c tel) x
                \/ received (rx_qpkts (enc_levels c tel)) x).
Proof.
  intros Hok Hp. unfold qc_treat_rx_pkts.
  pose proof (treat_rx_loop_acks tel (rx_qpkts (enc_levels c tel)) [] c
                Hok Hp) as H.
  destruct (treat_rx_loop _ _ _ _) as [[ret qpkts] c1].
  cbn [fst snd] in *. exact H.
Qed.

End RxAckFacts.

Section RxAckScenario.
Import Int AckRanges Xprt RxProps Scenario.

Lemma qc_treat_rx_pkts_acks_witness :
  ranges_ok
    (ack_ranges_of
       (snd (qc_treat_rx_pkts (ext := room_bound_collab)
               (conn_with_rx QUIC_TLS_ENC_LEVEL_INITIAL
                  (rx_packet 3 true [Some QUIC_FT_PING]))
               QUIC_TLS_ENC_LEVEL_INITIAL))
       QUIC_TLS_ENC_LEVEL_INITIAL).
Proof.
  refine (proj1 (qc_treat_rx_pkts_acks (ext := room_bound_collab)
                   (conn_with_rx QUIC_TLS_ENC_LEVEL_INITIAL
                      (rx_packet 3 true [Some QUIC_FT_PING]))
                   QUIC_TLS_ENC_LEVEL_INITIAL _ _)).
  - apply ranges_ok_nil.
  - cbn. repeat constructor; cbn; lia.
Defined.

End RxAckScenario.

(** ** Application-level packets after the handshake *)

Section TreatPacketsClaims.
Import Int AckRanges Xprt RxProps TreatPackets.

Lemma treat_packets_loop_tree (tel : quic_tls_enc_level)
    (pkts : list quic_rx_packet) :
  forall (kept : list quic_rx_packet) (c : quic_conn),
    fst (treat_packets_loop pkts kept c tel) = (1, rev kept).
Proof.
  induction pkts as [|qpkt pkts IH]; intros kept c;
    cbn [treat_packets_loop]; [reflexivity|].
  destruct (decrypts qpkt); cbn [negb]; [|apply IH].
  destruct (qc_parse_apkt qpkt c) as [[ret qpkt'] c'].
  destruct (ret =? 0); apply IH.
Qed.

Lemma treat_packets_loop_rx (tel : quic_tls_enc_level)
    (pkts : list quic_rx_packet) :
  forall (kept : list quic_rx_packet) (c : quic_conn),
    let c' := snd (treat_packets_loop pkts kept c tel) in
    ssl c' = ssl c
    /\ (forall l,
          rx_crypto_offset (enc_levels c' l) = rx_crypto_offset (enc_levels c l)
          /\ rx_qpkts (enc_levels c' l) = rx_qpkts (enc_levels c l))
    /\ (forall n,
          rx_largest_pn (pktns c' n) = rx_largest_pn (pktns c n)
          /\ tx_next_pn (pktns c' n) = tx_next_pn (pktns c n)).
Proof.
  induction pkts as [|qpkt pkts IH]; intros kept c;
    cbn [treat_packets_loop].
  - cbv zeta. cbn [snd]. auto.
  - destruct (decrypts qpkt); cbn [negb]; [|apply IH].
    unfold qc_parse_apkt.
    pose proof (parse_apkt_frms_props (payload qpkt) qpkt c) as S.
    destruct (parse_apkt_frms (payload qpkt) qpkt c) as [[ret qpkt'] c1].
    cbn [fst snd] in S. destruct S as ((S1 & S2 & S3) & _).
    assert (Hkeep : forall c2,
               ssl c2 = ssl c1 -> enc_levels c2 = enc_levels c1 ->
               (forall n,
                  rx_largest_pn (pktns c2 n) = rx_largest_pn (pktns c1 n)
                  /\ tx_next_pn (pktns c2 n) = tx_next_pn (pktns c1 n)) ->
               let c' := snd (treat_packets_loop pkts kept c2 tel) in
               ssl c' = ssl c
               /\ (forall l,
                     rx_crypto_offset (enc_levels c' l)
                     = rx_crypto_offset (enc_levels c l)
                     /\ rx_qpkts (enc_levels c' l) = rx_qpkts (enc_levels c l))
               /\ (forall n,
                     rx_largest_pn (pktns c' n) = rx_largest_pn (pktns c n)
                     /\ tx_next_pn (pktns c' n) = tx_next_pn (pktns c n))).
    { intros c2 E1 E2 E3. destruct (IH kept c2) as (I1 & I2 & I3).
      split; [congruence|]. split.
      - intros l. destruct (I2 l) as [-> ->]. rewrite E2. apply S2.
      - intros n. destruct (I3 n) as [-> ->], (E3 n) as [-> ->].
        destruct (S3 n) as (T1 & T2 & _). auto. }
    destruct (ret =? 0); [apply Hkeep; auto|].
    apply Hkeep; [reflexivity|reflexivity|].
    intros n. cbn [pktns set_pktns].
    destruct (pktns_eqb n (quic_tls_pktns_of tel)) eqn:E; [|auto].
    assert (n = quic_tls_pktns_of tel) as ->
      by (destruct n, (quic_tls_pktns_of tel); cbn in E; congruence).
    unfold qel_pktns. cbn. auto.
Qed.

Lemma account_apkt_ranges (pkt : quic_rx_packet) (c : quic_conn)
    (tel : quic_tls_enc_level) :
  ack_ranges_of (set_pktns c (quic_tls_pktns_of tel)
            (account_apkt pkt (qel_pktns c tel))) tel
  = lst (snd (quic_update_ack_ranges_list (rx_ack_ranges (qel_pktns c tel))
                (s64 (rx_pn pkt)))).
Proof.
  unfold ack_ranges_of, qel_pktns. cbn [pktns set_pktns].
  rewrite pktns_eqb_refl. reflexivity.
Qed.

Lemma parse_apkt_frms_plain (frms : list (option quic_frame)) :
  forallb plain_frame frms = true ->
  forall (qpkt : quic_rx_packet) (c : quic_conn),
    fst (fst (parse_apkt_frms frms qpkt c)) = 1.
Proof.
  induction frms as [|[frm|] frms IH]; cbn [forallb plain_frame];
    intros Hp qpkt c; cbn [parse_apkt_frms]; try reflexivity;
    try discriminate.
  destruct frm; cbn [andb] in Hp; try discriminate; apply IH; exact Hp.
Qed.

Lemma treat_packets_loop_acks (tel : quic_tls_enc_level)
    (pkts : list quic_rx_packet) :
  forall (kept : list quic_rx_packet) (c : quic_conn),
    ranges_ok (ack_ranges_of c tel) ->
    Forall (fun p => 0 <= rx_pn p < 2 ^ 62) pkts ->
    let c' := snd (treat_packets_loop pkts kept c tel) in
    ranges_ok (ack_ranges_of c' tel)
    /\ (forall x, covers (ack_ranges_of c tel) x ->
                  covers (ack_ranges_of c' tel) x)
    /\ (forall x, covers (ack_ranges_of c' tel) x ->
                  covers (ack_ranges_of c tel) x \/ decrypted pkts x)
    /\ (forall p, In p pkts -> decrypts p = true ->
                  forallb plain_frame (payload p) = true ->
                  covers (ack_ranges_of c' tel) (rx_pn p)).
Proof.
  induction pkts as [|pkt pkts IH]; intros kept c Hok Hp.
  - cbn. split; [exact Hok|]. split; [auto|]. split; [auto|].
    intros p Hin. destruct Hin.
  - apply Forall_cons_iff in Hp. destruct Hp as [Hpkt Hpkts].
    assert (Hmono : forall x, decrypted pkts x -> decrypted (pkt :: pkts) x).
    { intros x (p & Hin & Hx). exists p. split; [now right|exact Hx]. }
    cbn [treat_packets_loop].
    destruct (decrypts pkt) eqn:Ed; cbn [negb].
    2:{ destruct (IH kept c Hok Hpkts) as (I1 & I2 & I3 & I4).
        split; [exact I1|]. split; [exact I2|]. split.
        - intros x Hx. destruct (I3 x Hx); auto.
        - intros p [->|Hin] Hd Hpl; [congruence|]. apply I4; assumption. }
    unfold qc_parse_apkt.
    pose proof (parse_apkt_frms_props (payload pkt) pkt c) as S.
    pose proof (parse_apkt_frms_rx_pn (payload pkt) pkt c) as Hpn.
    pose proof (fun H => parse_apkt_frms_plain (payload pkt) H pkt c) as Hpl.
    destruct (parse_apkt_frms (payload pkt) pkt c) as [[ret pkt'] c1].
    cbn [fst snd] in S, Hpn, Hpl. destruct S as (S & _).
    pose proof (same_rx_ranges c c1 tel S) as E.
    destruct (Z.eqb_spec ret 0) as [Er|Er].
    + destruct (IH kept c1) as (I1 & I2 & I3 & I4);
        [rewrite E; exact Hok|exact Hpkts|].
      rewrite E in I2, I3.
      split; [exact I1|]. split; [exact I2|]. split.
      * intros x Hx. destruct (I3 x Hx); auto.
      * intros p [->|Hin] Hd Hplain; [|apply I4; assumption].
        rewrite (Hpl Hplain) in Er. discriminate.
    + set (c2 := set_pktns c1 (quic_tls_pktns_of tel)
                   (account_apkt pkt' (qel_pktns c1 tel))).
      assert (Hc2 : ranges_ok (ack_ranges_of c2 tel)
                    /\ forall x, covers (ack_ranges_of c2 tel) x
                                 <-> covers (ack_ranges_of c tel) x
                                     \/ x = rx_pn pkt).
      { unfold c2. rewrite account_apkt_ranges, Hpn, s64_small by lia.
        unfold ack_ranges_of in E.
        destruct (quic_update_ack_ranges_list_ok
                    (rx_ack_ranges (qel_pktns c1 tel)) (rx_pn pkt))
          as [U1 U2]; [rewrite E; exact Hok|lia|].
        split; [exact U1|]. intros x. rewrite U2.
        unfold ack_ranges_of. rewrite E. tauto. }
      destruct Hc2 as [Ok2 Cov2].
      destruct (IH kept c2 Ok2 Hpkts) as (I1 & I2 & I3 & I4).
      split; [exact I1|]. split; [|split].
      * intros x Hx. apply I2, Cov2. left. exact Hx.
      * intros x Hx. destruct (I3 x Hx) as [Hc|Hd]; [|auto].
        apply Cov2 in Hc. destruct Hc as [Hc| ->]; [auto|].
        right. exists pkt. split; [now left|]. auto.
      * intros p [->|Hin] Hd Hplain; [|apply I4; assumption].
        apply I2, Cov2. right. reflexivity.
Qed.

(** X17. [quic_treat_packets] on the receive tree of the level it treats
    (APP, or HANDSHAKE when the APP tree is empty): it returns 1 and the
    tree is empty afterwards, every packet being deleted whether it was
    dropped or taken.  The acknowledgement ranges of the level's
    packet-number space stay well formed and lose no packet number; a
    packet number that becomes covered is that of a packet of the tree
    that decrypted, and every packet that decrypted and holds only
    frames that [qc_parse_apkt] takes in any state (no frame that fails
    to parse, no ACK, no PADDING, no unknown type) is covered, whether
    it was flagged out of order or not.  Nothing is handed to the TLS
    stack, and no receive offset of the CRYPTO streams and no largest
    received packet number moves. *)
Theorem quic_treat_packets_acks (c : quic_conn) :
  let tel := treated_level c in
  let pkts := rx_qpkts (enc_levels c tel) in
  ranges_ok (ack_ranges_of c tel) ->
  Forall (fun p => 0 <= rx_pn p < 2 ^ 62) pkts ->
  let c' := snd (quic_treat_packets c) in
  fst (quic_treat_packets c) = 1
  /\ rx_qpkts (enc_levels c' tel) = []
  /\ ranges_ok (ack_ranges_of c' tel)
  /\ (forall x, covers (ack_ranges_of c tel) x ->
                covers (ack_ranges_of c' tel) x)
  /\ (forall x, covers (ack_ranges_of c' tel) x ->
                covers (ack_ranges_of c tel) x \/ decrypted pkts x)
  /\ (forall p, In p pkts -> decrypts p = true ->
                forallb plain_frame (payload p) = true ->
                covers (ack_ranges_of c' tel) (rx_pn p))
  /\ ssl c' = ssl c
  /\ (forall l,
        rx_crypto_offset (enc_levels c' l) = rx_crypto_offset (enc_levels c l))
  /\ (forall n, rx_largest_pn (pktns c' n) = rx_largest_pn (pktns c n)).
Proof.
  intros tel pkts Hok Hp. unfold quic_treat_packets. fold tel. fold pkts.
  pose proof (treat_packets_loop_tree tel pkts [] c) as Ht.
  pose proof (treat_packets_loop_rx tel pkts [] c) as Hr.
  pose proof (treat_packets_loop_acks tel pkts [] c Hok Hp) as Ha.
  destruct (treat_packets_loop pkts [] c tel) as [[ret qpkts] c1].
  cbn [fst snd] in Ht, Hr, Ha. cbv zeta in Hr, Ha.
  inversion Ht; subst ret qpkts. cbn [rev fst snd].
  destruct Hr as (R1 & R2 & R3). destruct Ha as (A1 & A2 & A3 & A4).
  assert (Hranges : ack_ranges_of
                      (set_enc_level c1 tel
                         (set_rx (enc_levels c1 tel) []
                                 (rx_crypto_offset (enc_levels c1 tel)))) tel
                    = ack_ranges_of c1 tel) by reflexivity.
  rewrite Hranges.
  split; [reflexivity|]. split.
  { cbn. now rewrite enc_level_eqb_refl. }
  split; [exact A1|]. split; [exact A2|]. split; [exact A3|].
  split; [exact A4|]. split; [exact R1|]. split.
  - intros l. cbn. destruct (enc_level_eqb l tel) eqn:E.
    + apply enc_level_eqb_eq in E. subst l. cbn. apply R2.
    + apply R2.
  - intros n. apply R3.
Qed.

End TreatPacketsClaims.

Section TreatPacketsScenario.
Import Int AckRanges Xprt RxProps TreatPackets Scenario.

Lemma quic_treat_packets_acks_witness :
  covers
    (ack_ranges_of
       (snd (quic_treat_packets
               (conn_with_rx QUIC_TLS_ENC_LEVEL_APP
                  (rx_packet 3 false [Some QUIC_FT_PING]))))
       QUIC_TLS_ENC_LEVEL_APP) 3.
Proof.
  destruct (quic_treat_packets_acks
              (conn_with_rx QUIC_TLS_ENC_LEVEL_APP
                 (rx_packet 3 false [Some QUIC_FT_PING])))
    as (_ & _ & _ & _ & _ & H & _).
  - apply ranges_ok_nil.
  - cbn. repeat constructor; cbn; lia.
  - apply (H (rx_packet 3 false [Some QUIC_FT_PING])).
    + left. reflexivity.
    + reflexivity.
    + reflexivity.
Defined.

End TreatPacketsScenario.


(** ** Stream identifiers of the mux *)

Section NextSid.
Import Int MuxH3 MuxFrames.

Lemma lor_1_cases (x : Z) :
  (x mod 2 = 0 /\ Z.lor x 1 = x + 1) \/ (x mod 2 = 1 /\ Z.lor x 1 = x).
Proof.
  pose proof (Z.div_mod x 2 ltac:(lia)) as D.
  pose proof (Z.mod_pos_bound x 2 ltac:(lia)) as B.
  pose proof (lor_mul_add (x / 2) 1 1 ltac:(lia) ltac:(lia)) as L.
  change (2 ^ 1) with 2 in L.
  assert (C : x mod 2 = 0 \/ x mod 2 = 1) by lia.
  destruct C as [C|C]; [left|right]; (split; [exact C|]).
  - replace x with (x / 2 * 2) at 1 by lia. lia.
  - replace x with (Z.lor (x / 2 * 2) 1) at 1 by lia.
    rewrite <- Z.lor_assoc. change (Z.lor 1 1) with 1. lia.
Qed.

(** The test [id & 0x80000000U] of an [int32_t] is the test of its
    sign. *)
Lemma sign_bit_test (y : Z) :
  - 2 ^ 31 <= y < 2 ^ 31 ->
  (Z.land (u32 y) 0x80000000 =? 0) = (0 <=? y).
Proof.
  intros Hy. change 0x80000000 with (1 * 2 ^ 31).
  rewrite <- Z.shiftl_mul_pow2 by lia.
  destruct (Z.leb_spec 0 y) as [Hp|Hn].
  - unfold u32. rewrite Z.mod_small by lia.
    rewrite Z.land_comm, land_shiftl_small by lia. reflexivity.
  - assert (Hu : u32 y = Z.lor (Z.shiftl 1 31) (y + 2 ^ 31)).
    { rewrite lor_shiftl_add by lia. unfold u32.
      replace y with (y + 2 ^ 32 + (-1) * 2 ^ 32) at 1 by lia.
      rewrite Z.mod_add by lia. rewrite Z.mod_small; lia. }
    rewrite Hu, Z.land_lor_distr_l, Z.land_diag.
    rewrite (Z.land_comm (y + 2 ^ 31)), land_shiftl_small by lia.
    reflexivity.
Qed.

(** X18. For every [max_id] and [last_sid] of their type,
    [h3c_get_next_sid] returns -1 or an odd stream id that is above
    [max_id] by one or two, positive, below [2^31] and, when [last_sid]
    is set, not above it.  It returns -1 exactly when the first odd
    number above [max_id] is negative (a [max_id] below -1), has reached
    [2^31] ([max_id = 2^31 - 1], where the addition wraps around) or is
    above a [last_sid] that is set. *)
Theorem h3c_get_next_sid_spec (max_id last_sid : Z) :
  - 2 ^ 31 <= max_id < 2 ^ 31 -> - 2 ^ 31 <= last_sid < 2 ^ 31 ->
  let id := h3c_get_next_sid max_id last_sid in
  (id = -1 \/
   (id mod 2 = 1 /\ max_id < id <= max_id + 2 /\ 0 < id < 2 ^ 31
    /\ (0 <= last_sid -> id <= last_sid)))
  /\ (id = -1 <->
      let next := max_id + 1 + (1 - (max_id + 1) mod 2) in
      next < 0 \/ 2 ^ 31 <= next \/ (0 <= last_sid /\ last_sid < next)).
Proof.
  intros Hm Hl. unfold h3c_get_next_sid. cbv zeta.
  destruct (Z.eq_dec max_id (2 ^ 31 - 1)) as [Emax|Nmax].
  - (* the addition wraps around *)
    subst max_id.
    replace (2 ^ 31 - 1 + 1) with (2 ^ 31) by lia.
    rewrite s32_overflow by lia.
    change (Z.lor (2 ^ 31 - 2 ^ 32) 1) with (- 2 ^ 31 + 1).
    rewrite sign_bit_test by lia.
    change (0 <=? - 2 ^ 31 + 1) with false. cbn [negb orb].
    split; [left; reflexivity|].
    split; [intros _; right; left; cbv; discriminate|reflexivity].
  - rewrite (s32_small (max_id + 1)) by lia.
    set (x := max_id + 1) in *.
    assert (Hnext : Z.lor x 1 = x + (1 - x mod 2) /\ (Z.lor x 1) mod 2 = 1).
    { destruct (lor_1_cases x) as [[Hmod E]|[Hmod E]]; rewrite E, Hmod.
      - split; [lia|].
        rewrite <- Z.add_mod_idemp_l, Hmod by lia. reflexivity.
      - split; [lia|reflexivity]. }
    destruct Hnext as [En Hodd].
    pose proof (Z.mod_pos_bound x 2 ltac:(lia)) as Hb.
    assert (Hlt : Z.lor x 1 < 2 ^ 31).
    { destruct (Z.eq_dec (Z.lor x 1) (2 ^ 31)) as [Eq|]; [|lia].
      rewrite Eq in Hodd. cbv in Hodd. discriminate. }
    rewrite sign_bit_test by lia.
    rewrite <- En. set (id0 := Z.lor x 1) in *.
    destruct (Z.leb_spec 0 id0) as [Hp|Hn]; cbn [negb orb].
    + assert (Hpos : 0 < id0).
      { destruct (Z.eq_dec id0 0) as [Eq|]; [|lia].
        rewrite Eq in Hodd. cbv in Hodd. discriminate. }
      destruct ((0 <=? last_sid) && (last_sid <? id0)) eqn:Ec.
      * apply andb_true_iff in Ec. destruct Ec as [E1 E2].
        apply Z.leb_le in E1. apply Z.ltb_lt in E2.
        split; [left; reflexivity|].
        split; [intros _; right; right; lia|reflexivity].
      * assert (Hc : ~ (0 <= last_sid /\ last_sid < id0)).
        { intros [E1 E2]. apply Z.leb_le in E1. apply Z.ltb_lt in E2.
          rewrite E1, E2 in Ec. discriminate. }
        split; [right; repeat split; try assumption; lia|].
        split; intros Hx; lia.
    + split; [left; reflexivity|].
      split; [intros _; left; exact Hn|reflexivity].
Qed.

Lemma h3c_get_next_sid_spec_witness :
  h3c_get_next_sid (2 ^ 31 - 1) (-1) = -1
  /\ h3c_get_next_sid (-3) 7 = -1
  /\ h3c_get_next_sid 8 (-1) mod 2 = 1.
Proof.
  split; [|split].
  - refine (proj2 (proj2 (h3c_get_next_sid_spec (2 ^ 31 - 1) (-1) _ _)) _);
      [lia|lia|].
    right. left. cbv. discriminate.
  - refine (proj2 (proj2 (h3c_get_next_sid_spec (-3) 7 _ _)) _); [lia|lia|].
    left. cbv. reflexivity.
  - destruct (proj1 (h3c_get_next_sid_spec 8 (-1) ltac:(lia) ltac:(lia)))
      as [E|(E & _)]; [|exact E].
    cbv in E. discriminate.
Defined.

End NextSid.

(** ** Frame headers of the mux *)

Section FrameHeaderFacts.
Import Int Bytes MuxFrames.

Lemma n32_arith (a b c d : Z) :
  is_byte a -> is_byte b -> is_byte c -> is_byte d ->
  Z.lor (Z.lor (Z.lor (Z.shiftl a 24) (Z.shiftl b 16)) (Z.shiftl c 8)) d
  = a * 2 ^ 24 + b * 2 ^ 16 + c * 2 ^ 8 + d.
Proof.
  unfold is_byte. intros Ha Hb Hc Hd.
  rewrite !Z.shiftl_mul_pow2 by lia.
  rewrite (lor_mul_add a (b * 2 ^ 16)) by lia.
  replace (a * 2 ^ 24 + b * 2 ^ 16) with ((a * 2 ^ 8 + b) * 2 ^ 16) by lia.
  rewrite (lor_mul_add _ (c * 2 ^ 8)) by lia.
  replace ((a * 2 ^ 8 + b) * 2 ^ 16 + c * 2 ^ 8)
    with (((a * 2 ^ 8 + b) * 2 ^ 8 + c) * 2 ^ 8) by lia.
  rewrite lor_mul_add by lia. lia.
Qed.

Lemma n32_bytes_arith (a b c d : Z) :
  is_byte a -> is_byte b -> is_byte c -> is_byte d ->
  n32_bytes (a * 2 ^ 24 + b * 2 ^ 16 + c * 2 ^ 8 + d) = [a; b; c; d].
Proof.
  unfold is_byte. intros Ha Hb Hc Hd. unfold n32_bytes, u8.
  rewrite !Z.shiftr_div_pow2 by lia.
  set (v := a * 2 ^ 24 + b * 2 ^ 16 + c * 2 ^ 8 + d).
  assert (E24 : v / 2 ^ 24 = a).
  { symmetry. apply Z.div_unique with (r := b * 2 ^ 16 + c * 2 ^ 8 + d);
      [left|]; unfold v; lia. }
  assert (E16 : v / 2 ^ 16 = a * 2 ^ 8 + b).
  { symmetry. apply Z.div_unique with (r := c * 2 ^ 8 + d);
      [left|]; unfold v; lia. }
  assert (E8 : v / 2 ^ 8 = (a * 2 ^ 8 + b) * 2 ^ 8 + c).
  { symmetry. apply Z.div_unique with (r := d); [left|]; unfold v; lia. }
  rewrite E24, E16, E8.
  f_equal; [apply Z.mod_small; lia|].
  f_equal; [symmetry; apply Z.mod_unique with (q := a); [left|]; lia|].
  f_equal; [symmetry; apply Z.mod_unique with (q := a * 2 ^ 8 + b);
            [left|]; lia|].
  f_equal. symmetry.
  apply Z.mod_unique with (q := (a * 2 ^ 8 + b) * 2 ^ 8 + c); [left|];
    unfold v; lia.
Qed.

Lemma n32_bytes_byte (v : Z) : Forall is_byte (n32_bytes v).
Proof.
  unfold n32_bytes, u8, is_byte.
  repeat constructor; apply Z.mod_pos_bound; lia.
Qed.

Lemma n32_bytes_value (v : Z) :
  0 <= v < 2 ^ 32 ->
  match n32_bytes v with
  | [a; b; c; d] => a * 2 ^ 24 + b * 2 ^ 16 + c * 2 ^ 8 + d = v
  | _ => False
  end.
Proof.
  intros Hv. unfold n32_bytes, u8.
  rewrite !Z.shiftr_div_pow2 by lia.
  assert (E16 : v / 2 ^ 16 = v / 2 ^ 8 / 2 ^ 8)
    by (rewrite Z.div_div by lia; reflexivity).
  assert (E24 : v / 2 ^ 24 = v / 2 ^ 8 / 2 ^ 8 / 2 ^ 8)
    by (rewrite !Z.div_div by lia; reflexivity).
  rewrite E24, E16.
  pose proof (Z.div_mod v (2 ^ 8)).
  pose proof (Z.div_mod (v / 2 ^ 8) (2 ^ 8)).
  pose proof (Z.div_mod (v / 2 ^ 8 / 2 ^ 8) (2 ^ 8)).
  assert (0 <= v / 2 ^ 8 / 2 ^ 8 / 2 ^ 8 < 2 ^ 8).
  { rewrite <- E24. split; [apply Z.div_pos; lia|].
    apply Z.div_lt_upper_bound; lia. }
  rewrite (Z.mod_small (v / 2 ^ 8 / 2 ^ 8 / 2 ^ 8)) by lia.
  lia.
Qed.

Lemma b_peek_nth (b : buffer) (A M R : list Z) (i : nat) :
  area b = A ++ M ++ R -> (i < length M)%nat ->
  b_peek b (Z.of_nat (length A) + Z.of_nat i) = nth i M 0.
Proof.
  intros Ha Hi. unfold b_peek, b_size. rewrite Ha.
  rewrite Z.mod_small by (rewrite !length_app; lia).
  replace (Z.to_nat (Z.of_nat (length A) + Z.of_nat i))
    with (length A + i)%nat by lia.
  rewrite app_nth2_plus. apply app_nth1. exact Hi.
Qed.

(** The header that [h3_peek_frame_hdr] finds where nine bytes lie in the
    buffer. *)
Lemma h3_peek_frame_hdr_bytes (b : buffer) (A R : list Z)
      (l2 l1 l0 t f s3 s2 s1 s0 : Z) :
  area b = A ++ [l2; l1; l0; t; f; s3; s2; s1; s0] ++ R ->
  Forall is_byte [l2; l1; l0; t; f; s3; s2; s1; s0] ->
  Z.of_nat (length A) + 9 <= data b -> data b < 2 ^ 63 ->
  h3_peek_frame_hdr b (Z.of_nat (length A))
  = Some {| len := l2 * 2 ^ 16 + l1 * 2 ^ 8 + l0;
            sid := (s3 * 2 ^ 24 + s2 * 2 ^ 16 + s1 * 2 ^ 8 + s0) mod 2 ^ 31;
            ft := t; ff := f |}.
Proof.
  intros Ha Hb Hd Hd'.
  set (o := Z.of_nat (length A)) in *.
  assert (Ho : 0 <= o) by (unfold o; lia).
  unfold h3_peek_frame_hdr.
  assert (Hu : u64 (o + 9) = o + 9) by (apply Z.mod_small; lia).
  rewrite Hu. destruct (Z.ltb_spec (data b) (o + 9)); [lia|].
  assert (Hp : forall k i, k = o + Z.of_nat i -> (i < 9)%nat ->
            b_peek b k = nth i [l2; l1; l0; t; f; s3; s2; s1; s0] 0).
  { intros k i -> Hi. apply (b_peek_nth b A _ R); [exact Ha|exact Hi]. }
  unfold h3_get_n64, h3_get_n32.
  rewrite (Hp o 0%nat), (Hp (o + 1) 1%nat), (Hp (o + 1 + 1) 2%nat),
    (Hp (o + 1 + 2) 3%nat), (Hp (o + 1 + 3) 4%nat), (Hp (o + 1 + 4) 5%nat),
    (Hp (o + 1 + 4 + 1) 6%nat), (Hp (o + 1 + 4 + 2) 7%nat),
    (Hp (o + 1 + 4 + 3) 8%nat) by lia.
  cbn [nth].
  inversion_clear Hb as [|? ? B1 Hb1]. inversion_clear Hb1 as [|? ? B2 Hb2].
  inversion_clear Hb2 as [|? ? B3 Hb3]. inversion_clear Hb3 as [|? ? B4 Hb4].
  inversion_clear Hb4 as [|? ? B5 Hb5]. inversion_clear Hb5 as [|? ? B6 Hb6].
  inversion_clear Hb6 as [|? ? B7 Hb7]. inversion_clear Hb7 as [|? ? B8 Hb8].
  inversion_clear Hb8 as [|? ? B9 _].
  rewrite !n32_arith by assumption.
  unfold is_byte in *.
  set (hi := l1 * 2 ^ 24 + l0 * 2 ^ 16 + t * 2 ^ 8 + f).
  set (lo := s3 * 2 ^ 24 + s2 * 2 ^ 16 + s1 * 2 ^ 8 + s0).
  assert (Hlo : 0 <= lo < 2 ^ 32) by (unfold lo; lia).
  rewrite lor_shiftl_add by lia.
  rewrite !Z.shiftr_div_pow2, Z.shiftl_mul_pow2 by lia.
  assert (E48 : (hi * 2 ^ 32 + lo) / 2 ^ 48 = l1 * 2 ^ 8 + l0).
  { symmetry.
    apply Z.div_unique with (r := (t * 2 ^ 8 + f) * 2 ^ 32 + lo);
      [left|]; unfold hi; lia. }
  assert (E40 : (hi * 2 ^ 32 + lo) / 2 ^ 40 = (l1 * 2 ^ 8 + l0) * 2 ^ 8 + t).
  { symmetry. apply Z.div_unique with (r := f * 2 ^ 32 + lo);
      [left|]; unfold hi; lia. }
  assert (E32 : (hi * 2 ^ 32 + lo) / 2 ^ 32 = hi).
  { symmetry. apply Z.div_unique with (r := lo); [left|]; lia. }
  rewrite E48, E40, E32.
  change 0x7FFFFFFF with (Z.ones 31). rewrite Z.land_ones by lia.
  assert (Em : (hi * 2 ^ 32 + lo) mod 2 ^ 31 = lo mod 2 ^ 31).
  { replace (hi * 2 ^ 32 + lo) with (lo + (hi * 2) * 2 ^ 31) by lia.
    apply Z.mod_add. lia. }
  rewrite Em.
  f_equal. f_equal.
  - unfold u32. rewrite Z.mod_small; lia.
  - unfold u32. apply Z.mod_small.
    pose proof (Z.mod_pos_bound lo (2 ^ 31)). lia.
  - unfold u8. symmetry.
    apply Z.mod_unique with (q := l1 * 2 ^ 8 + l0); [left|]; lia.
  - unfold u8. symmetry.
    apply Z.mod_unique with (q := (l1 * 2 ^ 8 + l0) * 2 ^ 8 + t);
      [left|]; unfold hi; lia.
Qed.

End FrameHeaderFacts.

(** ** The WINDOW_UPDATE frame on the wire *)

Section WindowUpdateFrame.
Import Int Bytes MuxFrames.

Lemma h3_get_n32_bytes (b : buffer) (A R : list Z) (v : Z) :
  area b = A ++ n32_bytes v ++ R -> 0 <= v < 2 ^ 32 ->
  h3_get_n32 b (Z.of_nat (length A)) = v.
Proof.
  intros Ha Hv.
  pose proof (n32_bytes_value v Hv) as Hval.
  pose proof (n32_bytes_byte v) as Hb.
  destruct (n32_bytes v) as [|x0 [|x1 [|x2 [|x3 [|? ?]]]]] eqn:E;
    try contradiction.
  set (o := Z.of_nat (length A)).
  assert (Hp : forall k i, k = o + Z.of_nat i -> (i < 4)%nat ->
            b_peek b k = nth i [x0; x1; x2; x3] 0).
  { intros k i -> Hi. apply (b_peek_nth b A _ R); [exact Ha|exact Hi]. }
  unfold h3_get_n32.
  rewrite (Hp o 0%nat), (Hp (o + 1) 1%nat), (Hp (o + 2) 2%nat),
    (Hp (o + 3) 3%nat) by lia.
  cbn [nth].
  inversion_clear Hb as [|? ? B1 Hb1]. inversion_clear Hb1 as [|? ? B2 Hb2].
  inversion_clear Hb2 as [|? ? B3 Hb3]. inversion_clear Hb3 as [|? ? B4 _].
  rewrite n32_arith by assumption. exact Hval.
Qed.

(** X21. The WINDOW_UPDATE frame that [h3c_send_window_update] emits is
    read back by [h3_get_frame_hdr] as a frame of length 4, type 8, no
    flag and the same stream id, and the payload left at the head of the
    buffer reads as the increment with [h3_get_n32]. *)
Theorem h3c_window_update_str_parses (b : buffer) (R : list Z)
        (wsid increment : Z) :
  area b = h3c_window_update_str wsid increment ++ R ->
  13 <= data b < 2 ^ 63 ->
  0 <= wsid < 2 ^ 31 -> 0 <= increment < 2 ^ 32 ->
  h3_get_frame_hdr b
  = Some ({| len := 4; sid := wsid; ft := 8; ff := 0 |}, b_del b 9)
  /\ data (b_del b 9) = data b - 9
  /\ h3_get_n32 (b_del b 9) 0 = increment.
Proof.
  intros Ha Hd Hs Hi.
  assert (Hus : u32 wsid = wsid) by (apply Z.mod_small; lia).
  unfold h3c_window_update_str in Ha. rewrite Hus in Ha.
  pose proof (n32_bytes_value wsid ltac:(lia)) as Hval.
  pose proof (n32_bytes_byte wsid) as Hb.
  destruct (n32_bytes wsid) as [|s3 [|s2 [|s1 [|s0 [|? ?]]]]] eqn:E;
    try contradiction.
  split; [|split].
  - unfold h3_get_frame_hdr.
    change 0 with (Z.of_nat (length (@nil Z))) at 1.
    rewrite (h3_peek_frame_hdr_bytes b [] (n32_bytes increment ++ R)
               0 0 4 8 0 s3 s2 s1 s0).
    + rewrite Hval. rewrite Z.mod_small by lia. reflexivity.
    + rewrite Ha. reflexivity.
    + repeat (constructor; [unfold is_byte; lia|]).
      exact Hb.
    + cbn [length]. lia.
    + lia.
  - reflexivity.
  - assert (Hd9 : area (b_del b 9)
                  = [] ++ n32_bytes increment
                       ++ (R ++ [0; 0; 4; 8; 0; s3; s2; s1; s0])).
    { cbn [b_del area]. rewrite Ha.
      change (Z.to_nat 9) with 9%nat. cbn [app skipn firstn].
      rewrite <- app_assoc. reflexivity. }
    change 0 with (Z.of_nat (length (@nil Z))).
    exact (h3_get_n32_bytes (b_del b 9) [] _ increment Hd9 Hi).
Qed.

Lemma h3c_window_update_str_parses_witness :
  h3_get_frame_hdr
    {| area := h3c_window_update_str 5 65536 ++ [1; 2; 3]; data := 16 |}
  = Some ({| len := 4; sid := 5; ft := 8; ff := 0 |},
          {| area := [0; 1; 0; 0; 1; 2; 3; 0; 0; 4; 8; 0; 0; 0; 0; 5];
             data := 7 |}).
Proof.
  refine (proj1 (h3c_window_update_str_parses
                   {| area := h3c_window_update_str 5 65536 ++ [1; 2; 3];
                      data := 16 |} [1; 2; 3] 5 65536 _ _ _ _));
    cbn; try reflexivity; lia.
Defined.

End WindowUpdateFrame.

(** ** Fragmentation of HEADERS frames *)

Section FragmentFacts.
Import Int Bytes MuxFrames.

Variables CONT EH : Z.

Lemma firstn_length_app (A B : list Z) : firstn (length A) (A ++ B) = A.
Proof. induction A as [|a A IH]; cbn; [destruct B|rewrite IH]; reflexivity. Qed.

Lemma skipn_length_app (A B : list Z) : skipn (length A) (A ++ B) = B.
Proof. induction A as [|a A IH]; cbn; [reflexivity|exact IH]. Qed.

Lemma store_mid (A B C bs : list Z) (o : Z) :
  o = Z.of_nat (length A) -> length B = length bs ->
  store (A ++ B ++ C) o bs = A ++ bs ++ C.
Proof.
  intros -> Hl. unfold store. rewrite Nat2Z.id.
  rewrite firstn_length_app. f_equal. f_equal.
  rewrite <- Hl, <- length_app, app_assoc. apply skipn_length_app.
Qed.

Lemma store_app_l (A L : list Z) (o k : Z) (bs : list Z) :
  o = Z.of_nat (length A) + k -> 0 <= k ->
  store (A ++ L) o bs = A ++ store L k bs.
Proof.
  intros -> Hk. unfold store.
  replace (Z.to_nat (Z.of_nat (length A) + k))
    with (length A + Z.to_nat k)%nat by lia.
  rewrite firstn_app_2, <- app_assoc. f_equal. f_equal. f_equal.
  rewrite <- Nat.add_assoc, skipn_app.
  rewrite skipn_all2 by lia.
  replace (length A + (Z.to_nat k + length bs) - length A)%nat
    with (Z.to_nat k + length bs)%nat by lia.
  reflexivity.
Qed.

Lemma sub_mid (A B C : list Z) (o n : Z) :
  o = Z.of_nat (length A) -> n = Z.of_nat (length B) ->
  sub (A ++ B ++ C) o n = B.
Proof.
  intros -> ->. unfold sub. rewrite !Nat2Z.id.
  rewrite skipn_length_app. apply firstn_length_app.
Qed.

Lemma split_at (n : nat) (l : list Z) :
  (n <= length l)%nat ->
  l = firstn n l ++ skipn n l /\ length (firstn n l) = n
  /\ length (skipn n l) = (length l - n)%nat.
Proof.
  intros Hn. split; [symmetry; apply firstn_skipn|].
  split; [apply firstn_length_le; exact Hn|apply length_skipn].
Qed.

Lemma len3_value (n : Z) :
  0 <= n < 2 ^ 24 ->
  u8 (Z.shiftr n 16) * 2 ^ 16 + u8 (Z.shiftr n 8) * 2 ^ 8 + u8 n = n.
Proof.
  intros Hn. unfold u8. rewrite !Z.shiftr_div_pow2 by lia.
  assert (E16 : n / 2 ^ 16 = n / 2 ^ 8 / 2 ^ 8)
    by (rewrite Z.div_div by lia; reflexivity).
  rewrite E16.
  pose proof (Z.div_mod n (2 ^ 8)).
  pose proof (Z.div_mod (n / 2 ^ 8) (2 ^ 8)).
  assert (0 <= n / 2 ^ 8 / 2 ^ 8 < 2 ^ 8).
  { rewrite <- E16. split; [apply Z.div_pos; lia|].
    apply Z.div_lt_upper_bound; lia. }
  rewrite (Z.mod_small (n / 2 ^ 8 / 2 ^ 8)) by lia.
  lia.
Qed.

Lemma u8_byte (x : Z) : is_byte (u8 x).
Proof. unfold is_byte, u8. apply Z.mod_pos_bound. lia. Qed.

Lemma read_n32_sid (H L : list Z) :
  length H = 9%nat -> Forall is_byte H ->
  n32_bytes (read_n32 (H ++ L) 5) = sub H 5 4.
Proof.
  intros HH Hb.
  destruct H as [|x0 [|x1 [|x2 [|x3 [|x4 [|x5 [|x6 [|x7 [|x8 [|? ?]]]]]]]]]];
    try discriminate.
  do 5 (inversion_clear Hb as [|? ? _ Hb']; rename Hb' into Hb).
  inversion_clear Hb as [|? ? B5 Hb1]. inversion_clear Hb1 as [|? ? B6 Hb2].
  inversion_clear Hb2 as [|? ? B7 Hb3]. inversion_clear Hb3 as [|? ? B8 _].
  unfold read_n32. cbn [app nth Z.to_nat Z.add Pos.to_nat Pos.iter_op
                        Pos.add Pos.succ Init.Nat.add].
  change (Z.to_nat (5 + 0)) with 5%nat. change (Z.to_nat (5 + 1)) with 6%nat.
  change (Z.to_nat (5 + 2)) with 7%nat. change (Z.to_nat (5 + 3)) with 8%nat.
  cbn [nth].
  rewrite n32_arith by assumption.
  rewrite n32_bytes_arith by assumption. reflexivity.
Qed.

(** The nine bytes that one round of the loop stores at [fptr]. *)
Lemma store_frame_hdr (H A X C : list Z) (o n t f : Z) :
  length H = 9%nat -> Forall is_byte H ->
  o = Z.of_nat (length (H ++ A)) -> length X = 9%nat ->
  0 <= n < 2 ^ 32 ->
  let a3 := store (store (h3_set_frame_size (H ++ A ++ X ++ C) o n)
                         (o + 3) [t]) (o + 4) [f] in
  store a3 (o + 5) (n32_bytes (read_n32 a3 5))
  = H ++ A ++ frame_hdr_bytes n t f (sub H 5 4) ++ C.
Proof.
  intros HH Hb Ho HX Hn.
  destruct X as [|x0 [|x1 [|x2 [|x3 [|x4 [|x5 [|x6 [|x7 [|x8 [|? ?]]]]]]]]]];
    try discriminate.
  unfold h3_set_frame_size, n16_bytes, frame_hdr_bytes.
  assert (Hu : u32 n = n) by (apply Z.mod_small; lia). rewrite Hu.
  rewrite (app_assoc H A).
  rewrite (store_app_l (H ++ A) _ o 0) by lia.
  rewrite (store_app_l (H ++ A) _ (o + 1) 1) by lia.
  rewrite (store_app_l (H ++ A) _ (o + 3) 3) by lia.
  rewrite (store_app_l (H ++ A) _ (o + 4) 4) by lia.
  cbv zeta.
  rewrite <- !(app_assoc H A).
  rewrite (read_n32_sid H) by assumption.
  rewrite (app_assoc H A).
  rewrite (store_app_l (H ++ A) _ (o + 5) 5) by lia.
  rewrite <- app_assoc.
  assert (Hs : length (sub H 5 4) = 4%nat).
  { unfold sub. rewrite length_firstn, length_skipn, HH. reflexivity. }
  destruct (sub H 5 4) as [|s3 [|s2 [|s1 [|s0 [|? ?]]]]]; try discriminate.
  reflexivity.
Qed.

Lemma continuation_bytes_app (extra i : Z) (sidb : list Z)
      (cs : list (list Z)) (c : list Z) :
  continuation_bytes CONT EH extra i sidb (cs ++ [c])
  = continuation_bytes CONT EH extra i sidb cs
    ++ frame_hdr_bytes (Z.of_nat (length c)) (u8 CONT)
         (u8 (if i + Z.of_nat (length cs) =? extra then EH else 0)) sidb
    ++ c.
Proof.
  revert i. induction cs as [|c' cs IH]; intros i.
  - cbn [app continuation_bytes length Z.of_nat].
    rewrite Z.add_0_r, !app_nil_r. reflexivity.
  - cbn [app continuation_bytes]. rewrite IH.
    replace (i + 1 + Z.of_nat (length cs))
      with (i + Z.of_nat (length (c' :: cs))) by (cbn [length]; lia).
    rewrite <- !app_assoc. reflexivity.
Qed.

Lemma h3_fragment_loop_layout (extra mfs : Z) (H : list Z) :
  length H = 9%nat -> Forall is_byte H -> 0 < mfs < 2 ^ 24 ->
  forall (k : nat) (b : buffer) (Q G T : list Z),
    area b = H ++ Q ++ G ++ T -> length G = (9 * k)%nat ->
    (k <> 0%nat -> Z.of_nat k * mfs + 1 <= Z.of_nat (length Q)) ->
    Z.of_nat (length Q) < 2 ^ 32 ->
    0 <= data b -> data b + 9 * Z.of_nat k < 2 ^ 64 ->
    exists Q0 cs,
      Q = Q0 ++ concat cs /\ length cs = k /\
      Forall (fun c => 1 <= Z.of_nat (length c) <= mfs) cs /\
      (k <> 0%nat ->
       Z.of_nat (length Q0)
       = mfs * ((Z.of_nat (length Q) - 1) / mfs - Z.of_nat k + 1)) /\
      (k = 0%nat -> Q0 = Q) /\
      h3_fragment_loop CONT EH extra mfs k b (Z.of_nat (length Q))
      = ({| area := H ++ Q0
                      ++ continuation_bytes CONT EH extra 1 (sub H 5 4) cs
                      ++ T;
            data := data b + 9 * Z.of_nat k |},
         Z.of_nat (length Q0)).
Proof.
  intros HH Hb Hm k.
  induction k as [|k IH]; intros b Q G T Ha HG Hk Hq Hd0 Hd.
  - exists Q, []. destruct G; [|discriminate].
    rewrite app_nil_r. cbn [concat continuation_bytes app length].
    split; [reflexivity|]. split; [reflexivity|]. split; [constructor|].
    split; [intros Hc; contradiction|]. split; [reflexivity|].
    cbn [h3_fragment_loop]. destruct b as [ar da]. cbn in *.
    rewrite Ha. f_equal. f_equal. lia.
  - specialize (Hk ltac:(discriminate)).
    set (r := Z.of_nat (length Q)) in *.
    set (q := (r - 1) / mfs).
    set (f := (r - 1) mod mfs + 1).
    assert (Hdm : r - 1 = mfs * q + (r - 1) mod mfs)
      by (apply Z.div_mod; lia).
    assert (Hmod : 0 <= (r - 1) mod mfs < mfs)
      by (apply Z.mod_pos_bound; lia).
    assert (Hqk : Z.of_nat (S k) <= q).
    { apply Z.div_le_lower_bound; lia. }
    assert (Hr' : r - f = mfs * q) by (unfold f; lia).
    assert (Hq1 : 1 <= q) by lia.
    assert (Hmq : mfs <= mfs * q) by nia.
    assert (Hu1 : u64 (r - 1) = r - 1) by (apply Z.mod_small; lia).
    assert (Hu2 : u64 (f) = f) by (apply Z.mod_small; unfold f; lia).
    assert (Hu3 : u64 (r - f) = r - f) by (apply Z.mod_small; lia).
    assert (Hu4 : u64 (data b + 9) = data b + 9) by (apply Z.mod_small; lia).
    (* the payload splits into what stays and the chunk that moves *)
    destruct (split_at (Z.to_nat (r - f)) Q ltac:(unfold r in *; lia))
      as (EQ & LQ' & LC).
    set (Q' := firstn (Z.to_nat (r - f)) Q) in *.
    set (C := skipn (Z.to_nat (r - f)) Q) in *.
    assert (LCf : Z.of_nat (length C) = f) by (unfold r in *; lia).
    (* the gap: nine bytes for each round that is left, and nine more *)
    destruct (split_at (9 * S k) (C ++ G)
                ltac:(rewrite length_app; lia)) as (EW & LY & LZ).
    set (Y := firstn (9 * S k) (C ++ G)) in *.
    set (Z' := skipn (9 * S k) (C ++ G)) in *.
    rewrite length_app in LZ.
    destruct (split_at (9 * k) Y ltac:(lia)) as (EY & LY' & LX).
    set (Y' := firstn (9 * k) Y) in *.
    set (X := skipn (9 * k) Y) in *.
    assert (Hsub : sub (area b) (9 + (r - f)) f = C).
    { rewrite Ha, EQ, <- app_assoc.
      rewrite (app_assoc H Q').
      apply sub_mid; [rewrite length_app; lia|lia]. }
    assert (Hst : store (area b) (9 + (r - f) + (Z.of_nat (S k) - 1) * 9 + 9) C
                  = H ++ Q' ++ Y' ++ X ++ C ++ T).
    { rewrite Ha, EQ, <- app_assoc.
      rewrite (app_assoc C G T), EW, <- app_assoc.
      rewrite (app_assoc Q' Y), (app_assoc H (Q' ++ Y)).
      rewrite store_mid; [|rewrite !length_app; lia|lia].
      rewrite <- !app_assoc. rewrite EY at 1. rewrite <- !app_assoc.
      reflexivity. }
    cbn [h3_fragment_loop area data].
    fold r. rewrite Hu1. fold f. rewrite Hu2, Hu3, Hu4, Hsub, Hst.
    pose proof (store_frame_hdr H (Q' ++ Y') X (C ++ T)
                  (9 + (r - f) + (Z.of_nat (S k) - 1) * 9) f (u8 CONT)
                  (u8 (if Z.of_nat (S k) =? extra then EH else 0))
                  HH Hb) as Hh.
    cbv zeta in Hh. rewrite <- !app_assoc in Hh.
    rewrite Hh; [|rewrite !length_app; lia|lia|lia]. clear Hh.
    (* the rounds that are left *)
    destruct (IH {| area := H ++ Q' ++ Y'
                        ++ frame_hdr_bytes f (u8 CONT)
                             (u8 (if Z.of_nat (S k) =? extra then EH else 0))
                             (sub H 5 4) ++ C ++ T;
                    data := data b + 9 |}
                 Q' Y' _ eq_refl LY')
      as (Q0 & cs & E1 & Lcs & Fcs & Hl & Hz & Hloop).
    { intros _. lia. }
    { lia. }
    { cbn [data]. lia. }
    { cbn [data]. lia. }
    cbn [data] in Hloop.
    replace (Z.of_nat (length Q')) with (r - f) in Hloop by lia.
    exists Q0, (cs ++ [C]).
    split.
    { rewrite concat_app. cbn [concat]. rewrite app_nil_r, app_assoc, <- E1.
      exact EQ. }
    split; [rewrite length_app; cbn [length]; lia|].
    split.
    { apply Forall_app. split; [exact Fcs|].
      constructor; [|constructor]. unfold f in LCf. lia. }
    split.
    { intros _. destruct k as [|k'].
      - rewrite (Hz eq_refl). lia.
      - rewrite (Hl ltac:(discriminate)).
        replace (Z.of_nat (length Q')) with (mfs * q) by lia.
        assert (Eq1 : (mfs * q - 1) / mfs = q - 1).
        { symmetry. apply Z.div_unique with (r := mfs - 1); [left|]; lia. }
        rewrite Eq1. fold q. f_equal. lia. }
    split; [discriminate|].
    rewrite Hloop. f_equal. f_equal; [|lia].
    rewrite continuation_bytes_app, <- !app_assoc.
    rewrite Lcs, LCf.
    replace (1 + Z.of_nat k) with (Z.of_nat (S k)) by lia.
    reflexivity.
Qed.

Lemma continuation_bytes_length (extra i : Z) (sidb : list Z)
      (cs : list (list Z)) :
  length sidb = 4%nat ->
  length (continuation_bytes CONT EH extra i sidb cs)
  = (9 * length cs + length (concat cs))%nat.
Proof.
  intros Hs. revert i. induction cs as [|c cs IH]; intros i; [reflexivity|].
  cbn [continuation_bytes concat length].
  unfold frame_hdr_bytes. rewrite !length_app, IH. cbn [length]. lia.
Qed.

Lemma h3_peek_frame_hdr_frame (b : buffer) (A R : list Z)
      (n t f s3 s2 s1 s0 : Z) :
  area b = A ++ frame_hdr_bytes n t f [s3; s2; s1; s0] ++ R ->
  0 <= n < 2 ^ 24 -> is_byte t -> is_byte f ->
  Forall is_byte [s3; s2; s1; s0] ->
  Z.of_nat (length A) + 9 <= data b -> data b < 2 ^ 63 ->
  h3_peek_frame_hdr b (Z.of_nat (length A))
  = Some {| len := n;
            sid := (s3 * 2 ^ 24 + s2 * 2 ^ 16 + s1 * 2 ^ 8 + s0) mod 2 ^ 31;
            ft := t; ff := f |}.
Proof.
  intros Ha Hn Ht Hf Hs Hd Hd'.
  rewrite (h3_peek_frame_hdr_bytes b A R (u8 (Z.shiftr n 16))
             (u8 (Z.shiftr n 8)) (u8 n) t f s3 s2 s1 s0);
    [|exact Ha| |exact Hd|exact Hd'].
  - rewrite len3_value by exact Hn. reflexivity.
  - repeat (constructor; [first [apply u8_byte|assumption]|]). exact Hs.
Qed.

Lemma h3_frames_continuations (extra mfs s3 s2 s1 s0 : Z) :
  mfs < 2 ^ 24 -> Forall is_byte [s3; s2; s1; s0] ->
  forall (cs : list (list Z)) (A T : list Z) (i : Z) (fuel : nat)
         (b : buffer),
    area b = A ++ continuation_bytes CONT EH extra i [s3; s2; s1; s0] cs
               ++ T ->
    data b = Z.of_nat (length A)
             + Z.of_nat (length (continuation_bytes CONT EH extra i
                                   [s3; s2; s1; s0] cs)) ->
    data b < 2 ^ 63 ->
    Forall (fun c => 1 <= Z.of_nat (length c) <= mfs) cs ->
    (cs <> [] -> i + Z.of_nat (length cs) = extra + 1) ->
    (length cs <= fuel)%nat ->
    h3_frames fuel b (Z.of_nat (length A))
    = continuations CONT EH
        ((s3 * 2 ^ 24 + s2 * 2 ^ 16 + s1 * 2 ^ 8 + s0) mod 2 ^ 31) cs.
Proof.
  intros Hm Hs cs.
  induction cs as [|c cs IH]; intros A T i fuel b Ha Hd Hd' Hcs Hi Hf.
  - destruct fuel as [|fuel]; [reflexivity|].
    cbn [h3_frames continuations]. unfold h3_peek_frame_hdr.
    cbn [continuation_bytes length] in Hd.
    assert (Hu : u64 (Z.of_nat (length A) + 9) = Z.of_nat (length A) + 9)
      by (apply Z.mod_small; lia).
    rewrite Hu.
    destruct (Z.ltb_spec (data b) (Z.of_nat (length A) + 9)); [|lia].
    reflexivity.
  - destruct fuel as [|fuel]; [cbn [length] in Hf; lia|].
    inversion_clear Hcs as [|? ? Hc Hcs'].
    specialize (Hi ltac:(discriminate)). cbn [length] in Hi, Hf.
    cbn [continuation_bytes] in Ha, Hd.
    rewrite <- !app_assoc in Ha.
    rewrite !length_app in Hd.
    assert (Hl9 : forall n t f, length (frame_hdr_bytes n t f [s3; s2; s1; s0])
                                = 9%nat) by reflexivity.
    rewrite Hl9 in Hd.
    cbn [h3_frames continuations].
    rewrite (h3_peek_frame_hdr_frame b A _ _ _ _ s3 s2 s1 s0 Ha);
      try apply u8_byte; try assumption; try lia.
    cbn [len].
    assert (Hflag : (i =? extra) = match cs with [] => true | _ => false end).
    { destruct cs as [|c' cs']; cbn [length] in Hi.
      - apply Z.eqb_eq. lia.
      - apply Z.eqb_neq. lia. }
    f_equal.
    + f_equal.
      * f_equal. rewrite Hflag. destruct cs; reflexivity.
      * rewrite Ha. rewrite (app_assoc A).
        apply sub_mid; [rewrite length_app, Hl9; lia|reflexivity].
    + replace (Z.of_nat (length A) + 9 + Z.of_nat (length c))
        with (Z.of_nat (length (A ++ frame_hdr_bytes (Z.of_nat (length c))
                                  (u8 CONT)
                                  (u8 (if i =? extra then EH else 0))
                                  [s3; s2; s1; s0] ++ c)))
        by (rewrite !length_app, Hl9; lia).
      apply (IH _ T (i + 1)).
      * rewrite Ha, <- !app_assoc. reflexivity.
      * rewrite !length_app, Hl9. lia.
      * exact Hd'.
      * exact Hcs'.
      * intros _. lia.
      * lia.
Qed.

(** X20. [h3_fragment_headers] on a buffer that holds one frame with
    payload [P]: if [P] has at most [mfs] bytes the result is 1 and
    nothing changes; if the buffer lacks room for the nine bytes of each
    of the [extra = (|P| - 1) / mfs] headers to add, the result is 0 and
    nothing changes; otherwise the result is 1, the buffer has the same
    size and [9 * extra] more bytes, and reading it frame by frame with
    [h3_peek_frame_hdr] gives the first frame, with its type and stream
    id, END_HEADERS cleared and the first [mfs] bytes of [P], then
    [extra] CONTINUATION frames on the same stream with one to [mfs]
    bytes each, the last with END_HEADERS, whose payloads put together
    are the rest of [P]. *)
Theorem h3_fragment_headers_frames (b : buffer) (mfs : Z)
        (H P R : list Z) :
  area b = H ++ P ++ R -> length H = 9%nat -> Forall is_byte H ->
  data b = 9 + Z.of_nat (length P) -> b_size b < 2 ^ 27 ->
  0 < mfs < 2 ^ 24 ->
  let extra := (Z.of_nat (length P) - 1) / mfs in
  (Z.of_nat (length P) <= mfs ->
   h3_fragment_headers CONT EH b mfs = (1, b)) /\
  (mfs < Z.of_nat (length P) -> b_size b < data b + 9 * extra ->
   h3_fragment_headers CONT EH b mfs = (0, b)) /\
  (mfs < Z.of_nat (length P) -> data b + 9 * extra <= b_size b ->
   exists h0 b' c0 cs,
     h3_peek_frame_hdr b 0 = Some h0 /\
     h3_fragment_headers CONT EH b mfs = (1, b') /\
     P = c0 ++ concat cs /\
     Z.of_nat (length c0) = mfs /\ Z.of_nat (length cs) = extra /\
     Forall (fun c => 1 <= Z.of_nat (length c) <= mfs) cs /\
     data b' = data b + 9 * extra /\ b_size b' = b_size b /\
     forall fuel : nat, extra < Z.of_nat fuel ->
       h3_frames fuel b' 0
       = ({| len := mfs; sid := sid h0; ft := ft h0;
             ff := u8 (Z.land (ff h0) (Z.lnot EH)) |}, c0)
           :: continuations CONT EH (sid h0) cs).
Proof.
  intros Ha HH Hb Hd Hsz Hm extra.
  assert (Hsize : b_size b = 9 + Z.of_nat (length P) + Z.of_nat (length R)).
  { unfold b_size. rewrite Ha, !length_app. lia. }
  assert (Hu9 : u32 (mfs + 9) = mfs + 9) by (apply Z.mod_small; lia).
  unfold h3_fragment_headers. rewrite Hu9.
  split; [|split].
  - intros Hle. destruct (Z.leb_spec (data b) (mfs + 9)); [reflexivity|lia].
  - intros Hlt Hroom.
    destruct (Z.leb_spec (data b) (mfs + 9)); [lia|].
    assert (Hr : u64 (data b - 9) = Z.of_nat (length P))
      by (unfold u64; rewrite Z.mod_small; lia).
    rewrite Hr.
    assert (Hr1 : u64 (Z.of_nat (length P) - 1) = Z.of_nat (length P) - 1)
      by (apply Z.mod_small; lia).
    rewrite Hr1. fold extra.
    assert (He : 0 <= extra < 2 ^ 27).
    { unfold extra. split; [apply Z.div_pos; lia|].
      apply Z.div_lt_upper_bound; nia. }
    rewrite s32_small by lia.
    assert (Hu : u64 (data b + extra * 9) = data b + extra * 9)
      by (apply Z.mod_small; lia).
    rewrite Hu.
    destruct (Z.ltb_spec (b_size b) (data b + extra * 9)); [reflexivity|lia].
  - intros Hlt Hroom.
    destruct (Z.leb_spec (data b) (mfs + 9)); [lia|].
    assert (Hr : u64 (data b - 9) = Z.of_nat (length P))
      by (unfold u64; rewrite Z.mod_small; lia).
    rewrite Hr.
    assert (Hr1 : u64 (Z.of_nat (length P) - 1) = Z.of_nat (length P) - 1)
      by (apply Z.mod_small; lia).
    rewrite Hr1. fold extra.
    assert (He : 1 <= extra < 2 ^ 27).
    { unfold extra. split; [apply Z.div_le_lower_bound; lia|].
      apply Z.div_lt_upper_bound; nia. }
    rewrite s32_small by lia.
    assert (Hu : u64 (data b + extra * 9) = data b + extra * 9)
      by (apply Z.mod_small; lia).
    rewrite Hu.
    destruct (Z.ltb_spec (b_size b) (data b + extra * 9)); [lia|].
    (* the room the new headers take *)
    destruct (split_at (9 * Z.to_nat extra) R ltac:(lia)) as (ER & LG & LT).
    set (G := firstn (9 * Z.to_nat extra) R) in *.
    set (T := skipn (9 * Z.to_nat extra) R) in *.
    destruct (h3_fragment_loop_layout extra mfs H HH Hb Hm
                (Z.to_nat extra) b P G T)
      as (c0 & cs & EP & Lcs & Fcs & Hl & _ & Hloop); try lia.
    { rewrite Ha, ER at 1. reflexivity. }
    { intros _. rewrite Z2Nat.id by lia. unfold extra.
      pose proof (Z.mul_div_le (Z.of_nat (length P) - 1) mfs). lia. }
    rewrite Hloop. clear Hloop.
    specialize (Hl ltac:(lia)). rewrite Z2Nat.id in Hl by lia.
    fold extra in Hl.
    assert (Lc0 : Z.of_nat (length c0) = mfs) by lia.
    assert (Lcs' : Z.of_nat (length cs) = extra) by lia.
    destruct H as [|h0 [|h1 [|h2 [|t0 [|f0 [|s3 [|s2 [|s1 [|s0 [|? ?]]]]]]]]]];
      try discriminate.
    assert (Hb' := Hb).
    inversion_clear Hb' as [|? ? _ Hb1]. inversion_clear Hb1 as [|? ? _ Hb2].
    inversion_clear Hb2 as [|? ? _ Hb3]. inversion_clear Hb3 as [|? ? Bt Hb4].
    inversion_clear Hb4 as [|? ? Bf Hs].
    eexists _, _, c0, cs.
    split.
    { change 0 with (Z.of_nat (length (@nil Z))).
      apply (h3_peek_frame_hdr_bytes b [] (P ++ R) h0 h1 h2 t0 f0 s3 s2 s1 s0);
        [rewrite Ha; reflexivity|exact Hb|cbn [length]; lia|lia]. }
    split; [reflexivity|].
    split; [exact EP|]. split; [exact Lc0|]. split; [lia|].
    split; [exact Fcs|].
    cbn [data area sid ft ff].
    split; [rewrite Z2Nat.id by lia; reflexivity|].
    assert (Hu32 : u32 (Z.of_nat (length c0)) = mfs)
      by (rewrite Lc0; apply Z.mod_small; lia).
    assert (Harea :
      h3_set_frame_size
        (store ([h0; h1; h2; t0; f0; s3; s2; s1; s0] ++ c0
                  ++ continuation_bytes CONT EH extra 1
                       (sub [h0; h1; h2; t0; f0; s3; s2; s1; s0] 5 4) cs
                  ++ T) 4
           [u8 (Z.land (nth 4 ([h0; h1; h2; t0; f0; s3; s2; s1; s0] ++ c0
                  ++ continuation_bytes CONT EH extra 1
                       (sub [h0; h1; h2; t0; f0; s3; s2; s1; s0] 5 4) cs
                  ++ T) 0) (Z.lnot EH))])
        0 (Z.of_nat (length c0))
      = [] ++ frame_hdr_bytes mfs t0 (u8 (Z.land f0 (Z.lnot EH)))
                [s3; s2; s1; s0]
           ++ c0 ++ continuation_bytes CONT EH extra 1 [s3; s2; s1; s0] cs
           ++ T).
    { unfold h3_set_frame_size. rewrite Hu32. reflexivity. }
    rewrite Harea.
    split.
    { unfold b_size. cbn [area].
      rewrite Ha, ER, EP, !length_app, continuation_bytes_length by reflexivity.
      rewrite ?length_app. cbn [length frame_hdr_bytes app]. lia. }
    intros fuel Hfuel.
    destruct fuel as [|fuel]; [lia|].
    set (b' := {| area := _; data := _ |}).
    assert (Hdb' : data b' = 9 + mfs + 9 * extra
                             + Z.of_nat (length (concat cs))).
    { cbn [b' data]. rewrite Hd, EP, length_app. lia. }
    cbn [h3_frames].
    change 0 with (Z.of_nat (length (@nil Z))) at 1 2 3.
    rewrite (h3_peek_frame_hdr_frame b' [] _ mfs t0
               (u8 (Z.land f0 (Z.lnot EH))) s3 s2 s1 s0 eq_refl);
      try apply u8_byte; try assumption; try (cbn [b' data length]; lia).
    cbn [len length Z.of_nat].
    f_equal.
    + f_equal. cbn [b' area].
      apply (sub_mid (frame_hdr_bytes mfs t0 (u8 (Z.land f0 (Z.lnot EH)))
                        [s3; s2; s1; s0]) c0 _);
        [reflexivity|lia].
    + replace (0 + 9 + mfs)
        with (Z.of_nat (length (frame_hdr_bytes mfs t0
                                  (u8 (Z.land f0 (Z.lnot EH)))
                                  [s3; s2; s1; s0] ++ c0)))
        by (rewrite length_app; cbn [length frame_hdr_bytes app]; lia).
      apply (h3_frames_continuations extra mfs s3 s2 s1 s0 ltac:(lia) Hs
               cs _ T 1).
      * cbn [b' area]. rewrite <- !app_assoc. reflexivity.
      * rewrite Hdb', length_app, continuation_bytes_length by reflexivity.
        cbn [length frame_hdr_bytes app].
        rewrite !Nat2Z.inj_add, Nat2Z.inj_mul, Lcs', Lc0. lia.
      * cbn [b' data]. lia.
      * exact Fcs.
      * intros _. lia.
      * apply Nat2Z.inj_le. rewrite Lcs'. lia.
Qed.

End FragmentFacts.

Lemma h3_fragment_headers_frames_witness :
  exists b',
    MuxFrames.h3_fragment_headers 9 4 MuxFrames.headers_frame 4 = (1, b')
    /\ MuxFrames.data b' = 37.
Proof.
  destruct (h3_fragment_headers_frames 9 4 MuxFrames.headers_frame 4
              [0; 0; 10; 1; 4; 0; 0; 0; 1] [1; 2; 3; 4; 5; 6; 7; 8; 9; 10]
              (repeat 0 18) eq_refl eq_refl)
    as (_ & _ & H3).
  - repeat constructor; unfold Bytes.is_byte; lia.
  - reflexivity.
  - cbn; lia.
  - lia.
  - destruct H3 as (h0 & b' & c0 & cs & _ & E & _ & _ & _ & _ & D & _).
    + cbn; lia.
    + cbn; lia.
    + exists b'. split; [exact E|exact D].
Defined.

(** ** SETTINGS processing *)

Section SettingsFacts.
Import Int MuxFrames MuxSettings.

Variables ACK IWS MFS EP MCS : Z.
Variable maxcs : Z.
Hypothesis maxcs_range : 0 <= maxcs < 2 ^ 32.

Lemma settings_step_refl c : settings_step maxcs c c.
Proof. unfold settings_step; tauto. Qed.

Lemma settings_step_trans c1 c2 c3 :
  settings_step maxcs c1 c2 -> settings_step maxcs c2 c3 -> settings_step maxcs c1 c3.
Proof.
  unfold settings_step.
  intros (F1 & B1 & L1 & D1 & S1 & E1 & M1 & X1 & K1 & N1)
         (F2 & B2 & L2 & D2 & S2 & E2 & M2 & X2 & K2 & N2).
  rewrite F1 in *.
  repeat split; try congruence; try tauto.
  - intros Hb. rewrite N2, N1; auto.
Qed.

Lemma u32_s32_u32 x : 0 <= x < 2 ^ 32 -> u32 (s32 x) = x.
Proof.
  intros Hx. unfold u32, s32.
  rewrite Zminus_mod_idemp_l.
  replace (x + 2 ^ 31 - 2 ^ 31) with x by lia.
  apply Z.mod_small; lia.
Qed.

Lemma h3c_apply_setting_step c type arg :
  match h3c_apply_setting IWS MFS EP MCS maxcs c type arg with
  | inl c' => settings_step maxcs c c'
  | inr e => e <> H3_ERR_NO_ERROR
  end.
Proof.
  unfold h3c_apply_setting.
  destruct (type =? IWS).
  { destruct (Z.ltb_spec arg 0); [discriminate|].
    unfold settings_step; cbn; repeat split; auto; tauto. }
  destruct (type =? MFS).
  { destruct (Z.ltb_spec arg 16384); cbn [orb]; [discriminate|].
    destruct (Z.ltb_spec 16777215 arg); [discriminate|].
    unfold settings_step; cbn; repeat split; auto; try tauto; lia. }
  destruct (type =? EP).
  { destruct ((arg <? 0) || (1 <? arg)); [discriminate|].
    apply settings_step_refl. }
  destruct (type =? MCS); [|apply settings_step_refl].
  destruct (Z.eqb_spec (Z.land (flags c) H3_CF_IS_BACK) 0) as [E|E]; cbn [negb].
  { apply settings_step_refl. }
  unfold settings_step; cbn; repeat split; auto; try tauto.
  intros _ _.
  destruct (Z.ltb_spec maxcs (u32 arg)); [|assumption].
  rewrite u32_s32_u32 by assumption. lia.
Qed.

Lemma h3c_settings_loop_ok (fuel : nat) : forall offset c,
  0 <= offset -> 0 <= dfl c < 2 ^ 31 ->
  dfl c - offset + 5 < 6 * Z.of_nat fuel + 6 ->
  exists r, h3c_settings_loop IWS MFS EP MCS maxcs fuel offset c = Some r /\
    match r with
    | inl c' => settings_step maxcs c c'
    | inr (c', e) => settings_step maxcs c c' /\ e <> H3_ERR_NO_ERROR
    end.
Proof.
  induction fuel as [|fuel IH]; intros offset c Ho Hd Hf.
  - cbn [h3c_settings_loop].
    assert (Hu : u32 (dfl c) = dfl c) by (apply Z.mod_small; lia).
    rewrite Hu. destruct (Z.ltb_spec offset (dfl c)); [lia|].
    eexists; split; [reflexivity|apply settings_step_refl].
  - cbn [h3c_settings_loop].
    assert (Hu : u32 (dfl c) = dfl c) by (apply Z.mod_small; lia).
    rewrite Hu. destruct (Z.ltb_spec offset (dfl c)) as [Hlt|Hge].
    2:{ eexists; split; [reflexivity|apply settings_step_refl]. }
    pose proof (h3c_apply_setting_step c (h3_get_n16 (dbuf c) offset)
                  (s32 (h3_get_n32 (dbuf c) (offset + 2)))) as Hs.
    destruct (h3c_apply_setting _ _ _ _ _ c _ _) as [c'|e].
    + assert (Hu6 : u32 (offset + 6) = offset + 6) by (apply Z.mod_small; lia).
      rewrite Hu6.
      assert (Hd' : dfl c' = dfl c) by apply Hs.
      destruct (IH (offset + 6) c') as (r & Hr & Hp); try lia.
      exists r; split; [exact Hr|].
      destruct r as [c''|[c'' e]].
      * eapply settings_step_trans; eassumption.
      * split; [eapply settings_step_trans; [eassumption|apply Hp]|apply Hp].
    + eexists; split; [reflexivity|].
      split; [apply settings_step_refl|exact Hs].
Qed.

(** X19. [h3c_handle_settings] on any frame: it returns 0 or 1 within
    one round for each six bytes of payload, and whatever the settings
    are, a non-negative [miw] stays non-negative, an [mfs] between 16384
    and 16777215 stays there, and [streams_limit] is untouched on an
    incoming connection and stays at most the configured maximum on an
    outgoing one.  With 1 the error code is unchanged and the demux
    state is FRAME_A unless the frame is an ACK with no payload, which
    changes nothing; with 0 either nothing changed (the payload is not
    whole) or the connection is in error with an error code. *)
Theorem h3c_handle_settings_limits (fuel : nat) (c : h3c)
  (Hdfl : - 2 ^ 31 <= dfl c < 2 ^ 31)
  (Hdata : 0 <= data (dbuf c) < 2 ^ 63)
  (Hfuel : dfl c < 6 * Z.of_nat fuel) :
  exists ret c',
    h3c_handle_settings ACK IWS MFS EP MCS maxcs fuel c = Some (ret, c') /\
    (ret = 0 \/ ret = 1) /\
    flags c' = flags c /\
    (0 <= miw c -> 0 <= miw c') /\
    (16384 <= mfs c <= 16777215 -> 16384 <= mfs c' <= 16777215) /\
    (Z.land (flags c) H3_CF_IS_BACK <> 0 ->
     streams_limit c <= maxcs -> streams_limit c' <= maxcs) /\
    (Z.land (flags c) H3_CF_IS_BACK = 0 ->
     streams_limit c' = streams_limit c) /\
    (ret = 1 ->
     errcode c' = errcode c /\ (c' = c \/ st0 c' = MuxH3.H3_CS_FRAME_A)) /\
    (ret = 0 ->
     c' = c \/
     (st0 c' = MuxH3.H3_CS_ERROR /\ errcode c' <> H3_ERR_NO_ERROR)).
Proof.
  unfold h3c_handle_settings.
  destruct (Z.land (dff c) ACK =? 0); cbn [negb].
  2:{ destruct (dfl c =? 0); cbn [negb].
      - exists 1, c. split; [reflexivity|].
        repeat split; auto; try tauto; try lia.
      - exists 0, (h3c_error c H3_ERR_FRAME_SIZE_ERROR).
        split; [reflexivity|].
        split; [auto|]. cbn.
        repeat split; auto; try tauto; try lia; try discriminate.
        intros _; right; split; [reflexivity|discriminate]. }
  destruct (Z.ltb_spec (data (dbuf c)) (u64 (dfl c))) as [Hlt|Hge].
  { exists 0, c. split; [reflexivity|].
    repeat split; auto; try tauto; try lia. }
  assert (Hd0 : 0 <= dfl c).
  { destruct (Z_lt_le_dec (dfl c) 0) as [Hn|]; [|assumption].
    exfalso. unfold u64 in Hge.
    replace (dfl c) with (dfl c + 2 ^ 64 + (-1) * 2 ^ 64) in Hge by lia.
    rewrite Z.mod_add in Hge by lia.
    rewrite Z.mod_small in Hge; lia. }
  destruct (h3c_settings_loop_ok fuel 0 c) as (r & Hr & Hp); try lia.
  rewrite Hr.
  destruct r as [c'|[c' e]].
  - exists 1, (set_st0 c' MuxH3.H3_CS_FRAME_A). split; [reflexivity|].
    destruct Hp as (F1 & B1 & L1 & D1 & S1 & E1 & M1 & X1 & K1 & N1).
    cbn. repeat split; auto; try tauto; try lia; try discriminate.
  - exists 0, (h3c_error c' e). split; [reflexivity|].
    destruct Hp as ((F1 & B1 & L1 & D1 & S1 & E1 & M1 & X1 & K1 & N1) & He).
    cbn. repeat split; auto; try tauto; try lia; try discriminate.
Qed.

End SettingsFacts.

Lemma h3c_handle_settings_limits_witness :
  exists ret c',
    MuxSettings.h3c_handle_settings 1 4 5 2 3 100 3 MuxSettings.settings_conn
    = Some (ret, c')
    /\ MuxSettings.streams_limit c' <= 100.
Proof.
  destruct (h3c_handle_settings_limits 1 4 5 2 3 100 ltac:(lia) 3
              MuxSettings.settings_conn)
    as (ret & c' & E & _ & _ & _ & _ & L & _).
  - cbn. lia.
  - cbn. lia.
  - cbn. lia.
  - exists ret, c'. split; [exact E|].
    apply L; [cbn; discriminate|cbn; lia].
Defined.

(** ** CRYPTO data handed over by the TLS stack *)

Section HandshakeDataClaims.
Import Int Xprt CryptoBuf HandshakeData.
Variable realloc : Z -> bool.
Variable pool_alloc : Z -> bool.

(** X22. [ha_quic_add_handshake_data] takes CRYPTO data for the Initial
    and the Handshake level only: for the early-data and the
    application level it returns 0 and stores nothing.  For one of the
    two levels it returns 0 and stores nothing when the buffers of the
    level are not allocated; with them allocated and every allocation
    succeeding it returns 1, the stream of the level is the old one
    followed by the data, still with every buffer but the last full, and
    the buffers of the other levels are untouched. *)
Theorem ha_quic_add_handshake_data_levels (fuel : nat) (cb : crypto_bufs)
    (level : ssl_encryption_level_t) (dat : list Z) :
  match level with
  | ssl_encryption_early_data | ssl_encryption_application =>
      ha_quic_add_handshake_data realloc pool_alloc fuel cb level dat
      = Some (0, cb)
  | _ =>
      (cb (ssl_to_quic_enc_level level) = None ->
       ha_quic_add_handshake_data realloc pool_alloc fuel cb level dat
       = Some (0, cb))
      /\ forall t,
           cb (ssl_to_quic_enc_level level) = Some t ->
           (forall n, realloc n = true) -> (forall n, pool_alloc n = true) ->
           crypto_inv t ->
           crypto_sz t + Z.of_nat (length dat) < 2 ^ 64 ->
           (length dat < fuel)%nat ->
           exists cb' t',
             ha_quic_add_handshake_data realloc pool_alloc fuel cb level dat
             = Some (1, cb')
             /\ cb' (ssl_to_quic_enc_level level) = Some t'
             /\ stream t' = stream t ++ dat
             /\ crypto_inv t'
             /\ forall l, l <> ssl_to_quic_enc_level level -> cb' l = cb l
  end.
Proof.
  destruct level; cbn [ssl_to_quic_enc_level] in *;
    try reflexivity;
    unfold ha_quic_add_handshake_data; cbn [ssl_to_quic_enc_level
      enc_level_eqb negb andb];
    (split; [intros Hn; rewrite Hn; reflexivity|]);
    intros t Hcb Hre Hpo Hinv Hmax Hfuel; rewrite Hcb;
    destruct (quic_crypto_data_cpy_ok realloc pool_alloc fuel t dat
                Hre Hpo Hinv Hmax Hfuel) as (t' & E & Hs & _ & Hi);
    rewrite E; cbn [Z.eqb];
    eexists _, t'; (split; [reflexivity|]);
    (split; [unfold set_crypto_bufs; cbn; reflexivity|]);
    (split; [exact Hs|]); (split; [exact Hi|]);
    intros l Hl; unfold set_crypto_bufs;
    destruct (enc_level_eqb l _) eqn:El; try reflexivity;
    apply enc_level_eqb_eq in El; contradiction.
Qed.

Lemma ssl_quic_enc_level_inverse (level : ssl_encryption_level_t)
      (tel : quic_tls_enc_level) :
  quic_to_ssl_enc_level (ssl_to_quic_enc_level level) = level
  /\ ssl_to_quic_enc_level (quic_to_ssl_enc_level tel) = tel.
Proof. destruct level, tel; split; reflexivity. Qed.

End HandshakeDataClaims.

Lemma ha_quic_add_handshake_data_levels_witness :
  exists cb',
    HandshakeData.ha_quic_add_handshake_data
      (fun _ => true) (fun _ => true) 4 HandshakeData.fresh_crypto_bufs
      HandshakeData.ssl_encryption_handshake [1; 2; 3]
    = Some (1, cb').
Proof.
  destruct (proj2 (ha_quic_add_handshake_data_levels
                     (fun _ => true) (fun _ => true)
                     4 HandshakeData.fresh_crypto_bufs
                     HandshakeData.ssl_encryption_handshake [1; 2; 3])
                  CryptoBuf.quic_conn_enc_level_init)
    as (cb' & t' & E & _).
  - reflexivity.
  - reflexivity.
  - reflexivity.
  - apply quic_conn_enc_level_init_inv.
  - cbn. lia.
  - cbn. lia.
  - exists cb'. exact E.
Defined.

(** ** Streams blocked on their window *)

Section UnblockFacts.
Import Int MuxH3 MuxStreams.

Lemma land_clear_bit (f : Z) :
  Z.land (u32 (Z.land f (Z.lnot H3_SF_BLK_SFCTL))) H3_SF_BLK_SFCTL = 0.
Proof.
  unfold u32. rewrite <- Z.land_ones by lia.
  rewrite <- !Z.land_assoc.
  rewrite (Z.land_comm (Z.ones 32)), Z.land_assoc.
  rewrite <- (Z.land_assoc f), (Z.land_comm (Z.lnot _)).
  rewrite Z.land_lnot_diag, Z.land_0_r. reflexivity.
Qed.

Lemma h3s_unblock_not_blocked (c : h3c) (s : h3s) :
  blocked (h3s_unblock c s) -> h3s_mws c (h3s_unblock c s) <= 0.
Proof.
  unfold blocked, h3s_unblock.
  destruct (Z.eqb_spec (Z.land (flags s) H3_SF_BLK_SFCTL) 0) as [E|E];
    cbn [negb andb].
  - intros H. contradiction.
  - destruct (Z.ltb_spec 0 (h3s_mws c s)) as [Hw|Hw].
    + cbn [flags]. rewrite land_clear_bit. intros H. contradiction.
    + intros _. exact Hw.
Qed.

Lemma h3s_unblock_idem (c : h3c) (s : h3s) :
  h3s_unblock c (h3s_unblock c s) = h3s_unblock c s.
Proof.
  unfold h3s_unblock at 2 3.
  destruct (Z.eqb_spec (Z.land (flags s) H3_SF_BLK_SFCTL) 0) as [E|E];
    cbn [negb andb].
  - unfold h3s_unblock. rewrite E. reflexivity.
  - destruct (Z.ltb_spec 0 (h3s_mws c s)) as [Hw|Hw].
    + unfold h3s_unblock. cbn [flags]. rewrite land_clear_bit. reflexivity.
    + unfold h3s_unblock.
      destruct (Z.eqb_spec (Z.land (flags s) H3_SF_BLK_SFCTL) 0); [lia|].
      destruct (Z.ltb_spec 0 (h3s_mws c s)); [lia|]. reflexivity.
Qed.

Lemma h3s_unblock_keeps (c : h3c) (s : h3s) :
  0 <= flags s < 2 ^ 32 ->
  let s' := h3s_unblock c s in
  id s' = id s /\ sws s' = sws s /\ st s' = st s
  /\ s_errcode s' = s_errcode s /\ cs s' = cs s /\ cs_error s' = cs_error s
  /\ Z.land (flags s') (Z.lnot H3_SF_BLK_SFCTL)
     = Z.land (flags s) (Z.lnot H3_SF_BLK_SFCTL)
  /\ (~ blocked s \/ h3s_mws c s <= 0 -> s' = s)
  /\ (blocked s -> 0 < h3s_mws c s ->
      ~ blocked s'
      /\ (queue s' = IN_SEND_LIST \/ queue s' = NOT_QUEUED)
      /\ (queue s' = IN_SEND_LIST <->
          subs_retry_send s = true
          \/ Z.land (flags s) (Z.lor H3_SF_WANT_SHUTR H3_SF_WANT_SHUTW)
             <> 0)).
Proof.
  intros Hf. unfold blocked. cbv zeta. unfold h3s_unblock.
  assert (Hfl : u32 (Z.land (flags s) (Z.lnot H3_SF_BLK_SFCTL))
                = Z.land (flags s) (Z.lnot H3_SF_BLK_SFCTL)).
  { unfold u32. rewrite <- Z.land_ones by lia.
    rewrite <- Z.land_assoc, (Z.land_comm (Z.lnot _)), Z.land_assoc.
    rewrite Z.land_ones by lia. rewrite Z.mod_small by lia. reflexivity. }
  destruct (Z.eqb_spec (Z.land (flags s) H3_SF_BLK_SFCTL) 0) as [E|E];
    cbn [negb andb].
  { repeat split; try reflexivity; intros; contradiction. }
  destruct (Z.ltb_spec 0 (h3s_mws c s)) as [Hw|Hw].
  2:{ repeat split; try reflexivity; intros; lia. }
  cbn [id sws st s_errcode cs cs_error flags queue]. rewrite Hfl.
  do 6 (split; [reflexivity|]).
  split.
  { rewrite <- Z.land_assoc, Z.land_diag. reflexivity. }
  split; [intros [H|H]; [contradiction|lia]|].
  intros _ _.
  assert (Hw2 : Z.land (Z.land (flags s) (Z.lnot H3_SF_BLK_SFCTL))
                       (Z.lor H3_SF_WANT_SHUTR H3_SF_WANT_SHUTW)
                = Z.land (flags s) (Z.lor H3_SF_WANT_SHUTR H3_SF_WANT_SHUTW)).
  { rewrite <- Z.land_assoc. f_equal. }
  rewrite Hw2.
  split.
  { rewrite <- Hfl, land_clear_bit. intros H; contradiction. }
  destruct (subs_retry_send s); cbn [orb].
  { split; [left; reflexivity|]. split; [intros _; left; reflexivity|reflexivity]. }
  destruct (Z.eqb_spec (Z.land (flags s)
                          (Z.lor H3_SF_WANT_SHUTR H3_SF_WANT_SHUTW)) 0)
    as [E2|E2]; cbn [negb].
  - split; [right; reflexivity|].
    split; [discriminate|intros [H|H]; [discriminate|contradiction]].
  - split; [left; reflexivity|].
    split; [intros _; right; exact E2|reflexivity].
Qed.

(** X23. [h3c_unblock_sfctl] leaves no stream flagged as blocked on its
    window (BLK_SFCTL) while this window, [sws + miw], is positive.  For
    each stream it changes nothing but this flag and the list the stream
    is in: a stream that is not flagged or has no window is left as it
    is, a stream that is unblocked leaves its list and joins the send
    list exactly when it has a subscriber waiting to send or wants to
    shut down.  Running it a second time changes nothing. *)
Theorem h3c_unblock_sfctl_spec (c : h3c) (streams : list h3s) :
  Forall (fun s => 0 <= flags s < 2 ^ 32) streams ->
  let streams' := h3c_unblock_sfctl c streams in
  Forall (fun s' => blocked s' -> h3s_mws c s' <= 0) streams'
  /\ Forall2 (fun s s' =>
       id s' = id s /\ sws s' = sws s /\ st s' = st s
       /\ s_errcode s' = s_errcode s /\ cs s' = cs s
       /\ cs_error s' = cs_error s
       /\ Z.land (flags s') (Z.lnot H3_SF_BLK_SFCTL)
          = Z.land (flags s) (Z.lnot H3_SF_BLK_SFCTL)
       /\ (~ blocked s \/ h3s_mws c s <= 0 -> s' = s)
       /\ (blocked s -> 0 < h3s_mws c s ->
           ~ blocked s'
           /\ (queue s' = IN_SEND_LIST \/ queue s' = NOT_QUEUED)
           /\ (queue s' = IN_SEND_LIST <->
               subs_retry_send s = true
               \/ Z.land (flags s)
                    (Z.lor H3_SF_WANT_SHUTR H3_SF_WANT_SHUTW) <> 0)))
       streams streams'
  /\ h3c_unblock_sfctl c streams' = streams'.
Proof.
  intros Hf. cbv zeta. unfold h3c_unblock_sfctl.
  split; [|split].
  - apply Forall_map. apply Forall_forall. intros s _.
    apply h3s_unblock_not_blocked.
  - induction Hf as [|s l Hs Hl IH]; cbn [map]; constructor.
    + apply (h3s_unblock_keeps c s Hs).
    + exact IH.
  - rewrite map_map. apply map_ext. intros s. apply h3s_unblock_idem.
Qed.

Lemma h3c_unblock_sfctl_spec_witness :
  h3c_unblock_sfctl (Scenario.wu_conn 0 [])
    (h3c_unblock_sfctl (Scenario.wu_conn 0 [])
       [stream_with 1 0x80 5; stream_with 3 0x80 (-70000)])
  = h3c_unblock_sfctl (Scenario.wu_conn 0 [])
      [stream_with 1 0x80 5; stream_with 3 0x80 (-70000)].
Proof.
  refine (proj2 (proj2 (h3c_unblock_sfctl_spec (Scenario.wu_conn 0 [])
                          [stream_with 1 0x80 5; stream_with 3 0x80 (-70000)]
                          _))).
  repeat constructor; cbn; lia.
Defined.

End UnblockFacts.
